(** * ZipIOProvider: a shallow embedding of wzmaplib's libzip-backed IOProvider

    Source: lib/wzmaplib/plugins/ZipIOProvider/src/ZipIOProvider.cpp.

    The provider sits on top of libzip.  libzip is not part of the
    repository, so its entry points are the fields of the class [LibZip]
    below; every function of the provider is written against that
    interface and every theorem holds for all of its implementations.
    [SimpleZip] is one executable implementation (a list of entries kept in
    memory) on which the statements are evaluated.

    Conventions
    - [size_t], [zip_uint64_t]: [Z], reduced modulo [2^64] where the source
      can wrap;
    - [std::string]: [string]; [std::vector<char>], raw buffers: [list byte];
    - a pointer that may be null, an [optional<T>]: [option];
    - a method that updates its object returns the updated object next to
      its result. *)

From Stdlib Require Import ZArith List Bool Lia Ascii String.
From Stdlib Require Import Strings.Byte.
Import ListNotations.
Local Open Scope string_scope.
Local Open Scope list_scope.
Local Open Scope Z_scope.

(** ** std::string and <cstring> operations used by the provider *)

Module Str.

(** [s.empty()] *)
Definition empty (s : string) : bool :=
  match s with EmptyString => true | String _ _ => false end.

(** [s.front()] (only called on non-empty strings) *)
Definition front (s : string) : option ascii :=
  match s with EmptyString => None | String c _ => Some c end.

(** [s.back()] (only called on non-empty strings) *)
Fixpoint back (s : string) : option ascii :=
  match s with
  | EmptyString => None
  | String c EmptyString => Some c
  | String _ r => back r
  end.

(** [s.find(c, pos)]; [None] is [npos] *)
Fixpoint find_char (c : ascii) (pos : nat) (s : string) : option nat :=
  match s with
  | EmptyString => None
  | String x r =>
      match pos with
      | O => if Ascii.eqb x c then Some O else option_map S (find_char c O r)
      | S pos' => option_map S (find_char c pos' r)
      end
  end.

(** [s.rfind(c)]; [None] is [npos] *)
Fixpoint rfind_char (c : ascii) (s : string) : option nat :=
  match s with
  | EmptyString => None
  | String x r =>
      match rfind_char c r with
      | Some i => Some (S i)
      | None => if Ascii.eqb x c then Some O else None
      end
  end.

(** [strchr(s, c) != nullptr] *)
Definition strchr (s : string) (c : ascii) : bool :=
  match find_char c O s with Some _ => true | None => false end.

(** [s.find("..") != npos] *)
Fixpoint has_dotdot (s : string) : bool :=
  match s with
  | EmptyString => false
  | String c r =>
      (Ascii.eqb c "."
       && match r with String d _ => Ascii.eqb d "." | EmptyString => false end)
      || has_dotdot r
  end.

(** [s.substr(pos)] for [pos <= s.size()] *)
Fixpoint substr_from (pos : nat) (s : string) : string :=
  match pos, s with
  | O, _ => s
  | S p, String _ r => substr_from p r
  | S _, EmptyString => EmptyString
  end.

(** [s.substr(0, n)], also [s.resize(n)] for [n <= s.size()] *)
Fixpoint take (n : nat) (s : string) : string :=
  match n, s with
  | O, _ => EmptyString
  | S k, String c r => String c (take k r)
  | S _, EmptyString => EmptyString
  end.

(** [std::replace(s.begin(), s.end(), a, b)] *)
Fixpoint replace (a b : ascii) (s : string) : string :=
  match s with
  | EmptyString => EmptyString
  | String c r => String (if Ascii.eqb c a then b else c) (replace a b r)
  end.

(** [strncmp(a, b, n) == 0] on NUL-terminated strings *)
Fixpoint strncmp_eq (a b : string) (n : nat) : bool :=
  match n with
  | O => true
  | S k =>
      match a, b with
      | EmptyString, EmptyString => true
      | String x a', String y b' => Ascii.eqb x y && strncmp_eq a' b' k
      | _, _ => false
      end
  end.

(** number of trailing characters equal to [c] (the reverse-iterator loop
    of enumerateFoldersInternal) *)
Fixpoint trailing (c : ascii) (s : string) : nat :=
  match s with
  | EmptyString => O
  | String x r =>
      let k := trailing c r in
      if (Nat.eqb k (String.length r) && Ascii.eqb x c)%bool then S k else k
  end.

(** [operator<] of std::string is bytewise lexicographic; [std::sort] of a
    vector of strings, as an insertion sort (the sorted arrangement of a
    list of strings is unique) *)
Fixpoint insert_sorted (x : string) (l : list string) : list string :=
  match l with
  | [] => [x]
  | y :: r => if String.leb x y then x :: l else y :: insert_sorted x r
  end.

Definition sort (l : list string) : list string :=
  fold_right insert_sorted [] l.

End Str.

(** ** Fixed-width arithmetic *)

Definition SIZE_MAX_plus_1 : Z := 2 ^ 64.
Definition wrap64 (z : Z) : Z := z mod SIZE_MAX_plus_1.
Definition UINT32_MAX : Z := 2 ^ 32 - 1.

(** ** The libzip interface *)

(** The fields of [struct zip_stat] the provider reads. *)
Record zip_stat : Type := mk_zip_stat {
  st_valid : Z;
  st_size : Z;
  st_comp_method : Z
}.

(** Constants of zip.h. *)
Definition ZIP_STAT_SIZE : Z := 4.
Definition ZIP_STAT_COMP_METHOD : Z := 64.
Definition ZIP_CM_STORE : Z := 0.
Definition ZIP_CM_DEFLATE : Z := 8.
Definition ZIP_OPSYS_DOS : Z := 0.
Definition ZIP_OPSYS_UNIX : Z := 3.

(** What the provider calls in libzip (and the allocator).
    - [zip_get_name]: [None] for a NULL result;
    - [zip_file_get_external_attributes]: [Some opsys] when it returns 0;
    - [zip_stat_index]: [Some st] when it returns 0;
    - [zip_fopen_index]: [None] for a NULL handle;
    - [zip_fread h n]: [None] for a negative result, otherwise the bytes
      stored into the caller's buffer, whose number is the result;
    - [zip_source_buffer a data len]: [None] for NULL;
    - [zip_file_add a name src]: the returned index (negative on failure)
      and the archive afterwards, with flags
      [ZIP_FL_OVERWRITE | ZIP_FL_ENC_UTF_8];
    - [zip_file_set_dostime a idx dtime ddate]: the archive afterwards;
    - [realloc_ok n]: whether [realloc] to [n] bytes succeeds. *)
Class LibZip : Type := {
  zip_t : Type;
  zip_file_t : Type;
  zip_source_t : Type;
  zip_get_num_entries : zip_t -> Z;
  zip_get_name : zip_t -> Z -> option string;
  zip_file_get_external_attributes : zip_t -> Z -> option Z;
  zip_name_locate : zip_t -> string -> Z;
  zip_stat_index : zip_t -> Z -> option zip_stat;
  zip_fopen_index : zip_t -> Z -> option zip_file_t;
  zip_fread : zip_file_t -> Z -> option (list byte) * zip_file_t;
  zip_source_buffer : zip_t -> list byte -> Z -> option zip_source_t;
  zip_file_add : zip_t -> string -> zip_source_t -> Z * zip_t;
  zip_file_set_dostime : zip_t -> Z -> Z -> Z -> zip_t;
  realloc_ok : Z -> bool
}.

(** The [zip_int64_t] a [zip_fread] returns. *)
Definition fread_result (r : option (list byte)) : Z :=
  match r with
  | None => -1
  | Some bs => Z.of_nat (List.length bs)
  end.

(** ** WzMapBinaryZipIOStream *)

Inductive OpenMode : Type := READ | WRITE.

Module Stream.
Section WithLibZip.
Context {LZ : LibZip}.

(** The members of the class.  [m_zipArchive] is a shared pointer to the
    archive the provider owns too: the archive is passed to [close], which
    is the one method that uses it, and returned from it.
    [m_writeBuffer] holds the [m_writeBufferLen] bytes written so far of a
    heap block of [m_writeBufferCapacity] bytes. *)
Record t : Type := mk {
  m_mode : option OpenMode;
  m_pReadHandle : option zip_file_t;
  m_extraByteRead : option byte;
  m_filename : string;
  m_writeBuffer : option (list byte);
  m_writeBufferLen : Z;
  m_writeBufferCapacity : Z;
  m_fixedLastMod : bool
}.

Definition construct (mode : OpenMode) : t :=
  mk (Some mode) None None "" None 0 0 false.

Definition set_read (s : t) (h : option zip_file_t) (e : option byte) : t :=
  mk (m_mode s) h e (m_filename s) (m_writeBuffer s) (m_writeBufferLen s)
     (m_writeBufferCapacity s) (m_fixedLastMod s).

Definition set_write (s : t) (name : string) (buf : option (list byte))
    (len cap : Z) : t :=
  mk (m_mode s) (m_pReadHandle s) (m_extraByteRead s) name buf len cap
     (m_fixedLastMod s).

(** [openForReading(zipArchiveIndex, zipArchive)] *)
Definition openForReading (zipArchiveIndex : Z) (zipArchive : option zip_t)
    : option t :=
  match zipArchive with
  | None => None
  | Some a =>
      Some (set_read (construct READ) (zip_fopen_index a zipArchiveIndex) None)
  end.

(** [openForWriting(filename, zipArchive, fixedLastMod)] *)
Definition openForWriting (filename : string) (zipArchive : option zip_t)
    (fixedLastMod : bool) : option t :=
  match zipArchive with
  | None => None
  | Some _ =>
      if Str.empty filename then None
      else Some (mk (Some WRITE) None None filename None 0 0 fixedLastMod)
  end.

(** [readBytes(buffer, len)]: the result, the bytes stored at the start of
    [buffer], and the stream afterwards.  [len -= 1] is a [size_t]
    subtraction; a non-negative [zip_int64_t] plus [extraByte] does not
    wrap. *)
Definition readBytes (s : t) (len : Z) : option Z * list byte * t :=
  match m_pReadHandle s with
  | None => (None, [], s)
  | Some h =>
      match m_extraByteRead s with
      | Some tmpByte =>
          let '(r, h') := zip_fread h (wrap64 (len - 1)) in
          let s' := set_read s (Some h') None in
          let stored := tmpByte :: match r with Some bs => bs | None => [] end in
          if fread_result r <? 0 then (Some 1, stored, s')
          else (Some (fread_result r + 1), stored, s')
      | None =>
          let '(r, h') := zip_fread h len in
          let s' := set_read s (Some h') None in
          let stored := match r with Some bs => bs | None => [] end in
          if fread_result r <? 0 then (None, stored, s')
          else (Some (fread_result r + 0), stored, s')
      end
  end.

(** Modelled from the spec: BinaryIOStream::readULE8 of wzmaplib's map_io,
    which is not among these sources: a read of one byte through
    [readBytes] that succeeds when exactly one byte came back.  Returns the
    success flag, the byte when there is one, and the stream afterwards. *)
Definition readULE8 (s : t) : bool * option byte * t :=
  let '(r, stored, s') := readBytes s 1 in
  match r with
  | Some n => if n =? 1 then (true, List.hd_error stored, s') else (false, None, s')
  | None => (false, None, s')
  end.

(** [writeBytes(buffer, len)]; [buffer] holds at least [len] bytes.  Without
    a [realloc] a null [m_writeBuffer] stays null. *)
Definition writeBytes (s : t) (buffer : list byte) (len : Z) : option Z * t :=
  let grow := wrap64 (m_writeBufferCapacity s - m_writeBufferLen s) <? len in
  let newCapacity :=
    Z.max (wrap64 (m_writeBufferCapacity s
                   + Z.max (m_writeBufferCapacity s / 2) len)) 1024 in
  if grow && negb (realloc_ok newCapacity) then (None, s)
  else
    let cap := if grow then newCapacity else m_writeBufferCapacity s in
    let copied := firstn (Z.to_nat len) buffer in
    let buf :=
      match m_writeBuffer s with
      | Some old => Some (old ++ copied)
      | None => if grow then Some copied else None
      end in
    (Some len,
     set_write s (m_filename s) buf (wrap64 (m_writeBufferLen s + len)) cap).

(** [close()], on the shared archive [a]. *)
Definition close (s : t) (a : zip_t) : bool * t * zip_t :=
  match m_pReadHandle s with
  | Some _ =>
      (true, set_write (set_read s None (m_extraByteRead s)) ""
               (m_writeBuffer s) (m_writeBufferLen s) (m_writeBufferCapacity s), a)
  | None =>
      if 0 <? m_writeBufferLen s then
        match m_writeBuffer s with
        | None => (false, s, a)
        | Some buf =>
            match zip_source_buffer a buf (m_writeBufferLen s) with
            | None => (false, set_write s "" None 0 0, a)
            | Some src =>
                if Str.empty (m_filename s) then
                  (false, set_write s (m_filename s) None 0 0, a)
                else
                  let '(result, a1) := zip_file_add a (m_filename s) src in
                  if result <? 0 then (false, set_write s "" None 0 0, a1)
                  else
                    let a2 := if m_fixedLastMod s
                              then zip_file_set_dostime a1 result 24608 33
                              else a1 in
                    (true, set_write s "" None 0 0, a2)
            end
        end
      else (true, s, a)
  end.

(** [endOfStream()] *)
Definition endOfStream (s : t) : bool * t :=
  match m_mode s with
  | Some READ =>
      match m_pReadHandle s with
      | None => (false, s)
      | Some _ =>
          match m_extraByteRead s with
          | Some _ => (false, s)
          | None =>
              let '(ok, tmpByte, s') := readULE8 s in
              if ok
              then (false, set_read s' (m_pReadHandle s') tmpByte)
              else (true, s')
          end
      end
  | _ => (false, s)
  end.

End WithLibZip.
End Stream.

(** ** WzMapZipIO *)

Definition WzMapZipDefaultEmbeddedFileMaxFileSize : Z := 104857600.

Module ZipSanityCheckResult.
Inductive t : Type :=
  | PASSED
  | FAILURE_EXCEEDS_MAXFILESIZE
  | FAILURE_UNSUPPORTED_COMP_METHOD.
End ZipSanityCheckResult.

Module LoadFullFileResult.
Inductive t : Type :=
  | SUCCESS
  | FAILURE_OPEN
  | FAILURE_READ
  | FAILURE_EXCEEDS_MAXFILESIZE.
End LoadFullFileResult.

(** [wzMapZipIOSanityCheckStat(st, fileSizeLimit)] *)
Definition wzMapZipIOSanityCheckStat (st : zip_stat) (fileSizeLimit : Z)
    : ZipSanityCheckResult.t :=
  if negb (Z.land (st_valid st) ZIP_STAT_SIZE =? 0) && (fileSizeLimit <? st_size st)
  then ZipSanityCheckResult.FAILURE_EXCEEDS_MAXFILESIZE
  else
    let compressedFile :=
      negb (Z.land (st_valid st) ZIP_STAT_COMP_METHOD =? 0)
      && negb (st_comp_method st =? ZIP_CM_STORE) in
    if compressedFile && negb (st_comp_method st =? ZIP_CM_DEFLATE)
    then ZipSanityCheckResult.FAILURE_UNSUPPORTED_COMP_METHOD
    else ZipSanityCheckResult.PASSED.

(** [isUnsafeZipEntryName(filename)] *)
Definition isUnsafeZipEntryName (filename : string) : bool :=
  if Str.empty filename then true
  else if Str.has_dotdot filename then true
  else if match Str.front filename with
          | Some c => Ascii.eqb c "/" || Ascii.eqb c "\"
          | None => false
          end
  then true
  else
    match filename with
    | String c0 (String c1 _) =>
        Ascii.eqb c1 ":"
        && ((Nat.leb 65 (nat_of_ascii c0) && Nat.leb (nat_of_ascii c0) 90)
            || (Nat.leb 97 (nat_of_ascii c0) && Nat.leb (nat_of_ascii c0) 122))
    | _ => false
    end.

(** The indices [0 .. n-1] a [for (idx = 0; idx < n; idx++)] loop visits. *)
Definition indices (n : Z) : list Z :=
  List.map Z.of_nat (List.seq 0 (Z.to_nat n)).

(** The base path as both enumerations prepare it: [basePathToSearch] and
    [emptyBasePath]. *)
Definition basePathToSearch (basePath : string) : string * bool :=
  let emptyBasePath := Str.empty basePath in
  let base :=
    if negb emptyBasePath
       && negb (match Str.back basePath with
                | Some c => Ascii.eqb c "/" | None => false end)
    then String.append basePath "/"
    else basePath in
  if String.eqb base "/" then ("", true) else (base, emptyBasePath).

Module ZipIO.
Section WithLibZip.
Context {LZ : LibZip}.

(** The members of WzMapZipIO.  [m_zipArchive] is the archive behind the
    shared pointer, which every factory function sets. *)
Record t : Type := mk {
  m_zipArchive : zip_t;
  m_fixedLastMod : bool;
  m_cachedDirectoriesList : list string;
  m_foundMalformedWindowsPathSeparators : option bool
}.

Definition set_archive (p : t) (a : zip_t) : t :=
  mk a (m_fixedLastMod p) (m_cachedDirectoriesList p)
     (m_foundMalformedWindowsPathSeparators p).

Definition set_cache (p : t) (l : list string) : t :=
  mk (m_zipArchive p) (m_fixedLastMod p) l
     (m_foundMalformedWindowsPathSeparators p).

Definition set_found (p : t) (v : option bool) : t :=
  mk (m_zipArchive p) (m_fixedLastMod p) (m_cachedDirectoriesList p) v.

(** The provider as a factory function returns it. *)
Definition fresh (a : zip_t) (fixedLastMod : bool) : t :=
  mk a fixedLastMod [] None.

(** The loop of determineIfMalformedWindowsPathSeparatorWorkaround:
    [Some b] when it returns [b] from inside the loop, [None] when the loop
    runs to its end. *)
Fixpoint determine_loop (a : zip_t) (idxs : list Z) : option bool :=
  match idxs with
  | [] => None
  | idx :: rest =>
      match zip_get_name a idx with
      | None => determine_loop a rest
      | Some name =>
          match zip_file_get_external_attributes a idx with
          | Some opsys =>
              if opsys =? ZIP_OPSYS_DOS then
                if Str.strchr name "\" then Some true
                else if Str.strchr name "/" then Some false
                else determine_loop a rest
              else Some false
          | None => determine_loop a rest
          end
      end
  end.

(** [determineIfMalformedWindowsPathSeparatorWorkaround()] *)
Definition determineIfMalformedWindowsPathSeparatorWorkaround (p : t)
    : bool * t :=
  let result := zip_get_num_entries (m_zipArchive p) in
  if result <? 0 then (false, p)
  else
    match determine_loop (m_zipArchive p) (indices result) with
    | Some b => (b, set_found p (Some b))
    | None => (false, set_found p (Some false))
    end.

(** The macro [malformed_windows_path_separators_workaround]. *)
Definition malformed_windows_path_separators_workaround (p : t) : bool * t :=
  match m_foundMalformedWindowsPathSeparators p with
  | Some v => (v, p)
  | None => determineIfMalformedWindowsPathSeparatorWorkaround p
  end.

(** [zip_name_locate] on pointers that may be null: libzip answers -1 for a
    null archive or name. *)
Definition zip_name_locate_ptr (archive : option zip_t) (fname : option string)
    : Z :=
  match archive, fname with
  | Some a, Some f => zip_name_locate a f
  | _, _ => -1
  end.

(** [wz_zip_name_locate_impl(archive, fname, flags, useWindowsPathWorkaroundIfNeeded)] *)
Definition wz_zip_name_locate_impl (archive : option zip_t)
    (fname : option string) (useWindowsPathWorkaroundIfNeeded : bool) : Z :=
  let zipLocateResult := zip_name_locate_ptr archive fname in
  if zipLocateResult <? 0 then
    match archive, fname with
    | Some _, Some f =>
        if useWindowsPathWorkaroundIfNeeded
        then zip_name_locate_ptr archive (Some (Str.replace "/" "\" f))
        else zipLocateResult
    | _, _ => zipLocateResult
    end
  else zipLocateResult.

(** The macro [wz_zip_name_locate(archive, fname, flags)], as the methods
    use it: on the provider's archive and a [c_str()]. *)
Definition wz_zip_name_locate (p : t) (fname : string) : Z * t :=
  let '(w, p') := malformed_windows_path_separators_workaround p in
  (wz_zip_name_locate_impl (Some (m_zipArchive p')) (Some fname) w, p').

(** The destructor of a stream the provider created: it calls [close] on
    the shared archive. *)
Definition destroy_stream (s : Stream.t) (p : t) : t :=
  let '(_, _, a) := Stream.close s (m_zipArchive p) in set_archive p a.

(** [openBinaryStream(filename, mode)] *)
Definition openBinaryStream (p : t) (filename : string) (mode : OpenMode)
    : option Stream.t * t :=
  match mode with
  | READ =>
      let '(zipLocateResult, p1) := wz_zip_name_locate p filename in
      if zipLocateResult <? 0 then (None, p1)
      else
        let zipFileIndex := zipLocateResult in
        match zip_stat_index (m_zipArchive p1) zipFileIndex with
        | None => (None, p1)
        | Some st =>
            match wzMapZipIOSanityCheckStat st
                    WzMapZipDefaultEmbeddedFileMaxFileSize with
            | ZipSanityCheckResult.PASSED =>
                (Stream.openForReading zipFileIndex (Some (m_zipArchive p1)), p1)
            | _ => (None, p1)
            end
        end
  | WRITE =>
      (Stream.openForWriting filename (Some (m_zipArchive p)) (m_fixedLastMod p), p)
  end.

(** The bytes of a buffer after [stored] was written at its start. *)
Definition overlay (stored buffer : list byte) : list byte :=
  stored ++ skipn (List.length stored) buffer.

(** [v.resize(n)] on an empty vector of chars. *)
Definition zeroes (n : Z) : list byte := repeat x00 (Z.to_nat n).

(** [loadFullFile(filename, fileData, maxFileSize, appendNullCharacter)]:
    the result, [fileData] afterwards, and the provider afterwards. *)
Definition loadFullFile (p : t) (filename : string) (fileData : list byte)
    (maxFileSize : Z) (appendNullCharacter : bool)
    : LoadFullFileResult.t * list byte * t :=
  let '(zipLocateResult, p1) := wz_zip_name_locate p filename in
  if zipLocateResult <? 0 then (LoadFullFileResult.FAILURE_OPEN, fileData, p1)
  else
    let zipFileIndex := zipLocateResult in
    match zip_stat_index (m_zipArchive p1) zipFileIndex with
    | None => (LoadFullFileResult.FAILURE_OPEN, fileData, p1)
    | Some st =>
        if Z.land (st_valid st) ZIP_STAT_SIZE =? 0
        then (LoadFullFileResult.FAILURE_OPEN, fileData, p1)
        else
          match wzMapZipIOSanityCheckStat st
                  (if negb (maxFileSize =? 0) then maxFileSize
                   else WzMapZipDefaultEmbeddedFileMaxFileSize) with
          | ZipSanityCheckResult.FAILURE_EXCEEDS_MAXFILESIZE =>
              (LoadFullFileResult.FAILURE_EXCEEDS_MAXFILESIZE, fileData, p1)
          | ZipSanityCheckResult.FAILURE_UNSUPPORTED_COMP_METHOD =>
              (LoadFullFileResult.FAILURE_OPEN, fileData, p1)
          | ZipSanityCheckResult.PASSED =>
              match Stream.openForReading zipFileIndex (Some (m_zipArchive p1)) with
              | None => (LoadFullFileResult.FAILURE_OPEN, fileData, p1)
              | Some readStream =>
                  let expectedFileSize := st_size st in
                  let resized :=
                    zeroes (wrap64 (expectedFileSize
                                    + (if appendNullCharacter then 1 else 0))) in
                  let '(result, stored, rs) :=
                    Stream.readBytes readStream (Z.of_nat (List.length resized)) in
                  let fileData1 := overlay stored resized in
                  match result with
                  | None =>
                      (LoadFullFileResult.FAILURE_READ, fileData1,
                       destroy_stream rs p1)
                  | Some n =>
                      if negb (n =? expectedFileSize)
                      then (LoadFullFileResult.FAILURE_READ, [],
                            destroy_stream rs p1)
                      else
                        let fileData2 :=
                          if appendNullCharacter
                          then removelast fileData1 ++ [x00]
                          else fileData1 in
                        let '(_, rs', a) := Stream.close rs (m_zipArchive p1) in
                        (LoadFullFileResult.SUCCESS, fileData2,
                         destroy_stream rs' (set_archive p1 a))
                  end
              end
          end
    end.

(** [writeFullFile(filename, ppFileData, fileSize)] *)
Definition writeFullFile (p : t) (filename : string) (ppFileData : list byte)
    (fileSize : Z) : bool * t :=
  match Stream.openForWriting filename (Some (m_zipArchive p)) (m_fixedLastMod p) with
  | None => (false, p)
  | Some writeStream =>
      let '(result, ws) := Stream.writeBytes writeStream ppFileData fileSize in
      match result with
      | None => (false, destroy_stream ws p)
      | Some n =>
          if negb (n =? fileSize) then (false, destroy_stream ws p)
          else
            let '(_, ws', a) := Stream.close ws (m_zipArchive p) in
            (true, destroy_stream ws' (set_cache (set_archive p a) []))
      end
  end.

(** [makeDirectory(directoryPath)] *)
Definition makeDirectory (p : t) (directoryPath : string) : bool := true.

(** [pathSeparator()] *)
Definition pathSeparator (p : t) : string := "/".

(** [fileExists(filename)] *)
Definition fileExists (p : t) (filename : string) : bool * t :=
  let '(zipLocateResult, p1) := wz_zip_name_locate p filename in
  if zipLocateResult <? 0 then (false, p1) else (true, p1).

(** The name of entry [idx] as the enumerations look at it: backslashes
    become slashes when the workaround is on and the entry is of DOS origin
    (for a name that has a backslash). *)
Definition normalizedName (workaround : bool) (a : zip_t) (idx : Z)
    (name : string) : string :=
  if workaround then
    match zip_file_get_external_attributes a idx with
    | Some opsys =>
        if (opsys =? ZIP_OPSYS_DOS) && Str.strchr name "\"
        then Str.replace "\" "/" name
        else name
    | None => name
    end
  else name.

(** A callback [enumFunc] with the state it keeps between calls. *)
Definition EnumFunc (St : Type) : Type := St -> string -> bool * St.

(** What enumerateFilesInternal does with the (normalized) name of an entry
    before it calls [enumFunc]: [None] for [continue], otherwise the name it
    passes on. *)
Definition fileToReport (recurse : bool) (base : string) (emptyBasePath : bool)
    (nameStr : string) : option string :=
  if negb emptyBasePath && negb (Str.strncmp_eq base nameStr (String.length base))
  then None
  else if isUnsafeZipEntryName nameStr then None
  else if match Str.back nameStr with
          | Some c => Ascii.eqb c "/" | None => false end
  then None
  else if negb recurse
          && match Str.find_char "/" (String.length base) nameStr with
             | Some _ => true | None => false end
  then None
  else Some (if negb emptyBasePath
             then Str.substr_from (String.length base) nameStr
             else nameStr).

(** The loop of enumerateFilesInternal. *)
Fixpoint enumerateFiles_loop {St : Type} (recurse : bool) (base : string)
    (emptyBasePath : bool) (enumFunc : EnumFunc St) (idxs : list Z)
    (p : t) (st : St) : t * St :=
  match idxs with
  | [] => (p, st)
  | idx :: rest =>
      match zip_get_name (m_zipArchive p) idx with
      | None => enumerateFiles_loop recurse base emptyBasePath enumFunc rest p st
      | Some name =>
          if Str.empty name
          then enumerateFiles_loop recurse base emptyBasePath enumFunc rest p st
          else
            let '(w, p1) := malformed_windows_path_separators_workaround p in
            let nameStr := normalizedName w (m_zipArchive p1) idx name in
            match fileToReport recurse base emptyBasePath nameStr with
            | None =>
                enumerateFiles_loop recurse base emptyBasePath enumFunc rest p1 st
            | Some file =>
                let '(goOn, st1) := enumFunc st file in
                if goOn
                then enumerateFiles_loop recurse base emptyBasePath enumFunc rest p1 st1
                else (p1, st1)
            end
      end
  end.

(** [enumerateFilesInternal(basePath, recurse, enumFunc)]; a null
    [std::function] is [None]. *)
Definition enumerateFilesInternal {St : Type} (p : t) (basePath : string)
    (recurse : bool) (enumFunc : option (EnumFunc St)) (st : St)
    : bool * t * St :=
  match enumFunc with
  | None => (false, p, st)
  | Some f =>
      let result := zip_get_num_entries (m_zipArchive p) in
      if result <? 0 then (false, p, st)
      else
        let '(base, emptyBasePath) := basePathToSearch basePath in
        let '(p1, st1) :=
          enumerateFiles_loop recurse base emptyBasePath f (indices result) p st in
        (true, p1, st1)
  end.

(** The [while (!nameStr.empty())] loop of enumerateFoldersInternal, on
    [foundDirectoriesSet] and [m_cachedDirectoriesList].  Every round
    leaves [nameStr] shorter, so [fuel] above its length is never used up
    (lemma [ancestors_loop_fuel] below). *)
Fixpoint ancestors_loop (fuel : nat) (nameStr : string)
    (foundDirectoriesSet cached : list string) : list string * list string :=
  match fuel with
  | O => (foundDirectoriesSet, cached)
  | S fuel' =>
      if Str.empty nameStr then (foundDirectoriesSet, cached)
      else
        let round (dir : string) :=
          let '(set1, cached1) :=
            if existsb (String.eqb dir) foundDirectoriesSet
            then (foundDirectoriesSet, cached)
            else (dir :: foundDirectoriesSet, cached ++ [dir]) in
          let numTrailingSlash := Str.trailing "/" dir in
          ancestors_loop fuel'
            (Str.take (String.length dir - numTrailingSlash) dir) set1 cached1 in
        if match Str.back nameStr with
           | Some c => Ascii.eqb c "/" | None => false end
        then round nameStr
        else
          match Str.rfind_char "/" nameStr with
          | None => (foundDirectoriesSet, cached)
          | Some lastSlashPos => round (Str.take (S lastSlashPos) nameStr)
          end
  end.

(** The loop over the entries that fills [m_cachedDirectoriesList]. *)
Fixpoint buildDirectories_loop (idxs : list Z) (p : t)
    (foundDirectoriesSet : list string) : t * list string :=
  match idxs with
  | [] => (p, foundDirectoriesSet)
  | idx :: rest =>
      match zip_get_name (m_zipArchive p) idx with
      | None => buildDirectories_loop rest p foundDirectoriesSet
      | Some name =>
          if Str.empty name
          then buildDirectories_loop rest p foundDirectoriesSet
          else
            let '(w, p1) := malformed_windows_path_separators_workaround p in
            let nameStr := normalizedName w (m_zipArchive p1) idx name in
            if isUnsafeZipEntryName nameStr
            then buildDirectories_loop rest p1 foundDirectoriesSet
            else
              let '(set1, cached1) :=
                ancestors_loop (S (String.length nameStr)) nameStr
                  foundDirectoriesSet (m_cachedDirectoriesList p1) in
              buildDirectories_loop rest (set_cache p1 cached1) set1
      end
  end.

(** What enumerateFoldersInternal does with one cached directory before it
    calls [enumFunc]. *)
Definition folderToReport (recurse : bool) (base : string)
    (emptyBasePath : bool) (dirPath : string) : option string :=
  if negb emptyBasePath && negb (Str.strncmp_eq base dirPath (String.length base))
  then None
  else if Nat.eqb (String.length dirPath) (String.length base) then None
  else if negb recurse
          && match Str.find_char "/" (String.length base) dirPath with
             | Some firstSlashPos =>
                 negb (Z.of_nat firstSlashPos
                       =? wrap64 (Z.of_nat (String.length dirPath) - 1))
             | None => false
             end
  then None
  else Some (Str.substr_from (String.length base) dirPath).

(** The loop over [m_cachedDirectoriesList]. *)
Fixpoint enumerateFolders_loop {St : Type} (recurse : bool) (base : string)
    (emptyBasePath : bool) (enumFunc : EnumFunc St) (dirs : list string)
    (st : St) : St :=
  match dirs with
  | [] => st
  | dirPath :: rest =>
      match folderToReport recurse base emptyBasePath dirPath with
      | None => enumerateFolders_loop recurse base emptyBasePath enumFunc rest st
      | Some relativeDirPath =>
          let '(goOn, st1) := enumFunc st relativeDirPath in
          if goOn
          then enumerateFolders_loop recurse base emptyBasePath enumFunc rest st1
          else st1
      end
  end.

(** [enumerateFoldersInternal(basePath, recurse, enumFunc)] *)
Definition enumerateFoldersInternal {St : Type} (p : t) (basePath : string)
    (recurse : bool) (enumFunc : option (EnumFunc St)) (st : St)
    : bool * t * St :=
  match enumFunc with
  | None => (false, p, st)
  | Some f =>
      let listing (p1 : t) :=
        let '(base, emptyBasePath) := basePathToSearch basePath in
        (true, p1,
         enumerateFolders_loop recurse base emptyBasePath f
           (m_cachedDirectoriesList p1) st) in
      match m_cachedDirectoriesList p with
      | [] =>
          let result := zip_get_num_entries (m_zipArchive p) in
          if result <? 0 then (false, p, st)
          else
            let '(p1, _) := buildDirectories_loop (indices result) p [] in
            listing (set_cache p1 (Str.sort (m_cachedDirectoriesList p1)))
      | _ :: _ => listing p
      end
  end.

Definition enumerateFiles {St : Type} (p : t) (basePath : string)
    (enumFunc : option (EnumFunc St)) (st : St) : bool * t * St :=
  enumerateFilesInternal p basePath false enumFunc st.

Definition enumerateFolders {St : Type} (p : t) (basePath : string)
    (enumFunc : option (EnumFunc St)) (st : St) : bool * t * St :=
  enumerateFoldersInternal p basePath false enumFunc st.

Definition enumerateFilesRecursive {St : Type} (p : t) (basePath : string)
    (enumFunc : option (EnumFunc St)) (st : St) : bool * t * St :=
  enumerateFilesInternal p basePath true enumFunc st.

Definition enumerateFoldersRecursive {St : Type} (p : t) (basePath : string)
    (enumFunc : option (EnumFunc St)) (st : St) : bool * t * St :=
  enumerateFoldersInternal p basePath true enumFunc st.

End WithLibZip.
End ZipIO.

(** ** An executable libzip: an archive kept in memory *)

Module SimpleZip.

(** One entry: its name, the operating system of its external attributes,
    what [zip_stat_index] says about it, its bytes, and whether reading past
    them is an error ([corrupt]) or the plain end of the file. *)
Record entry : Type := mk_entry {
  e_name : string;
  e_opsys : Z;
  e_stat : zip_stat;
  e_data : list byte;
  e_corrupt : bool
}.

Record archive : Type := mk_archive {
  entries : list entry;
  rdonly : bool
}.

(** An open file: the bytes still to come and the entry's [corrupt] flag. *)
Definition file : Type := (list byte * bool)%type.

Definition nth_entry (a : archive) (idx : Z) : option entry :=
  if idx <? 0 then None else nth_error (entries a) (Z.to_nat idx).

Fixpoint locate_from (l : list entry) (fname : string) (i : Z) : Z :=
  match l with
  | [] => -1
  | e :: r => if String.eqb (e_name e) fname then i else locate_from r fname (i + 1)
  end.

Definition fread (h : file) (nbytes : Z) : option (list byte) * file :=
  let '(rest, corrupt) := h in
  if nbytes <=? Z.of_nat (List.length rest)
  then (Some (firstn (Z.to_nat nbytes) rest), (skipn (Z.to_nat nbytes) rest, corrupt))
  else if corrupt then (None, ([], corrupt))
  else (Some rest, ([], corrupt)).

(** Both flags the provider looks at are valid for an entry added here. *)
Definition stored_entry (fname : string) (data : list byte) : entry :=
  mk_entry fname ZIP_OPSYS_UNIX
    (mk_zip_stat (Z.lor ZIP_STAT_SIZE ZIP_STAT_COMP_METHOD)
       (Z.of_nat (List.length data)) ZIP_CM_STORE)
    data false.

Fixpoint overwrite (l : list entry) (fname : string) (e : entry) : list entry :=
  match l with
  | [] => []
  | x :: r => if String.eqb (e_name x) fname then e :: r else x :: overwrite r fname e
  end.

Definition file_add (a : archive) (fname : string) (src : list byte) : Z * archive :=
  if rdonly a then (-1, a)
  else
    let i := locate_from (entries a) fname 0 in
    if i <? 0
    then (Z.of_nat (List.length (entries a)),
          mk_archive (entries a ++ [stored_entry fname src]) false)
    else (i, mk_archive (overwrite (entries a) fname (stored_entry fname src)) false).

Definition libzip : LibZip := {|
  zip_t := archive;
  zip_file_t := file;
  zip_source_t := list byte;
  zip_get_num_entries := fun a => Z.of_nat (List.length (entries a));
  zip_get_name := fun a idx => option_map e_name (nth_entry a idx);
  zip_file_get_external_attributes := fun a idx => option_map e_opsys (nth_entry a idx);
  zip_name_locate := fun a fname => locate_from (entries a) fname 0;
  zip_stat_index := fun a idx => option_map e_stat (nth_entry a idx);
  zip_fopen_index :=
    fun a idx => option_map (fun e => (e_data e, e_corrupt e)) (nth_entry a idx);
  zip_fread := fread;
  zip_source_buffer := fun _ data len => Some (firstn (Z.to_nat len) data);
  zip_file_add := file_add;
  zip_file_set_dostime := fun a _ _ _ => a;
  realloc_ok := fun _ => true
|}.

(** A provider over an archive of this implementation. *)
Definition provider (a : archive) : @ZipIO.t libzip :=
  @ZipIO.fresh libzip a false.

(** A read stream over [data]. *)
Definition reader (data : list byte) (corrupt : bool) (extra : option byte)
    : @Stream.t libzip :=
  @Stream.mk libzip (Some READ) (Some (data, corrupt)) extra "" None 0 0 false.

(** An entry as an archiver stores it. *)
Definition plain (fname : string) (opsys : Z) (method : Z) (data : list byte)
    : entry :=
  mk_entry fname opsys
    (mk_zip_stat (Z.lor ZIP_STAT_SIZE ZIP_STAT_COMP_METHOD)
       (Z.of_nat (List.length data)) method)
    data false.

End SimpleZip.

(** A callback that records the names it is called with, in front of any
    other callback. *)
Definition traced {St : Type} (f : ZipIO.EnumFunc St)
    : ZipIO.EnumFunc (St * list string) :=
  fun st file =>
    let '(goOn, st1) := f (fst st) file in (goOn, (st1, snd st ++ [file])).

(** The callback that asks for every name. *)
Definition keepGoing : ZipIO.EnumFunc unit := fun st _ => (true, st).

(** ** The vocabulary of the statements *)

Section Vocabulary.
Context {LZ : LibZip}.

(** The size cap a [loadFullFile] call works with. *)
Definition effectiveCap (maxFileSize : Z) : Z :=
  if maxFileSize =? 0 then WzMapZipDefaultEmbeddedFileMaxFileSize
  else maxFileSize.

(** The workaround flag a provider works with. *)
Definition quirk (p : ZipIO.t) : bool :=
  fst (ZipIO.malformed_windows_path_separators_workaround p).

(** What libzip has to say about [name] in [a] for a whole-file load to
    give back [data]: the name is found, its stat gives the size of [data]
    and a compression method the provider accepts, the entry opens, and a
    read of at least that many bytes delivers [data] (for a request that
    libzip takes at all: [zip_fread] refuses more than ZIP_INT64_MAX
    bytes). *)
Definition reads_back (a : zip_t) (name : string) (data : list byte) : Prop :=
  let i := zip_name_locate a name in
  0 <= i
  /\ exists st h,
       zip_stat_index a i = Some st
       /\ Z.land (st_valid st) ZIP_STAT_SIZE <> 0
       /\ st_size st = Z.of_nat (List.length data)
       /\ (Z.land (st_valid st) ZIP_STAT_COMP_METHOD = 0
           \/ st_comp_method st = ZIP_CM_STORE
           \/ st_comp_method st = ZIP_CM_DEFLATE)
       /\ zip_fopen_index a i = Some h
       /\ forall n, Z.of_nat (List.length data) <= n < 2 ^ 63 ->
                    fst (zip_fread h n) = Some data.

(** The behaviour of libzip the round trip rests on: an entry that
    [zip_file_add] registered from a buffer source can be located, stat'ed
    and read, before and after its timestamp is set. *)
Definition added_entries_read_back : Prop :=
  forall (a : zip_t) (buf : list byte) (len : Z) (src : zip_source_t)
         (name : string),
    zip_source_buffer a buf len = Some src ->
    0 <= fst (zip_file_add a name src) ->
    reads_back (snd (zip_file_add a name src)) name (firstn (Z.to_nat len) buf)
    /\ forall dtime ddate,
         reads_back
           (zip_file_set_dostime (snd (zip_file_add a name src))
              (fst (zip_file_add a name src)) dtime ddate)
           name (firstn (Z.to_nat len) buf).

(** The archive [writeFullFile] leaves behind when libzip takes the
    buffer. *)
Definition archiveAfterAdd (a : zip_t) (name : string) (src : zip_source_t)
    (fixedLastMod : bool) : zip_t :=
  let '(result, a1) := zip_file_add a name src in
  if result <? 0 then a1
  else if fixedLastMod then zip_file_set_dostime a1 result 24608 33 else a1.

(** The names the spec calls unsafe: the empty name, a name that contains
    "..", a name that begins with a slash or a backslash, and a name that
    begins with an ASCII letter and a colon. *)
Definition unsafe_name (n : string) : Prop :=
  n = ""
  \/ (exists a b, n = String.append a (String.append ".." b))
  \/ (exists r, n = String "/" r)
  \/ (exists r, n = String "\" r)
  \/ (exists c r,
        n = String c (String ":" r)
        /\ ((65 <= nat_of_ascii c <= 90)%nat \/ (97 <= nat_of_ascii c <= 122)%nat)).

(** The name of a safe entry, as the enumerations see it. *)
Definition safe_entry_name (w : bool) (a : zip_t) (n : string) : Prop :=
  exists idx name,
    zip_get_name a idx = Some name
    /\ n = ZipIO.normalizedName w a idx name
    /\ ~ unsafe_name n.

(** A directory path that is the start of the name of a safe entry. *)
Definition safe_ancestor (w : bool) (a : zip_t) (dir : string) : Prop :=
  exists rest, safe_entry_name w a (String.append dir rest).

(** The directory one round of the ancestors loop records for [nameStr],
    if any. *)
Definition ancestors_dir (nameStr : string) : option string :=
  if Str.empty nameStr then None
  else if match Str.back nameStr with
          | Some c => Ascii.eqb c "/" | None => false end
  then Some nameStr
  else match Str.rfind_char "/" nameStr with
       | None => None
       | Some lastSlashPos => Some (Str.take (S lastSlashPos) nameStr)
       end.

End Vocabulary.

(** ** Sample archives *)

(** An archive without entries, open for writing. *)
Definition emptyArchive : SimpleZip.archive := SimpleZip.mk_archive [] false.

(** An entry compressed with bzip2 (method 12). *)
Definition bzip2Archive : SimpleZip.archive :=
  SimpleZip.mk_archive [SimpleZip.plain "f" ZIP_OPSYS_UNIX 12 [x41; x42]] false.

(** An entry stored without compression. *)
Definition storedArchive : SimpleZip.archive :=
  SimpleZip.mk_archive [SimpleZip.plain "f" ZIP_OPSYS_UNIX ZIP_CM_STORE [x41; x42]] false.


(** One file two directories deep. *)
Definition nestedArchive : SimpleZip.archive :=
  SimpleZip.mk_archive
    [SimpleZip.plain "a/b/c.txt" ZIP_OPSYS_UNIX ZIP_CM_DEFLATE [x41]] false.

(** An archive with entries a hostile tool could write. *)
Definition hostileArchive : SimpleZip.archive :=
  SimpleZip.mk_archive
    [SimpleZip.plain "../evil.txt" ZIP_OPSYS_UNIX ZIP_CM_STORE [x41];
     SimpleZip.plain "/abs.txt" ZIP_OPSYS_UNIX ZIP_CM_STORE [x41];
     SimpleZip.plain "C:/win.txt" ZIP_OPSYS_UNIX ZIP_CM_STORE [x41];
     SimpleZip.plain "a/ok.txt" ZIP_OPSYS_UNIX ZIP_CM_STORE [x41];
     SimpleZip.plain "a/../b/x.txt" ZIP_OPSYS_UNIX ZIP_CM_STORE [x41];
     SimpleZip.plain "\net\share.txt" ZIP_OPSYS_UNIX ZIP_CM_STORE [x41]]
    false.

(** An archive with one file in one directory. *)
Definition oneDirArchive : SimpleZip.archive :=
  SimpleZip.mk_archive
    [SimpleZip.plain "a/x.txt" ZIP_OPSYS_UNIX ZIP_CM_STORE [x41]] false.

(** The provider after a first folder enumeration (the cache is built). *)
Definition listedProvider : @ZipIO.t SimpleZip.libzip :=
  snd (fst (ZipIO.enumerateFolders (SimpleZip.provider oneDirArchive) ""
              (Some keepGoing) tt)).

(** The write stream for b/y.txt with one byte written to it. *)
Definition pendingStream : @Stream.t SimpleZip.libzip :=
  match fst (ZipIO.openBinaryStream listedProvider "b/y.txt" WRITE) with
  | Some ws => snd (Stream.writeBytes ws [x42] 1)
  | None => Stream.construct WRITE
  end.

(** * Properties *)

(** ** The string operations on small inputs *)

Example find_char_from_base : Str.find_char "/" 2 "a/b/c.txt" = Some 3%nat.
Proof. reflexivity. Qed.

Example find_char_past_end : Str.find_char "/" 9 "a/b" = None.
Proof. reflexivity. Qed.

Example rfind_char_last_slash : Str.rfind_char "/" "a/b/c.txt" = Some 3%nat.
Proof. reflexivity. Qed.

Example trailing_slashes : Str.trailing "/" "a/b//" = 2%nat.
Proof. reflexivity. Qed.

Example strncmp_eq_shorter_name : Str.strncmp_eq "abc/" "ab" 4 = false.
Proof. reflexivity. Qed.

Example sort_directories :
  Str.sort ["b/"; "a/b/"; "a/"; "B/"] = ["B/"; "a/"; "a/b/"; "b/"].
Proof. reflexivity. Qed.

Example basePathToSearch_adds_slash : basePathToSearch "maps" = ("maps/", false).
Proof. reflexivity. Qed.

Example basePathToSearch_root : basePathToSearch "/" = ("", true).
Proof. reflexivity. Qed.

Example isUnsafeZipEntryName_samples :
  List.map isUnsafeZipEntryName
    [""; "a/../b"; "/etc/passwd"; "\share"; "C:/x"; "1:/x"; "a/b.txt"; "a..b"]
  = [true; true; true; true; true; false; false; true].
Proof. reflexivity. Qed.

Example ancestors_loop_nested :
  snd (ZipIO.ancestors_loop 10 "a/b/c.txt" [] [])
  = ["a/b/"; "a/"].
Proof. reflexivity. Qed.

(** ** The stream adapter *)

Section StreamProperties.
Context {LZ : LibZip}.

Lemma wrap64_small (z : Z) : 0 <= z < 2 ^ 64 -> wrap64 z = z.
Proof. intros Hz. unfold wrap64, SIZE_MAX_plus_1. now apply Z.mod_small. Qed.

Lemma fread_result_neg (r : option (list byte)) :
  (fread_result r <? 0) = match r with None => true | Some _ => false end.
Proof.
  destruct r as [bs|]; simpl; [|reflexivity].
  apply Z.ltb_ge. apply Nat2Z.is_nonneg.
Qed.

(** [readBytes] on a stream with an open handle and no pending byte. *)
Lemma readBytes_plain (s : Stream.t) (h : zip_file_t) (len : Z) :
  Stream.m_pReadHandle s = Some h ->
  Stream.m_extraByteRead s = None ->
  Stream.readBytes s len =
    let '(r, h') := zip_fread h len in
    match r with
    | None => (None, [], Stream.set_read s (Some h') None)
    | Some bs => (Some (Z.of_nat (List.length bs) + 0), bs,
                  Stream.set_read s (Some h') None)
    end.
Proof.
  intros Hh He. unfold Stream.readBytes. rewrite Hh, He.
  destruct (zip_fread h len) as [r h']. rewrite fread_result_neg.
  destruct r; reflexivity.
Qed.

(** [readBytes] on a stream with an open handle and a pending byte. *)
Lemma readBytes_pending (s : Stream.t) (h : zip_file_t) (b : byte) (len : Z) :
  Stream.m_pReadHandle s = Some h ->
  Stream.m_extraByteRead s = Some b ->
  Stream.readBytes s len =
    let '(r, h') := zip_fread h (wrap64 (len - 1)) in
    match r with
    | None => (Some 1, [b], Stream.set_read s (Some h') None)
    | Some bs => (Some (Z.of_nat (List.length bs) + 1), b :: bs,
                  Stream.set_read s (Some h') None)
    end.
Proof.
  intros Hh He. unfold Stream.readBytes. rewrite Hh, He.
  destruct (zip_fread h (wrap64 (len - 1))) as [r h']. rewrite fread_result_neg.
  destruct r; reflexivity.
Qed.

(** The one-byte read of [endOfStream] succeeds exactly when libzip hands
    over one byte. *)
Lemma readULE8_plain (s : Stream.t) (h : zip_file_t) :
  Stream.m_pReadHandle s = Some h ->
  Stream.m_extraByteRead s = None ->
  Stream.readULE8 s =
    let '(r, h') := zip_fread h 1 in
    match r with
    | Some [b] => (true, Some b, Stream.set_read s (Some h') None)
    | _ => (false, None, Stream.set_read s (Some h') None)
    end.
Proof.
  intros Hh He. unfold Stream.readULE8. rewrite (readBytes_plain s h 1 Hh He).
  destruct (zip_fread h 1) as [[bs|] h']; [|reflexivity].
  destruct bs as [|b [|b' bs]]; try reflexivity.
  replace (Z.of_nat (List.length (b :: b' :: bs)) + 0 =? 1) with false;
    [reflexivity|].
  symmetry. apply Z.eqb_neq. cbn [List.length]. lia.
Qed.

(** C4: on a stream in read mode with an open handle, [endOfStream]
    answers false without reading when a byte is pending; when libzip can
    hand over one more byte it reads that byte, keeps it, answers false,
    and the next [readBytes] of at least one byte stores the kept byte
    first; it answers true only when no byte was pending and the
    one-byte read did not deliver a byte; and on a stream just opened over
    an entry with no bytes the first call answers true. *)
Theorem endOfStream_probe (s : Stream.t) (h : zip_file_t) :
  Stream.m_mode s = Some READ ->
  Stream.m_pReadHandle s = Some h ->
  (forall b, Stream.m_extraByteRead s = Some b ->
     Stream.endOfStream s = (false, s))
  /\ (forall b h', Stream.m_extraByteRead s = None ->
        zip_fread h 1 = (Some [b], h') ->
        let s1 := Stream.set_read s (Some h') (Some b) in
        Stream.endOfStream s = (false, s1)
        /\ forall len, 1 <= len < 2 ^ 64 ->
             exists n rest s2,
               Stream.readBytes s1 len = (Some n, b :: rest, s2) /\ 1 <= n)
  /\ (forall s', Stream.endOfStream s = (true, s') ->
        Stream.m_extraByteRead s = None
        /\ fst (fst (Stream.readULE8 s)) = false
        /\ forall b, fst (zip_fread h 1) <> Some [b])
  /\ (forall a idx s0 h0,
        Stream.openForReading idx (Some a) = Some s0 ->
        zip_fopen_index a idx = Some h0 ->
        fst (zip_fread h0 1) = Some [] ->
        fst (Stream.endOfStream s0) = true).
Proof.
  intros Hm Hh. split; [|split; [|split]].
  - intros b He. unfold Stream.endOfStream. now rewrite Hm, Hh, He.
  - intros b h' He Hr s1. split.
    + unfold Stream.endOfStream. rewrite Hm, Hh, He.
      rewrite (readULE8_plain s h Hh He), Hr. reflexivity.
    + intros len Hlen.
      rewrite (readBytes_pending s1 h' b len eq_refl eq_refl).
      destruct (zip_fread h' (wrap64 (len - 1))) as [[bs|] h2].
      * eexists _, bs, _. split; [reflexivity|lia].
      * eexists _, [], _. split; [reflexivity|lia].
  - intros s' Hend. unfold Stream.endOfStream in Hend. rewrite Hm, Hh in Hend.
    destruct (Stream.m_extraByteRead s) eqn:He; [discriminate|].
    split; [reflexivity|].
    rewrite (readULE8_plain s h Hh He) in *.
    destruct (zip_fread h 1) as [r h2].
    destruct r as [[|b0 [|b1 bs]]|]; try discriminate;
      (split; [reflexivity|intros b Hb; discriminate]).
  - intros a idx s0 h0 Hopen Hfo Hr.
    unfold Stream.openForReading in Hopen. injection Hopen as <-.
    rewrite Hfo. unfold Stream.endOfStream.
    cbn [Stream.m_mode Stream.set_read Stream.construct
      Stream.m_pReadHandle Stream.m_extraByteRead].
    rewrite (readULE8_plain (Stream.set_read (Stream.construct READ) (Some h0) None)
               h0 eq_refl eq_refl).
    destruct (zip_fread h0 1) as [r h2]. simpl in Hr. subst r. reflexivity.
Qed.

(** C10: on a stream with an open handle, a [readBytes] of at least one
    byte that finds a pending byte and whose [zip_fread] fails returns 1
    and stores the pending byte; [readBytes] returns no value only when no
    byte was pending and [zip_fread] failed. *)
Theorem readBytes_pending_byte_outlives_failure (s : Stream.t)
    (h : zip_file_t) (len : Z) :
  Stream.m_pReadHandle s = Some h ->
  1 <= len < 2 ^ 64 ->
  (forall b, Stream.m_extraByteRead s = Some b ->
     fst (zip_fread h (len - 1)) = None ->
     fst (Stream.readBytes s len) = (Some 1, [b])
     /\ Stream.m_extraByteRead (snd (Stream.readBytes s len)) = None)
  /\ (fst (fst (Stream.readBytes s len)) = None <->
      Stream.m_extraByteRead s = None /\ fst (zip_fread h len) = None).
Proof.
  intros Hh Hlen. split.
  - intros b He Hfail.
    rewrite (readBytes_pending s h b len Hh He).
    rewrite (wrap64_small (len - 1)) by lia.
    destruct (zip_fread h (len - 1)) as [r h']. simpl in Hfail. subst r.
    split; reflexivity.
  - destruct (Stream.m_extraByteRead s) as [b|] eqn:He.
    + rewrite (readBytes_pending s h b len Hh He).
      destruct (zip_fread h (wrap64 (len - 1))) as [[bs|] h']; simpl;
        split; intros H; try discriminate; destruct H; discriminate.
    + rewrite (readBytes_plain s h len Hh He).
      destruct (zip_fread h len) as [[bs|] h']; simpl;
        split; intros H; try discriminate; auto.
      destruct H; discriminate.
Qed.

End StreamProperties.

(** C4 on a stream over the single byte [x41]: the probe keeps the byte. *)
Lemma endOfStream_probe_witness :
  @Stream.endOfStream SimpleZip.libzip (SimpleZip.reader [x41] false None)
  = (false, SimpleZip.reader [] false (Some x41)).
Proof.
  exact (proj1 (proj1 (proj2
    (@endOfStream_probe SimpleZip.libzip (SimpleZip.reader [x41] false None)
       ([x41], false) eq_refl eq_refl)) x41 ([], false) eq_refl eq_refl)).
Defined.

(** C10 on a corrupt one-byte entry whose byte is pending: a read of two
    bytes returns 1. *)
Lemma readBytes_pending_byte_outlives_failure_witness :
  fst (@Stream.readBytes SimpleZip.libzip
         (SimpleZip.reader [] true (Some x41)) 2) = (Some 1, [x41]).
Proof.
  exact (proj1 (proj1
    (@readBytes_pending_byte_outlives_failure SimpleZip.libzip
       (SimpleZip.reader [] true (Some x41)) ([], true) 2 eq_refl
       ltac:(lia)) x41 eq_refl eq_refl)).
Defined.

(** ** The provider: name lookup, sanity checks, opening *)

Section ProviderProperties.
Context {LZ : LibZip}.

(** The workaround macro changes nothing but the memo, and gives the same
    answer when asked again. *)
Lemma workaround_stable (p : ZipIO.t) :
  let '(w, p1) := ZipIO.malformed_windows_path_separators_workaround p in
  ZipIO.m_zipArchive p1 = ZipIO.m_zipArchive p
  /\ ZipIO.m_fixedLastMod p1 = ZipIO.m_fixedLastMod p
  /\ ZipIO.m_cachedDirectoriesList p1 = ZipIO.m_cachedDirectoriesList p
  /\ ZipIO.malformed_windows_path_separators_workaround p1 = (w, p1).
Proof.
  unfold ZipIO.malformed_windows_path_separators_workaround.
  destruct (ZipIO.m_foundMalformedWindowsPathSeparators p) as [v|] eqn:Hv.
  - rewrite Hv. repeat split.
  - unfold ZipIO.determineIfMalformedWindowsPathSeparatorWorkaround.
    destruct (zip_get_num_entries (ZipIO.m_zipArchive p) <? 0) eqn:Hn.
    + rewrite Hv, Hn. repeat split.
    + destruct (ZipIO.determine_loop (ZipIO.m_zipArchive p)
                  (indices (zip_get_num_entries (ZipIO.m_zipArchive p))));
        repeat split.
Qed.

Lemma workaround_archive (p : ZipIO.t) :
  ZipIO.m_zipArchive (snd (ZipIO.malformed_windows_path_separators_workaround p))
  = ZipIO.m_zipArchive p.
Proof.
  pose proof (workaround_stable p) as H.
  destruct (ZipIO.malformed_windows_path_separators_workaround p). apply H.
Qed.

Lemma workaround_cache (p : ZipIO.t) :
  ZipIO.m_cachedDirectoriesList
    (snd (ZipIO.malformed_windows_path_separators_workaround p))
  = ZipIO.m_cachedDirectoriesList p.
Proof.
  pose proof (workaround_stable p) as H.
  destruct (ZipIO.malformed_windows_path_separators_workaround p). apply H.
Qed.

Lemma workaround_again (p : ZipIO.t) :
  fst (ZipIO.malformed_windows_path_separators_workaround
         (snd (ZipIO.malformed_windows_path_separators_workaround p)))
  = fst (ZipIO.malformed_windows_path_separators_workaround p).
Proof.
  pose proof (workaround_stable p) as H.
  destruct (ZipIO.malformed_windows_path_separators_workaround p) as [w p1].
  destruct H as (_ & _ & _ & H). cbn [snd fst]. now rewrite H.
Qed.

(** The lookup macro in closed form. *)
Lemma wz_zip_name_locate_eq (p : ZipIO.t) (fname : string) :
  ZipIO.wz_zip_name_locate p fname =
    (let literal := zip_name_locate (ZipIO.m_zipArchive p) fname in
     if (literal <? 0)
        && fst (ZipIO.malformed_windows_path_separators_workaround p)
     then zip_name_locate (ZipIO.m_zipArchive p) (Str.replace "/" "\" fname)
     else literal,
     snd (ZipIO.malformed_windows_path_separators_workaround p)).
Proof.
  unfold ZipIO.wz_zip_name_locate.
  pose proof (workaround_archive p) as Ha.
  destruct (ZipIO.malformed_windows_path_separators_workaround p) as [w p1].
  cbn [fst snd] in *. rewrite Ha.
  unfold ZipIO.wz_zip_name_locate_impl, ZipIO.zip_name_locate_ptr.
  destruct (zip_name_locate (ZipIO.m_zipArchive p) fname <? 0), w; reflexivity.
Qed.

Lemma wz_zip_name_locate_archive (p : ZipIO.t) (fname : string) :
  ZipIO.m_zipArchive (snd (ZipIO.wz_zip_name_locate p fname))
  = ZipIO.m_zipArchive p.
Proof. rewrite wz_zip_name_locate_eq. apply workaround_archive. Qed.

(** The sanity check, case by case. *)
Lemma sanityCheck_exceeds (st : zip_stat) (limit : Z) :
  Z.land (st_valid st) ZIP_STAT_SIZE <> 0 ->
  limit < st_size st ->
  wzMapZipIOSanityCheckStat st limit
  = ZipSanityCheckResult.FAILURE_EXCEEDS_MAXFILESIZE.
Proof.
  intros Hv Hs. unfold wzMapZipIOSanityCheckStat.
  apply Z.eqb_neq in Hv. apply Z.ltb_lt in Hs. now rewrite Hv, Hs.
Qed.

Lemma sanityCheck_unsupported (st : zip_stat) (limit : Z) :
  Z.land (st_valid st) ZIP_STAT_COMP_METHOD <> 0 ->
  st_comp_method st <> ZIP_CM_STORE ->
  st_comp_method st <> ZIP_CM_DEFLATE ->
  wzMapZipIOSanityCheckStat st limit
  = if negb (Z.land (st_valid st) ZIP_STAT_SIZE =? 0) && (limit <? st_size st)
    then ZipSanityCheckResult.FAILURE_EXCEEDS_MAXFILESIZE
    else ZipSanityCheckResult.FAILURE_UNSUPPORTED_COMP_METHOD.
Proof.
  intros Hv Hs Hd. unfold wzMapZipIOSanityCheckStat.
  apply Z.eqb_neq in Hv, Hs, Hd. now rewrite Hv, Hs, Hd.
Qed.

(** C2: when the entry the lookup finds states a size above the cap in
    force ([maxFileSize] when it is not zero, otherwise 104857600),
    [loadFullFile] returns FAILURE_EXCEEDS_MAXFILESIZE and [fileData] is as
    it was. *)
Theorem loadFullFile_exceeds_cap (p : ZipIO.t) (filename : string)
    (fileData : list byte) (maxFileSize : Z) (appendNullCharacter : bool)
    (st : zip_stat) :
  0 <= fst (ZipIO.wz_zip_name_locate p filename) ->
  zip_stat_index (ZipIO.m_zipArchive p)
    (fst (ZipIO.wz_zip_name_locate p filename)) = Some st ->
  Z.land (st_valid st) ZIP_STAT_SIZE <> 0 ->
  effectiveCap maxFileSize < st_size st ->
  fst (ZipIO.loadFullFile p filename fileData maxFileSize appendNullCharacter)
  = (LoadFullFileResult.FAILURE_EXCEEDS_MAXFILESIZE, fileData).
Proof.
  intros Hidx Hst Hv Hsz. unfold ZipIO.loadFullFile.
  pose proof (wz_zip_name_locate_archive p filename) as Ha.
  destruct (ZipIO.wz_zip_name_locate p filename) as [idx p1].
  cbn [fst snd] in *. rewrite Ha.
  apply Z.ltb_ge in Hidx. rewrite Hidx, Hst.
  pose proof Hv as Hv'. apply Z.eqb_neq in Hv'. rewrite Hv'.
  replace (if negb (maxFileSize =? 0) then maxFileSize
           else WzMapZipDefaultEmbeddedFileMaxFileSize)
    with (effectiveCap maxFileSize)
    by (unfold effectiveCap; now destruct (maxFileSize =? 0)).
  now rewrite (sanityCheck_exceeds st _ Hv Hsz).
Qed.

(** C9, as the code has it: an entry whose stat reports a compression
    method that is neither store nor deflate is turned away without a
    stream being opened on it: [openBinaryStream] for reading gives no
    stream, and [loadFullFile] leaves [fileData] alone and returns
    FAILURE_OPEN, unless the entry also states a size above the cap in
    force, which is checked first and gives FAILURE_EXCEEDS_MAXFILESIZE. *)
Theorem unsupported_method_rejected (p : ZipIO.t) (filename : string)
    (fileData : list byte) (maxFileSize : Z) (appendNullCharacter : bool)
    (st : zip_stat) :
  0 <= fst (ZipIO.wz_zip_name_locate p filename) ->
  zip_stat_index (ZipIO.m_zipArchive p)
    (fst (ZipIO.wz_zip_name_locate p filename)) = Some st ->
  Z.land (st_valid st) ZIP_STAT_COMP_METHOD <> 0 ->
  st_comp_method st <> ZIP_CM_STORE ->
  st_comp_method st <> ZIP_CM_DEFLATE ->
  fst (ZipIO.openBinaryStream p filename READ) = None
  /\ fst (ZipIO.loadFullFile p filename fileData maxFileSize appendNullCharacter)
     = (if negb (Z.land (st_valid st) ZIP_STAT_SIZE =? 0)
           && (effectiveCap maxFileSize <? st_size st)
        then LoadFullFileResult.FAILURE_EXCEEDS_MAXFILESIZE
        else LoadFullFileResult.FAILURE_OPEN,
        fileData).
Proof.
  intros Hidx Hst Hv Hs Hd.
  unfold ZipIO.openBinaryStream, ZipIO.loadFullFile.
  pose proof (wz_zip_name_locate_archive p filename) as Ha.
  destruct (ZipIO.wz_zip_name_locate p filename) as [idx p1].
  cbn [fst snd] in *. rewrite Ha.
  apply Z.ltb_ge in Hidx. rewrite Hidx, Hst.
  replace (if negb (maxFileSize =? 0) then maxFileSize
           else WzMapZipDefaultEmbeddedFileMaxFileSize)
    with (effectiveCap maxFileSize)
    by (unfold effectiveCap; now destruct (maxFileSize =? 0)).
  rewrite !(sanityCheck_unsupported st _ Hv Hs Hd).
  split.
  - now destruct (negb (Z.land (st_valid st) ZIP_STAT_SIZE =? 0)
                  && (WzMapZipDefaultEmbeddedFileMaxFileSize <? st_size st)).
  - destruct (Z.land (st_valid st) ZIP_STAT_SIZE =? 0); [reflexivity|].
    cbn [negb andb].
    now destruct (effectiveCap maxFileSize <? st_size st).
Qed.

End ProviderProperties.

(** C2 on a stored entry of two bytes read with a cap of one byte. *)
Lemma loadFullFile_exceeds_cap_witness :
  fst (ZipIO.loadFullFile (SimpleZip.provider storedArchive) "f" [x43] 1 true)
  = (LoadFullFileResult.FAILURE_EXCEEDS_MAXFILESIZE, [x43]).
Proof.
  apply (@loadFullFile_exceeds_cap SimpleZip.libzip
           (SimpleZip.provider storedArchive) "f" [x43] 1 true
           (mk_zip_stat 68 2 0)).
  - vm_compute. discriminate.
  - reflexivity.
  - vm_compute. discriminate.
  - reflexivity.
Defined.

(** C9 fails as stated: a bzip2 entry of two bytes, loaded with a cap of
    one byte, is answered with FAILURE_EXCEEDS_MAXFILESIZE, not with
    FAILURE_OPEN. *)
Lemma unsupported_method_not_always_FAILURE_OPEN :
  zip_stat_index (LibZip := SimpleZip.libzip) bzip2Archive 0
    = Some (mk_zip_stat 68 2 12)
  /\ fst (fst (ZipIO.loadFullFile (SimpleZip.provider bzip2Archive) "f" [] 1 false))
     = LoadFullFileResult.FAILURE_EXCEEDS_MAXFILESIZE
  /\ fst (fst (ZipIO.loadFullFile (SimpleZip.provider bzip2Archive) "f" [] 1 false))
     <> LoadFullFileResult.FAILURE_OPEN.
Proof.
  split; [reflexivity|]. split; [reflexivity|]. vm_compute. discriminate.
Qed.

(** C9 on the bzip2 entry with the default cap. *)
Lemma unsupported_method_rejected_witness :
  fst (ZipIO.openBinaryStream (SimpleZip.provider bzip2Archive) "f" READ) = None
  /\ fst (ZipIO.loadFullFile (SimpleZip.provider bzip2Archive) "f" [x43] 0 false)
     = (LoadFullFileResult.FAILURE_OPEN, [x43]).
Proof.
  apply (@unsupported_method_rejected SimpleZip.libzip
           (SimpleZip.provider bzip2Archive) "f" [x43] 0 false
           (mk_zip_stat 68 2 12)).
  - vm_compute. discriminate.
  - reflexivity.
  - vm_compute. discriminate.
  - vm_compute. discriminate.
  - vm_compute. discriminate.
Defined.

Section LookupProperties.
Context {LZ : LibZip}.




End LookupProperties.


(** ** Writing whole files and reading them back *)

Section WriteProperties.
Context {LZ : LibZip}.

(** [writeBytes] on the stream [openForWriting] returns. *)
Lemma writeBytes_first (name : string) (fixedLastMod : bool)
    (data : list byte) (len : Z) :
  let s0 := Stream.mk (Some WRITE) None None name None 0 0 fixedLastMod in
  0 < len < 2 ^ 64 ->
  Z.of_nat (List.length data) = len ->
  Stream.writeBytes s0 data len =
    if realloc_ok (Z.max len 1024)
    then (Some len,
          Stream.mk (Some WRITE) None None name (Some data) len
            (Z.max len 1024) fixedLastMod)
    else (None, s0).
Proof.
  intros s0 Hlen Hdata. unfold Stream.writeBytes, Stream.set_write. subst s0.
  cbn [Stream.m_writeBufferCapacity Stream.m_writeBufferLen Stream.m_writeBuffer
       Stream.m_filename Stream.m_mode Stream.m_pReadHandle
       Stream.m_extraByteRead Stream.m_fixedLastMod].
  change (0 - 0) with 0. change (0 / 2) with 0.
  rewrite (wrap64_small 0) by lia.
  replace (0 <? len) with true by (symmetry; apply Z.ltb_lt; lia).
  rewrite (Z.max_r 0 len) by lia. rewrite !Z.add_0_l.
  rewrite (wrap64_small len) by lia.
  cbn [andb]. destruct (realloc_ok (Z.max len 1024)); cbn [negb]; [|reflexivity].
  rewrite firstn_all2 by lia. reflexivity.
Qed.

(** [close] on a write stream that holds bytes and a name. *)
Lemma close_registers (s : Stream.t) (a : zip_t) (buf : list byte)
    (src : zip_source_t) :
  Stream.m_pReadHandle s = None ->
  0 < Stream.m_writeBufferLen s ->
  Stream.m_writeBuffer s = Some buf ->
  Stream.m_filename s <> "" ->
  zip_source_buffer a buf (Stream.m_writeBufferLen s) = Some src ->
  Stream.close s a =
    let '(result, a1) := zip_file_add a (Stream.m_filename s) src in
    if result <? 0 then (false, Stream.set_write s "" None 0 0, a1)
    else (true, Stream.set_write s "" None 0 0,
          if Stream.m_fixedLastMod s
          then zip_file_set_dostime a1 result 24608 33 else a1).
Proof.
  intros Hh Hlen Hbuf Hname Hsrc. unfold Stream.close.
  rewrite Hh, Hbuf, Hsrc. apply Z.ltb_lt in Hlen. rewrite Hlen.
  destruct (Stream.m_filename s) eqn:E; [contradiction|]. reflexivity.
Qed.

(** A stream whose buffer is empty and that reads nothing closes without
    touching the archive. *)
Lemma close_idle (s : Stream.t) (a : zip_t) :
  Stream.m_pReadHandle s = None ->
  Stream.m_writeBufferLen s = 0 ->
  Stream.close s a = (true, s, a).
Proof. intros Hh Hl. unfold Stream.close. now rewrite Hh, Hl. Qed.

(** A stream with a read handle closes without touching the archive. *)
Lemma close_reader (s : Stream.t) (a : zip_t) (h : zip_file_t) :
  Stream.m_pReadHandle s = Some h -> snd (Stream.close s a) = a.
Proof. intros Hh. unfold Stream.close. now rewrite Hh. Qed.

Lemma writeFullFile_eq (p : ZipIO.t) (name : string) (data : list byte)
    (len : Z) (src : zip_source_t) :
  name <> "" ->
  0 < len < 2 ^ 64 ->
  Z.of_nat (List.length data) = len ->
  realloc_ok (Z.max len 1024) = true ->
  zip_source_buffer (ZipIO.m_zipArchive p) data len = Some src ->
  ZipIO.writeFullFile p name data len =
    (true,
     ZipIO.mk (archiveAfterAdd (ZipIO.m_zipArchive p) name src
                 (ZipIO.m_fixedLastMod p))
       (ZipIO.m_fixedLastMod p) []
       (ZipIO.m_foundMalformedWindowsPathSeparators p)).
Proof.
  intros Hname Hlen Hdata Halloc Hsrc.
  unfold ZipIO.writeFullFile, Stream.openForWriting.
  destruct name as [|c name'] eqn:En; [contradiction|]. cbn [Str.empty].
  rewrite <- En in *. rewrite (writeBytes_first name _ data len Hlen Hdata), Halloc.
  rewrite Z.eqb_refl. cbn [negb].
  rewrite (close_registers _ (ZipIO.m_zipArchive p) data src);
    try reflexivity; try assumption; cbn [Stream.m_writeBufferLen]; try lia.
  unfold archiveAfterAdd. cbn [Stream.m_filename Stream.m_fixedLastMod].
  destruct (zip_file_add (ZipIO.m_zipArchive p) name src) as [result a1].
  destruct (result <? 0);
    unfold ZipIO.destroy_stream; rewrite close_idle by reflexivity; reflexivity.
Qed.

Lemma overlay_zeroes (data : list byte) (extra : Z) :
  0 <= extra ->
  ZipIO.overlay data (ZipIO.zeroes (Z.of_nat (List.length data) + extra))
  = data ++ repeat x00 (Z.to_nat extra).
Proof.
  intros He. unfold ZipIO.overlay, ZipIO.zeroes. f_equal.
  rewrite Z2Nat.inj_add by lia. rewrite Nat2Z.id, repeat_app.
  rewrite skipn_app, repeat_length, Nat.sub_diag.
  rewrite skipn_all2 by (rewrite repeat_length; lia). reflexivity.
Qed.

(** [loadFullFile] of an entry libzip reads back as [data]. *)
Lemma loadFullFile_reads_back (p : ZipIO.t) (name : string)
    (data fileData : list byte) (maxFileSize : Z) (appendNull : bool) :
  reads_back (ZipIO.m_zipArchive p) name data ->
  Z.of_nat (List.length data) <= effectiveCap maxFileSize ->
  Z.of_nat (List.length data) + 1 < 2 ^ 63 ->
  fst (ZipIO.loadFullFile p name fileData maxFileSize appendNull)
  = (LoadFullFileResult.SUCCESS, data ++ if appendNull then [x00] else []).
Proof.
  intros (Hi & st & h & Hst & Hv & Hsz & Hcm & Hopen & Hread) Hcap Hbound.
  unfold ZipIO.loadFullFile.
  pose proof (wz_zip_name_locate_archive p name) as Ha.
  rewrite wz_zip_name_locate_eq in *. cbv zeta in *. cbn [fst snd] in *.
  apply Z.ltb_ge in Hi. rewrite Hi. cbn [andb]. rewrite Hi, Ha, Hst.
  apply Z.eqb_neq in Hv. rewrite Hv.
  replace (if negb (maxFileSize =? 0) then maxFileSize
           else WzMapZipDefaultEmbeddedFileMaxFileSize)
    with (effectiveCap maxFileSize)
    by (unfold effectiveCap; now destruct (maxFileSize =? 0)).
  assert (Hpass : wzMapZipIOSanityCheckStat st (effectiveCap maxFileSize)
                  = ZipSanityCheckResult.PASSED).
  { unfold wzMapZipIOSanityCheckStat. rewrite Hv, Hsz. cbn [negb andb].
    replace (effectiveCap maxFileSize <? Z.of_nat (List.length data)) with false
      by (symmetry; apply Z.ltb_ge; lia).
    destruct Hcm as [Hc|[Hc|Hc]]; rewrite Hc.
    - reflexivity.
    - rewrite Z.eqb_refl, andb_false_r. reflexivity.
    - rewrite Z.eqb_refl, andb_false_r. reflexivity. }
  rewrite Hpass. cbn [Stream.openForReading]. rewrite Hopen, Hsz.
  set (extra := if appendNull then 1 else 0).
  assert (Hex : 0 <= extra <= 1) by (subst extra; destruct appendNull; lia).
  rewrite (wrap64_small (Z.of_nat (List.length data) + extra)) by lia.
  replace (Z.of_nat (List.length
             (ZipIO.zeroes (Z.of_nat (List.length data) + extra))))
    with (Z.of_nat (List.length data) + extra)
    by (unfold ZipIO.zeroes; rewrite repeat_length; lia).
  rewrite (readBytes_plain (Stream.set_read (Stream.construct READ) (Some h) None)
             h _ eq_refl eq_refl).
  specialize (Hread (Z.of_nat (List.length data) + extra) ltac:(lia)).
  destruct (zip_fread h (Z.of_nat (List.length data) + extra)) as [r h'].
  cbn [fst] in Hread. subst r. rewrite Z.add_0_r, Z.eqb_refl. cbn [negb].
  rewrite (overlay_zeroes data extra) by lia.
  destruct (Stream.close _ _) as [[ok rs'] a']. cbn [fst]. f_equal.
  subst extra. destruct appendNull.
  - change (Z.to_nat 1) with 1%nat. cbn [repeat].
    now rewrite removelast_last.
  - cbn [Z.to_nat repeat]. reflexivity.
Qed.

(** C1, as the code has it: when libzip reads back what it registers
    ([added_entries_read_back]), [data] has [len] bytes with [len] at
    least 1, [writeFullFile] returns true, libzip took the buffer and
    registered the entry, and [len] is within the cap in force, then
    [loadFullFile] on the provider [writeFullFile] left returns SUCCESS
    and [fileData] holds the [len] bytes of [data] (and the NUL after
    them when one was asked for). *)
Theorem write_then_load (p : ZipIO.t) (name : string) (data fileData : list byte)
    (len maxFileSize : Z) (appendNull : bool) (src : zip_source_t) :
  added_entries_read_back ->
  Z.of_nat (List.length data) = len ->
  1 <= len <= UINT32_MAX ->
  fst (ZipIO.writeFullFile p name data len) = true ->
  zip_source_buffer (ZipIO.m_zipArchive p) data len = Some src ->
  0 <= fst (zip_file_add (ZipIO.m_zipArchive p) name src) ->
  len <= effectiveCap maxFileSize ->
  fst (ZipIO.loadFullFile (snd (ZipIO.writeFullFile p name data len)) name
         fileData maxFileSize appendNull)
  = (LoadFullFileResult.SUCCESS, data ++ if appendNull then [x00] else []).
Proof.
  intros Hlaw Hdata Hlen Hok Hsrc Hadd Hcap.
  assert (H64 : 0 < len < 2 ^ 64) by (unfold UINT32_MAX in Hlen; lia).
  assert (Hname : name <> "").
  { intros ->. unfold ZipIO.writeFullFile in Hok. discriminate. }
  assert (Halloc : realloc_ok (Z.max len 1024) = true).
  { unfold ZipIO.writeFullFile, Stream.openForWriting in Hok.
    destruct name; [contradiction|]. cbn [Str.empty] in Hok.
    rewrite (writeBytes_first _ _ data len H64 Hdata) in Hok.
    destruct (realloc_ok (Z.max len 1024)); [reflexivity|discriminate]. }
  rewrite (writeFullFile_eq p name data len src Hname H64 Hdata Halloc Hsrc).
  cbn [snd]. apply loadFullFile_reads_back.
  - cbn [ZipIO.m_zipArchive]. unfold archiveAfterAdd.
    destruct (Hlaw _ _ _ _ name Hsrc Hadd) as [Hplain Hstamped].
    destruct (zip_file_add (ZipIO.m_zipArchive p) name src) as [result a1].
    cbn [fst snd] in *. apply Z.ltb_ge in Hadd. rewrite Hadd.
    rewrite firstn_all2 in * by lia.
    destruct (ZipIO.m_fixedLastMod p); [apply Hstamped|exact Hplain].
  - lia.
  - unfold UINT32_MAX in Hlen. lia.
Qed.

(** C6, as the code has it: for a file name that is not empty,
    [openBinaryStream] in write mode returns a stream in write mode that
    carries the name and an empty buffer, whatever the archive holds, and
    leaves the provider as it was; once bytes are written to it, its
    [close] hands them to [zip_file_add] under that name (with
    ZIP_FL_OVERWRITE), and succeeds when that does. *)
Theorem openBinaryStream_write (p : ZipIO.t) (filename : string) :
  filename <> "" ->
  let ws := Stream.mk (Some WRITE) None None filename None 0 0
              (ZipIO.m_fixedLastMod p) in
  ZipIO.openBinaryStream p filename WRITE = (Some ws, p)
  /\ forall (data : list byte) (len : Z) (src : zip_source_t),
       0 < len < 2 ^ 64 ->
       Z.of_nat (List.length data) = len ->
       realloc_ok (Z.max len 1024) = true ->
       zip_source_buffer (ZipIO.m_zipArchive p) data len = Some src ->
       fst (Stream.writeBytes ws data len) = Some len
       /\ (let closed := Stream.close (snd (Stream.writeBytes ws data len))
                           (ZipIO.m_zipArchive p) in
           let added := zip_file_add (ZipIO.m_zipArchive p) filename src in
           fst (fst closed) = (0 <=? fst added)
           /\ snd closed = archiveAfterAdd (ZipIO.m_zipArchive p) filename src
                             (ZipIO.m_fixedLastMod p)).
Proof.
  intros Hne ws. split.
  - unfold ZipIO.openBinaryStream, Stream.openForWriting.
    destruct filename; [contradiction|reflexivity].
  - intros data len src Hlen Hdata Halloc Hsrc. subst ws.
    rewrite (writeBytes_first filename _ data len Hlen Hdata), Halloc.
    split; [reflexivity|]. cbn [snd].
    rewrite (close_registers _ (ZipIO.m_zipArchive p) data src);
      try reflexivity; try assumption; cbn [Stream.m_writeBufferLen]; try lia.
    unfold archiveAfterAdd. cbn [Stream.m_filename Stream.m_fixedLastMod].
    destruct (zip_file_add (ZipIO.m_zipArchive p) filename src) as [result a1].
    cbv zeta. cbn [fst]. destruct (result <? 0) eqn:E; cbn [fst snd].
    + split; [|reflexivity]. symmetry. apply Z.leb_gt. now apply Z.ltb_lt.
    + split; [|reflexivity]. symmetry. apply Z.leb_le. now apply Z.ltb_ge.
Qed.

(** A whole-file write that returns true leaves the directory cache
    empty. *)
Lemma writeFullFile_clears_cache (p : ZipIO.t) (name : string)
    (data : list byte) (len : Z) :
  fst (ZipIO.writeFullFile p name data len) = true ->
  ZipIO.m_cachedDirectoriesList (snd (ZipIO.writeFullFile p name data len)) = [].
Proof.
  unfold ZipIO.writeFullFile.
  destruct (Stream.openForWriting _ _ _) as [ws|]; [|discriminate].
  destruct (Stream.writeBytes ws data len) as [[n|] ws1]; [|discriminate].
  destruct (negb (n =? len)); [discriminate|].
  destruct (Stream.close ws1 _) as [[ok ws2] a]. intros _.
  unfold ZipIO.destroy_stream.
  destruct (Stream.close ws2 _) as [[ok' ws3] a']. reflexivity.
Qed.

End WriteProperties.

(** ** The in-memory libzip reads back what it registers *)

Section SimpleZipProperties.

Lemma locate_from_range (l : list SimpleZip.entry) (fname : string) (k : Z) :
  SimpleZip.locate_from l fname k = -1
  \/ k <= SimpleZip.locate_from l fname k < k + Z.of_nat (List.length l).
Proof.
  revert k. induction l as [|e l IH]; intros k; cbn [SimpleZip.locate_from].
  - now left.
  - destruct (String.eqb (SimpleZip.e_name e) fname).
    + right. cbn [List.length]. lia.
    + destruct (IH (k + 1)) as [H|H]; [now left|right].
      cbn [List.length]. lia.
Qed.

Lemma locate_from_append (l : list SimpleZip.entry) (e : SimpleZip.entry)
    (fname : string) (k : Z) :
  SimpleZip.e_name e = fname ->
  0 <= k ->
  SimpleZip.locate_from l fname k = -1 ->
  SimpleZip.locate_from (l ++ [e]) fname k = k + Z.of_nat (List.length l).
Proof.
  intros He. revert k. induction l as [|x l IH]; intros k H0 Hk;
    cbn [SimpleZip.locate_from List.app List.length] in *.
  - rewrite He, String.eqb_refl. lia.
  - destruct (String.eqb (SimpleZip.e_name x) fname).
    + lia.
    + rewrite (IH (k + 1) ltac:(lia) Hk). lia.
Qed.

Lemma locate_from_overwrite (l : list SimpleZip.entry) (e : SimpleZip.entry)
    (fname : string) (k : Z) :
  SimpleZip.e_name e = fname ->
  0 <= k ->
  k <= SimpleZip.locate_from l fname k ->
  SimpleZip.locate_from (SimpleZip.overwrite l fname e) fname k
  = SimpleZip.locate_from l fname k
  /\ nth_error (SimpleZip.overwrite l fname e)
       (Z.to_nat (SimpleZip.locate_from l fname k - k)) = Some e.
Proof.
  intros He. revert k. induction l as [|x l IH]; intros k H0 Hk;
    cbn [SimpleZip.locate_from SimpleZip.overwrite] in *.
  - lia.
  - destruct (String.eqb (SimpleZip.e_name x) fname) eqn:Ex.
    + cbn [SimpleZip.locate_from]. rewrite He, String.eqb_refl.
      rewrite Z.sub_diag. split; reflexivity.
    + cbn [SimpleZip.locate_from]. rewrite Ex.
      pose proof (locate_from_range l fname (k + 1)) as Hr.
      destruct (IH (k + 1) ltac:(lia) ltac:(lia)) as [H1 H2]. split; [exact H1|].
      replace (Z.to_nat (SimpleZip.locate_from l fname (k + 1) - k))
        with (S (Z.to_nat (SimpleZip.locate_from l fname (k + 1) - (k + 1))))
        by lia.
      exact H2.
Qed.

Lemma simple_fread_whole (data : list byte) (n : Z) :
  Z.of_nat (List.length data) <= n ->
  fst (SimpleZip.fread (data, false) n) = Some data.
Proof.
  intros Hn. unfold SimpleZip.fread.
  destruct (n <=? Z.of_nat (List.length data)) eqn:E; [|reflexivity].
  apply Z.leb_le in E. cbn [fst]. rewrite firstn_all2 by lia. reflexivity.
Qed.

(** An archive whose entry at the place [fname] is located is the stored
    entry for [data] reads [fname] back as [data]. *)
Lemma simple_reads_back (a : SimpleZip.archive) (fname : string)
    (data : list byte) :
  0 <= SimpleZip.locate_from (SimpleZip.entries a) fname 0 ->
  nth_error (SimpleZip.entries a)
    (Z.to_nat (SimpleZip.locate_from (SimpleZip.entries a) fname 0))
  = Some (SimpleZip.stored_entry fname data) ->
  @reads_back SimpleZip.libzip a fname data.
Proof.
  intros Hi Hnth. unfold reads_back. cbn [zip_name_locate SimpleZip.libzip].
  split; [exact Hi|].
  exists (SimpleZip.e_stat (SimpleZip.stored_entry fname data)), (data, false).
  cbn [zip_stat_index zip_fopen_index zip_fread SimpleZip.libzip].
  unfold SimpleZip.nth_entry.
  replace (SimpleZip.locate_from (SimpleZip.entries a) fname 0 <? 0) with false
    by (symmetry; apply Z.ltb_ge; lia).
  rewrite Hnth. cbn [option_map]. repeat split.
  - vm_compute. discriminate.
  - right. left. reflexivity.
  - intros n [Hn _]. now apply simple_fread_whole.
Qed.

Lemma simple_added_entries_read_back :
  @added_entries_read_back SimpleZip.libzip.
Proof.
  unfold added_entries_read_back.
  cbn [zip_source_buffer zip_file_add zip_file_set_dostime SimpleZip.libzip].
  intros a buf len src fname Hsrc Hadd. injection Hsrc as <-.
  set (data := firstn (Z.to_nat len) buf) in *.
  assert (H : @reads_back SimpleZip.libzip
                (snd (SimpleZip.file_add a fname data)) fname data).
  { unfold SimpleZip.file_add in *.
    destruct (SimpleZip.rdonly a); [cbn [fst] in Hadd; lia|].
    pose proof (locate_from_range (SimpleZip.entries a) fname 0) as Hr.
    destruct (SimpleZip.locate_from (SimpleZip.entries a) fname 0 <? 0) eqn:E;
      cbn [snd]; apply simple_reads_back; cbn [SimpleZip.entries].
    - apply Z.ltb_lt in E.
      rewrite locate_from_append by (reflexivity || lia). lia.
    - apply Z.ltb_lt in E.
      rewrite locate_from_append by (reflexivity || lia).
      rewrite Z.add_0_l, Nat2Z.id, nth_error_app2 by lia.
      now rewrite Nat.sub_diag.
    - apply Z.ltb_ge in E.
      destruct (locate_from_overwrite (SimpleZip.entries a)
                  (SimpleZip.stored_entry fname data) fname 0 eq_refl ltac:(lia) E)
        as [H1 _].
      rewrite H1. exact E.
    - apply Z.ltb_ge in E.
      destruct (locate_from_overwrite (SimpleZip.entries a)
                  (SimpleZip.stored_entry fname data) fname 0 eq_refl ltac:(lia) E)
        as [H1 H2].
      rewrite H1. rewrite Z.sub_0_r in H2. exact H2. }
  split; [exact H|intros _ _; exact H].
Qed.

End SimpleZipProperties.

(** The in-memory implementation with libzip's guard on the size of a read:
    [zip_fread] refuses a request of more than ZIP_INT64_MAX bytes. *)
Definition guardedZip : LibZip := {|
  zip_t := SimpleZip.archive;
  zip_file_t := SimpleZip.file;
  zip_source_t := list byte;
  zip_get_num_entries := @zip_get_num_entries SimpleZip.libzip;
  zip_get_name := @zip_get_name SimpleZip.libzip;
  zip_file_get_external_attributes :=
    @zip_file_get_external_attributes SimpleZip.libzip;
  zip_name_locate := @zip_name_locate SimpleZip.libzip;
  zip_stat_index := @zip_stat_index SimpleZip.libzip;
  zip_fopen_index := @zip_fopen_index SimpleZip.libzip;
  zip_fread :=
    fun h nbytes =>
      if 2 ^ 63 - 1 <? nbytes then (None, h) else SimpleZip.fread h nbytes;
  zip_source_buffer := @zip_source_buffer SimpleZip.libzip;
  zip_file_add := @zip_file_add SimpleZip.libzip;
  zip_file_set_dostime := @zip_file_set_dostime SimpleZip.libzip;
  realloc_ok := @realloc_ok SimpleZip.libzip
|}.

(** The law the round trip rests on holds with the guard as well: it asks
    only for reads libzip takes. *)
Lemma guarded_added_entries_read_back : @added_entries_read_back guardedZip.
Proof.
  intros a buf len src name Hsrc Hadd.
  destruct (simple_added_entries_read_back a buf len src name Hsrc Hadd)
    as [H1 H2].
  assert (T : forall a' data,
            @reads_back SimpleZip.libzip a' name data ->
            @reads_back guardedZip a' name data).
  { intros a' data (Hi & st & h & Hst & Hv & Hsz & Hcm & Ho & Hr).
    split; [exact Hi|]. exists st, h.
    split; [exact Hst|]. split; [exact Hv|]. split; [exact Hsz|].
    split; [exact Hcm|]. split; [exact Ho|].
    intros n Hn. cbn [zip_fread guardedZip].
    replace (2 ^ 63 - 1 <? n) with false by (symmetry; apply Z.ltb_ge; lia).
    now apply Hr. }
  split; [exact (T _ _ H1)|intros dtime ddate; exact (T _ _ (H2 dtime ddate))].
Qed.

(** The guard is there: a request of 2^63 bytes is refused. *)
Example guardedZip_refuses :
  fst (@zip_fread guardedZip ([x41], false) (2 ^ 63)) = None.
Proof. reflexivity. Qed.

(** C6 fails as stated: for the empty file name no stream is returned. *)
Lemma openBinaryStream_write_empty_name :
  fst (ZipIO.openBinaryStream (SimpleZip.provider emptyArchive) "" WRITE) = None.
Proof. reflexivity. Qed.

(** C6 on a name that is already in the archive. *)
Lemma openBinaryStream_write_witness :
  ZipIO.openBinaryStream (SimpleZip.provider storedArchive) "f" WRITE
  = (Some (Stream.mk (Some WRITE) None None "f" None 0 0 false),
     SimpleZip.provider storedArchive).
Proof.
  apply (@openBinaryStream_write SimpleZip.libzip
           (SimpleZip.provider storedArchive) "f").
  discriminate.
Defined.

(** Closing that stream after a byte was written replaces the entry. *)
Example close_overwrites_entry :
  let ws := Stream.mk (LZ := SimpleZip.libzip) (Some WRITE) None None "f"
              None 0 0 false in
  let closed := Stream.close (snd (Stream.writeBytes ws [x43] 1)) storedArchive in
  fst (fst closed) = true
  /\ List.map (fun e => (SimpleZip.e_name e, SimpleZip.e_data e))
       (SimpleZip.entries (snd closed)) = [("f", [x43])].
Proof. split; reflexivity. Qed.

(** C1 fails as stated: a write of no bytes returns true and registers
    nothing, so the load that follows finds no entry. *)
Lemma write_of_no_bytes_is_not_read_back :
  fst (ZipIO.writeFullFile (SimpleZip.provider emptyArchive) "f" [] 0) = true
  /\ fst (ZipIO.loadFullFile
            (snd (ZipIO.writeFullFile (SimpleZip.provider emptyArchive) "f" [] 0))
            "f" [] 0 false)
     = (LoadFullFileResult.FAILURE_OPEN, []).
Proof. split; reflexivity. Qed.

(** The cap of the load matters too: two bytes written are not loaded under
    a cap of one byte. *)
Lemma write_then_load_under_small_cap :
  fst (ZipIO.writeFullFile (SimpleZip.provider emptyArchive) "f" [x41; x42] 2) = true
  /\ fst (ZipIO.loadFullFile
            (snd (ZipIO.writeFullFile (SimpleZip.provider emptyArchive) "f"
                    [x41; x42] 2))
            "f" [] 1 false)
     = (LoadFullFileResult.FAILURE_EXCEEDS_MAXFILESIZE, []).
Proof. split; reflexivity. Qed.

(** And so does the archive: on a read-only archive the write returns true
    although libzip refused the entry. *)
Lemma write_on_read_only_archive :
  fst (ZipIO.writeFullFile
         (SimpleZip.provider (SimpleZip.mk_archive [] true)) "f" [x41] 1) = true
  /\ fst (ZipIO.loadFullFile
            (snd (ZipIO.writeFullFile
                    (SimpleZip.provider (SimpleZip.mk_archive [] true)) "f" [x41] 1))
            "f" [] 0 false)
     = (LoadFullFileResult.FAILURE_OPEN, []).
Proof. split; reflexivity. Qed.

(** C1 on the empty archive, over the implementation with libzip's guard:
    two bytes written and loaded with a NUL appended. *)
Lemma write_then_load_witness :
  fst (@ZipIO.loadFullFile guardedZip
         (snd (@ZipIO.writeFullFile guardedZip
                 (@ZipIO.fresh guardedZip emptyArchive false) "f" [x41; x42] 2))
         "f" [x43] 0 true)
  = (LoadFullFileResult.SUCCESS, [x41; x42; x00]).
Proof.
  apply (@write_then_load guardedZip (@ZipIO.fresh guardedZip emptyArchive false)
           "f" [x41; x42] [x43] 2 0 true [x41; x42]
           guarded_added_entries_read_back).
  - reflexivity.
  - unfold UINT32_MAX. lia.
  - reflexivity.
  - reflexivity.
  - vm_compute. discriminate.
  - vm_compute. discriminate.
Defined.

(** ** Enumeration *)

Section StringFacts.

Lemma strncmp_eq_prefix (base s : string) :
  Str.strncmp_eq base s (String.length base) = true ->
  s = String.append base (Str.substr_from (String.length base) s).
Proof.
  revert s. induction base as [|c base IH]; intros s H.
  - reflexivity.
  - cbn [String.length Str.strncmp_eq] in H. destruct s as [|d s]; [discriminate|].
    apply andb_true_iff in H. destruct H as [Hc Hr].
    apply Ascii.eqb_eq in Hc. subst d.
    cbn [String.length Str.substr_from String.append]. f_equal. now apply IH.
Qed.

Lemma take_substr_from (k : nat) (s : string) :
  s = String.append (Str.take k s) (Str.substr_from k s).
Proof.
  revert s. induction k as [|k IH]; intros s.
  - reflexivity.
  - destruct s as [|c s]; [reflexivity|].
    cbn [Str.take Str.substr_from String.append]. f_equal. apply IH.
Qed.

Lemma append_assoc (a b c : string) :
  String.append (String.append a b) c = String.append a (String.append b c).
Proof. induction a as [|x a IH]; cbn [String.append]; [reflexivity|now f_equal]. Qed.

Lemma append_empty_r (a : string) : String.append a "" = a.
Proof. induction a as [|x a IH]; cbn [String.append]; [reflexivity|now f_equal]. Qed.

Lemma take_length_le (k : nat) (s : string) :
  (String.length (Str.take k s) <= k)%nat
  /\ (String.length (Str.take k s) <= String.length s)%nat.
Proof.
  revert s. induction k as [|k IH]; intros s; [cbn; lia|].
  destruct s as [|c s]; [cbn; lia|].
  cbn [Str.take String.length]. destruct (IH s). lia.
Qed.

Lemma trailing_le (c : ascii) (s : string) :
  (Str.trailing c s <= String.length s)%nat.
Proof.
  induction s as [|x s IH]; [cbn; lia|].
  cbn [Str.trailing String.length].
  destruct (Nat.eqb (Str.trailing c s) (String.length s) && Ascii.eqb x c)%bool; lia.
Qed.

(** A string that ends in [c] has a trailing [c]. *)
Lemma trailing_pos (c : ascii) (s : string) :
  Str.back s = Some c -> (0 < Str.trailing c s)%nat.
Proof.
  induction s as [|x s IH]; [discriminate|].
  cbn [Str.back Str.trailing]. destruct s as [|y s].
  - intros [= ->]. cbn. rewrite Ascii.eqb_refl. lia.
  - intros H. specialize (IH H).
    destruct (Nat.eqb (Str.trailing c (String y s)) (String.length (String y s))
              && Ascii.eqb x c)%bool; lia.
Qed.

Lemma rfind_char_lt (c : ascii) (s : string) (i : nat) :
  Str.rfind_char c s = Some i -> (i < String.length s)%nat.
Proof.
  revert i. induction s as [|x s IH]; intros i; [discriminate|].
  cbn [Str.rfind_char String.length].
  destruct (Str.rfind_char c s) as [j|].
  - intros [= <-]. specialize (IH j eq_refl). lia.
  - destruct (Ascii.eqb x c); [intros [= <-]; lia|discriminate].
Qed.

(** The prefix up to and with the last [c] ends in [c]. *)
Lemma take_rfind_back (c : ascii) (s : string) (i : nat) :
  Str.rfind_char c s = Some i -> Str.back (Str.take (S i) s) = Some c.
Proof.
  revert i. induction s as [|x s IH]; intros i; [discriminate|].
  cbn [Str.rfind_char]. destruct (Str.rfind_char c s) as [j|] eqn:Ej.
  - intros [= <-]. specialize (IH j eq_refl).
    cbn [Str.take] in *. destruct s as [|y s]; [discriminate|].
    cbn [Str.take Str.back] in *. exact IH.
  - destruct (Ascii.eqb x c) eqn:Ex; [|discriminate]. intros [= <-].
    apply Ascii.eqb_eq in Ex. subst x. cbn. now destruct s.
Qed.

Lemma has_dotdot_iff (s : string) :
  Str.has_dotdot s = true
  <-> exists a b, s = String.append a (String.append ".." b).
Proof.
  induction s as [|c r IH]; cbn [Str.has_dotdot].
  - split; [discriminate|]. intros (a & b & H). destruct a; discriminate.
  - rewrite orb_true_iff, andb_true_iff, IH. split.
    + intros [[Hc Hd]|(a & b & H)].
      * destruct r as [|d r']; [discriminate|].
        apply Ascii.eqb_eq in Hc, Hd. subst. now exists "", r'.
      * exists (String c a), b. cbn [String.append]. now rewrite H.
    + intros (a & b & H). destruct a as [|x a].
      * cbn [String.append] in H. injection H as -> ->. left.
        now rewrite !Ascii.eqb_refl.
      * cbn [String.append] in H. injection H as -> ->. right. now exists a, b.
Qed.

(** [isUnsafeZipEntryName] answers true on exactly those names. *)
Lemma isUnsafeZipEntryName_iff (n : string) :
  isUnsafeZipEntryName n = true <-> unsafe_name n.
Proof.
  unfold isUnsafeZipEntryName, unsafe_name. destruct n as [|c0 r].
  - cbn. split; [now left|reflexivity].
  - cbn [Str.empty Str.front].
    destruct (Str.has_dotdot (String c0 r)) eqn:Edd.
    { split; [|reflexivity]. intros _. right. left. now apply has_dotdot_iff. }
    assert (Hnodd : ~ exists a b,
                      String c0 r = String.append a (String.append ".." b)).
    { intros H. apply has_dotdot_iff in H. congruence. }
    destruct (Ascii.eqb c0 "/") eqn:E1.
    { apply Ascii.eqb_eq in E1. subst. cbn [orb]. split; [|reflexivity].
      intros _. right. right. left. now exists r. }
    destruct (Ascii.eqb c0 "\") eqn:E2.
    { apply Ascii.eqb_eq in E2. subst. cbn [orb]. split; [|reflexivity].
      intros _. right. right. right. left. now exists r. }
    cbn [orb]. apply Ascii.eqb_neq in E1, E2. split.
    + destruct r as [|c1 r']; [discriminate|].
      rewrite andb_true_iff, orb_true_iff, !andb_true_iff, !Nat.leb_le.
      intros [Hc1 Hl]. apply Ascii.eqb_eq in Hc1. subst c1.
      right. right. right. right. exists c0, r'. split; [reflexivity|lia].
    + intros [H|[H|[(r' & H)|[(r' & H)|(c & r' & H & Hl)]]]];
        try discriminate; try contradiction; try congruence.
      injection H as -> ->.
      rewrite Ascii.eqb_refl, andb_true_iff, orb_true_iff, !andb_true_iff,
        !Nat.leb_le.
      split; [reflexivity|lia].
Qed.

Lemma insert_sorted_In (x y : string) (l : list string) :
  In x (Str.insert_sorted y l) -> x = y \/ In x l.
Proof.
  induction l as [|z l IH]; cbn [Str.insert_sorted].
  - intros [H|[]]; now left.
  - destruct (String.leb y z).
    + intros [H|H]; [now left|now right].
    + intros [H|H]; [right; now left|].
      destruct (IH H); [now left|right; now right].
Qed.

Lemma sort_In (x : string) (l : list string) : In x (Str.sort l) -> In x l.
Proof.
  induction l as [|y l IH]; cbn [Str.sort fold_right]; [tauto|].
  intros H. apply insert_sorted_In in H. destruct H; [now left|right; now apply IH].
Qed.

Lemma sort_Forall (P : string -> Prop) (l : list string) :
  Forall P l -> Forall P (Str.sort l).
Proof.
  rewrite !Forall_forall. intros H x Hx. apply H. now apply sort_In.
Qed.

End StringFacts.

Section EnumerationProperties.
Context {LZ : LibZip}.

Lemma ancestors_loop_S (fuel : nat) (nameStr : string)
    (set cached : list string) :
  ZipIO.ancestors_loop (S fuel) nameStr set cached =
    match ancestors_dir nameStr with
    | None => (set, cached)
    | Some dir =>
        ZipIO.ancestors_loop fuel
          (Str.take (String.length dir - Str.trailing "/" dir) dir)
          (if existsb (String.eqb dir) set then set else dir :: set)
          (if existsb (String.eqb dir) set then cached else cached ++ [dir])
    end.
Proof.
  cbn [ZipIO.ancestors_loop]. unfold ancestors_dir.
  destruct (Str.empty nameStr); [reflexivity|].
  destruct (match Str.back nameStr with
            | Some c => Ascii.eqb c "/" | None => false end).
  - now destruct (existsb (String.eqb nameStr) set).
  - destruct (Str.rfind_char "/" nameStr) as [i|]; [|reflexivity].
    now destruct (existsb (String.eqb (Str.take (S i) nameStr)) set).
Qed.

Lemma ancestors_dir_spec (nameStr dir : string) :
  ancestors_dir nameStr = Some dir ->
  (exists rest, nameStr = String.append dir rest)
  /\ Str.back dir = Some "/"%char
  /\ (String.length dir <= String.length nameStr)%nat.
Proof.
  unfold ancestors_dir. destruct (Str.empty nameStr); [discriminate|].
  destruct (Str.back nameStr) as [c|] eqn:Eb.
  - destruct (Ascii.eqb c "/") eqn:Ec.
    + intros [= <-]. apply Ascii.eqb_eq in Ec. subst c.
      split; [exists ""; now rewrite append_empty_r|]. split; [exact Eb|lia].
    + destruct (Str.rfind_char "/" nameStr) as [i|] eqn:Ei; [|discriminate].
      intros [= <-].
      split; [exists (Str.substr_from (S i) nameStr);
              exact (take_substr_from (S i) nameStr)|].
      split; [exact (take_rfind_back _ _ _ Ei)
             |exact (proj2 (take_length_le (S i) nameStr))].
  - destruct (Str.rfind_char "/" nameStr) as [i|] eqn:Ei; [|discriminate].
    intros [= <-].
    split; [exists (Str.substr_from (S i) nameStr);
            exact (take_substr_from (S i) nameStr)|].
    split; [exact (take_rfind_back _ _ _ Ei)
           |exact (proj2 (take_length_le (S i) nameStr))].
Qed.

Lemma ancestors_next_shorter (dir : string) :
  Str.back dir = Some "/"%char ->
  (String.length (Str.take (String.length dir - Str.trailing "/" dir) dir)
   < String.length dir)%nat.
Proof.
  intros Hb. pose proof (trailing_pos _ _ Hb) as Hpos.
  pose proof (trailing_le "/" dir) as Hle.
  pose proof (take_length_le (String.length dir - Str.trailing "/" dir) dir).
  lia.
Qed.

(** Fuel above the length of [nameStr] is never used up: more fuel gives
    the same result. *)
Lemma ancestors_loop_fuel (n m : nat) (nameStr : string)
    (set cached : list string) :
  (String.length nameStr < n)%nat ->
  (String.length nameStr < m)%nat ->
  ZipIO.ancestors_loop n nameStr set cached
  = ZipIO.ancestors_loop m nameStr set cached.
Proof.
  revert m nameStr set cached.
  induction n as [|n IH]; intros m nameStr set cached Hn Hm; [lia|].
  destruct m as [|m]; [lia|]. rewrite !ancestors_loop_S.
  destruct (ancestors_dir nameStr) as [dir|] eqn:Ed; [|reflexivity].
  destruct (ancestors_dir_spec _ _ Ed) as (_ & Hb & Hl).
  pose proof (ancestors_next_shorter dir Hb). apply IH; lia.
Qed.

Lemma ancestors_loop_safe (w : bool) (a : zip_t) (fuel : nat)
    (nameStr : string) (set cached : list string) :
  safe_ancestor w a nameStr ->
  Forall (safe_ancestor w a) cached ->
  Forall (safe_ancestor w a)
    (snd (ZipIO.ancestors_loop fuel nameStr set cached)).
Proof.
  revert nameStr set cached.
  induction fuel as [|fuel IH]; intros nameStr set cached Hn Hc; [exact Hc|].
  rewrite ancestors_loop_S.
  destruct (ancestors_dir nameStr) as [dir|] eqn:Ed; [|exact Hc].
  destruct (ancestors_dir_spec _ _ Ed) as ((r & Hr) & _ & _).
  assert (Hdir : safe_ancestor w a dir).
  { destruct Hn as (rest & Hs). exists (String.append r rest).
    now rewrite <- append_assoc, <- Hr. }
  apply IH.
  - destruct Hdir as (rest & Hs).
    exists (String.append
              (Str.substr_from (String.length dir - Str.trailing "/" dir) dir) rest).
    now rewrite <- append_assoc, <- take_substr_from.
  - destruct (existsb (String.eqb dir) set); [exact Hc|].
    apply Forall_app. split; [exact Hc|]. now constructor.
Qed.

Lemma workaround_step (p : ZipIO.t) :
  let p1 := snd (ZipIO.malformed_windows_path_separators_workaround p) in
  ZipIO.malformed_windows_path_separators_workaround p = (quirk p, p1)
  /\ ZipIO.m_zipArchive p1 = ZipIO.m_zipArchive p
  /\ ZipIO.m_cachedDirectoriesList p1 = ZipIO.m_cachedDirectoriesList p
  /\ quirk p1 = quirk p.
Proof.
  cbv zeta. unfold quirk. split; [apply surjective_pairing|].
  split; [apply workaround_archive|]. split; [apply workaround_cache|].
  apply workaround_again.
Qed.

Lemma quirk_set_cache (p : ZipIO.t) (l : list string) :
  quirk (ZipIO.set_cache p l) = quirk p.
Proof.
  unfold quirk, ZipIO.malformed_windows_path_separators_workaround,
    ZipIO.determineIfMalformedWindowsPathSeparatorWorkaround.
  cbn [ZipIO.set_cache ZipIO.m_foundMalformedWindowsPathSeparators
       ZipIO.m_zipArchive].
  destruct (ZipIO.m_foundMalformedWindowsPathSeparators p); [reflexivity|].
  destruct (zip_get_num_entries (ZipIO.m_zipArchive p) <? 0); [reflexivity|].
  now destruct (ZipIO.determine_loop _ _).
Qed.

(** The loop that fills the cache keeps the archive and the flag, and adds
    only starts of names of safe entries. *)
Lemma buildDirectories_loop_safe (idxs : list Z) (p : ZipIO.t)
    (set : list string) :
  Forall (safe_ancestor (quirk p) (ZipIO.m_zipArchive p))
    (ZipIO.m_cachedDirectoriesList p) ->
  let p' := fst (ZipIO.buildDirectories_loop idxs p set) in
  ZipIO.m_zipArchive p' = ZipIO.m_zipArchive p
  /\ quirk p' = quirk p
  /\ Forall (safe_ancestor (quirk p) (ZipIO.m_zipArchive p))
       (ZipIO.m_cachedDirectoriesList p').
Proof.
  revert p set. induction idxs as [|idx rest IH]; intros p set Hc;
    cbn [ZipIO.buildDirectories_loop].
  - cbn [fst]. auto.
  - destruct (zip_get_name (ZipIO.m_zipArchive p) idx) as [name|] eqn:En;
      [|now apply IH].
    destruct (Str.empty name); [now apply IH|].
    destruct (workaround_step p) as (Hw & Ha & Hcache & Hq). rewrite Hw.
    set (p1 := snd (ZipIO.malformed_windows_path_separators_workaround p)) in *.
    rewrite Ha.
    destruct (isUnsafeZipEntryName
                (ZipIO.normalizedName (quirk p) (ZipIO.m_zipArchive p) idx name))
      eqn:Eu.
    + rewrite <- Ha, <- Hq. apply IH. rewrite Hq, Ha, Hcache. exact Hc.
    + pose proof (ancestors_loop_safe (quirk p) (ZipIO.m_zipArchive p)
                    (S (String.length
                          (ZipIO.normalizedName (quirk p) (ZipIO.m_zipArchive p)
                             idx name)))
                    (ZipIO.normalizedName (quirk p) (ZipIO.m_zipArchive p) idx name)
                    set (ZipIO.m_cachedDirectoriesList p1)) as Hanc.
      destruct (ZipIO.ancestors_loop _ _ set (ZipIO.m_cachedDirectoriesList p1))
        as [set1 cached1].
      cbn [snd] in Hanc.
      specialize (IH (ZipIO.set_cache p1 cached1) set1).
      rewrite quirk_set_cache, Hq in IH.
      cbn [ZipIO.set_cache ZipIO.m_zipArchive ZipIO.m_cachedDirectoriesList] in IH.
      rewrite Ha in IH. apply IH. apply Hanc.
      * exists "". rewrite append_empty_r. exists idx, name.
        repeat split; [exact En|]. rewrite <- isUnsafeZipEntryName_iff. congruence.
      * rewrite Hcache. exact Hc.
Qed.

Lemma basePathToSearch_empty (basePath : string) :
  snd (basePathToSearch basePath) = true -> fst (basePathToSearch basePath) = "".
Proof.
  unfold basePathToSearch.
  destruct (String.eqb _ "/"); [reflexivity|]. cbn [fst snd].
  destruct basePath; [reflexivity|discriminate].
Qed.

Lemma fileToReport_Some (recurse : bool) (base : string) (emptyBasePath : bool)
    (nameStr file : string) :
  (emptyBasePath = true -> base = "") ->
  ZipIO.fileToReport recurse base emptyBasePath nameStr = Some file ->
  isUnsafeZipEntryName nameStr = false /\ nameStr = String.append base file.
Proof.
  intros Hb. unfold ZipIO.fileToReport.
  destruct (negb emptyBasePath
            && negb (Str.strncmp_eq base nameStr (String.length base))) eqn:E1;
    [discriminate|].
  destruct (isUnsafeZipEntryName nameStr); [discriminate|].
  destruct (match Str.back nameStr with
            | Some c => Ascii.eqb c "/" | None => false end); [discriminate|].
  destruct (negb recurse && _); [discriminate|].
  intros [= <-]. split; [reflexivity|].
  destruct emptyBasePath; cbn [negb andb] in *.
  - now rewrite (Hb eq_refl).
  - apply negb_false_iff in E1. now apply strncmp_eq_prefix.
Qed.

Lemma folderToReport_Some (recurse : bool) (base : string)
    (emptyBasePath : bool) (dirPath relativeDirPath : string) :
  (emptyBasePath = true -> base = "") ->
  ZipIO.folderToReport recurse base emptyBasePath dirPath = Some relativeDirPath ->
  dirPath = String.append base relativeDirPath.
Proof.
  intros Hb. unfold ZipIO.folderToReport.
  destruct (negb emptyBasePath
            && negb (Str.strncmp_eq base dirPath (String.length base))) eqn:E1;
    [discriminate|].
  destruct (Nat.eqb _ _); [discriminate|].
  destruct (negb recurse && _); [discriminate|].
  intros [= <-].
  destruct emptyBasePath; cbn [negb andb] in *.
  - now rewrite (Hb eq_refl).
  - apply negb_false_iff in E1. now apply strncmp_eq_prefix.
Qed.

(** The names the file loop hands to the callback are names of safe
    entries with the base path taken off. *)
Lemma enumerateFiles_loop_traced {St : Type} (recurse : bool) (base : string)
    (emptyBasePath : bool) (f : ZipIO.EnumFunc St) (idxs : list Z)
    (p : ZipIO.t) (st : St) (log : list string) :
  (emptyBasePath = true -> base = "") ->
  exists new,
    snd (snd (ZipIO.enumerateFiles_loop recurse base emptyBasePath (traced f)
                idxs p (st, log))) = log ++ new
    /\ Forall (fun file => safe_entry_name (quirk p) (ZipIO.m_zipArchive p)
                             (String.append base file)) new.
Proof.
  intros Hb. revert p st log.
  induction idxs as [|idx rest IH]; intros p st log;
    cbn [ZipIO.enumerateFiles_loop].
  - exists []. cbn [snd]. now rewrite app_nil_r.
  - destruct (zip_get_name (ZipIO.m_zipArchive p) idx) as [name|] eqn:En;
      [|apply IH].
    destruct (Str.empty name); [apply IH|].
    destruct (workaround_step p) as (Hw & Ha & _ & Hq). rewrite Hw.
    set (p1 := snd (ZipIO.malformed_windows_path_separators_workaround p)) in *.
    rewrite Ha.
    destruct (ZipIO.fileToReport recurse base emptyBasePath _) as [file|] eqn:Ef.
    + destruct (fileToReport_Some _ _ _ _ _ Hb Ef) as [Hsafe Hname].
      assert (Hfile : safe_entry_name (quirk p) (ZipIO.m_zipArchive p)
                        (String.append base file)).
      { exists idx, name. rewrite <- Hname.
        repeat split; [exact En|]. rewrite <- isUnsafeZipEntryName_iff. congruence. }
      unfold traced at 1. cbn [fst snd].
      destruct (f st file) as [goOn st1]. destruct goOn.
      * destruct (IH p1 st1 (log ++ [file])) as (new & Hlog & Hnew).
        exists (file :: new). rewrite Hlog, <- app_assoc. split; [reflexivity|].
        constructor; [exact Hfile|]. now rewrite <- Hq, <- Ha.
      * exists [file]. cbn [snd]. split; [reflexivity|]. now constructor.
    + destruct (IH p1 st log) as (new & Hlog & Hnew).
      exists new. split; [exact Hlog|]. now rewrite <- Hq, <- Ha.
Qed.

(** The names the folder loop hands to the callback are cached directories
    with the base path taken off. *)
Lemma enumerateFolders_loop_traced {St : Type} (recurse : bool) (base : string)
    (emptyBasePath : bool) (f : ZipIO.EnumFunc St) (P : string -> Prop)
    (dirs : list string) (st : St) (log : list string) :
  (emptyBasePath = true -> base = "") ->
  Forall P dirs ->
  exists new,
    snd (ZipIO.enumerateFolders_loop recurse base emptyBasePath (traced f)
           dirs (st, log)) = log ++ new
    /\ Forall (fun dir => P (String.append base dir)) new.
Proof.
  intros Hb. revert st log.
  induction dirs as [|dirPath rest IH]; intros st log Hdirs;
    cbn [ZipIO.enumerateFolders_loop].
  - exists []. cbn [snd]. now rewrite app_nil_r.
  - inversion Hdirs as [|? ? Hd Hrest]; subst.
    destruct (ZipIO.folderToReport recurse base emptyBasePath dirPath)
      as [rel|] eqn:Ef; [|now apply IH].
    pose proof (folderToReport_Some _ _ _ _ _ Hb Ef) as Hrel.
    unfold traced at 1. cbn [fst snd].
    destruct (f st rel) as [goOn st1]. destruct goOn.
    + destruct (IH st1 (log ++ [rel]) Hrest) as (new & Hlog & Hnew).
      exists (rel :: new). rewrite Hlog, <- app_assoc. split; [reflexivity|].
      constructor; [now rewrite <- Hrel|exact Hnew].
    + exists [rel]. cbn [snd]. split; [reflexivity|].
      constructor; [now rewrite <- Hrel|constructor].
Qed.

Lemma enumerateFilesInternal_traced {St : Type} (p : ZipIO.t)
    (basePath : string) (recurse : bool) (f : ZipIO.EnumFunc St) (st : St) :
  0 <= zip_get_num_entries (ZipIO.m_zipArchive p) ->
  let res := ZipIO.enumerateFilesInternal p basePath recurse
               (Some (traced f)) (st, []) in
  fst (fst res) = true
  /\ Forall (fun file =>
               safe_entry_name (quirk p) (ZipIO.m_zipArchive p)
                 (String.append (fst (basePathToSearch basePath)) file))
       (snd (snd res)).
Proof.
  intros Hn. cbv zeta. unfold ZipIO.enumerateFilesInternal.
  apply Z.ltb_ge in Hn. rewrite Hn.
  pose proof (basePathToSearch_empty basePath) as Hb.
  destruct (basePathToSearch basePath) as [base emptyBasePath]. cbn [fst snd] in *.
  destruct (enumerateFiles_loop_traced recurse base emptyBasePath f
              (indices (zip_get_num_entries (ZipIO.m_zipArchive p))) p st [] Hb)
    as (new & Hlog & Hnew).
  destruct (ZipIO.enumerateFiles_loop _ _ _ _ _ _ _) as [p1 st1].
  cbn [fst snd] in *. rewrite Hlog. split; [reflexivity|exact Hnew].
Qed.

Lemma enumerateFoldersInternal_traced {St : Type} (p : ZipIO.t)
    (basePath : string) (recurse : bool) (f : ZipIO.EnumFunc St) (st : St) :
  0 <= zip_get_num_entries (ZipIO.m_zipArchive p) ->
  Forall (safe_ancestor (quirk p) (ZipIO.m_zipArchive p))
    (ZipIO.m_cachedDirectoriesList p) ->
  let res := ZipIO.enumerateFoldersInternal p basePath recurse
               (Some (traced f)) (st, []) in
  fst (fst res) = true
  /\ Forall (fun dir =>
               safe_ancestor (quirk p) (ZipIO.m_zipArchive p)
                 (String.append (fst (basePathToSearch basePath)) dir))
       (snd (snd res))
  /\ Forall (safe_ancestor (quirk p) (ZipIO.m_zipArchive p))
       (ZipIO.m_cachedDirectoriesList (snd (fst res))).
Proof.
  intros Hn Hc. cbv zeta. unfold ZipIO.enumerateFoldersInternal.
  pose proof (basePathToSearch_empty basePath) as Hb.
  destruct (basePathToSearch basePath) as [base emptyBasePath]. cbn [fst snd] in *.
  assert (Hlist : forall p1,
            Forall (safe_ancestor (quirk p) (ZipIO.m_zipArchive p))
              (ZipIO.m_cachedDirectoriesList p1) ->
            let res := (true, p1,
                        ZipIO.enumerateFolders_loop recurse base emptyBasePath
                          (traced f) (ZipIO.m_cachedDirectoriesList p1) (st, [])) in
            fst (fst res) = true
            /\ Forall (fun dir => safe_ancestor (quirk p) (ZipIO.m_zipArchive p)
                                    (String.append base dir)) (snd (snd res))
            /\ Forall (safe_ancestor (quirk p) (ZipIO.m_zipArchive p))
                 (ZipIO.m_cachedDirectoriesList (snd (fst res)))).
  { intros p1 Hp1. cbv zeta. cbn [fst snd].
    destruct (enumerateFolders_loop_traced recurse base emptyBasePath f _ _ st []
                Hb Hp1) as (new & Hlog & Hnew).
    rewrite Hlog. auto. }
  destruct (ZipIO.m_cachedDirectoriesList p) as [|d ds] eqn:Ecache.
  - apply Z.ltb_ge in Hn. rewrite Hn.
    pose proof (buildDirectories_loop_safe
                  (indices (zip_get_num_entries (ZipIO.m_zipArchive p))) p [])
      as Hbuild.
    rewrite Ecache in Hbuild. specialize (Hbuild (Forall_nil _)).
    destruct (ZipIO.buildDirectories_loop _ p []) as [p1 set1].
    cbn [fst] in Hbuild. destruct Hbuild as (_ & _ & Hsafe).
    apply (Hlist (ZipIO.set_cache p1 (Str.sort (ZipIO.m_cachedDirectoriesList p1)))).
    cbn [ZipIO.set_cache ZipIO.m_cachedDirectoriesList]. now apply sort_Forall.
  - rewrite <- Ecache in *. exact (Hlist p Hc).
Qed.

(** C3: whatever the base path and the callback, each of the four
    enumerations succeeds and hands to the callback only names that come
    from a safe entry, that is, an entry whose name after the separator
    workaround is not an [unsafe_name] (it is not empty, has no "..", does
    not start with a slash or a backslash, and does not start with a
    letter and a colon): a file name with the base path in front is the
    name of such an entry, a folder name with the base path in front is the
    start of one.  The directory cache is required to hold only such
    starts, as it does when it is empty, and does so again afterwards. *)
Theorem enumeration_leaves_out_unsafe_names {St : Type} (p : ZipIO.t)
    (basePath : string) (f : ZipIO.EnumFunc St) (st : St) :
  0 <= zip_get_num_entries (ZipIO.m_zipArchive p) ->
  Forall (safe_ancestor (quirk p) (ZipIO.m_zipArchive p))
    (ZipIO.m_cachedDirectoriesList p) ->
  let base := fst (basePathToSearch basePath) in
  let fromFile file :=
    safe_entry_name (quirk p) (ZipIO.m_zipArchive p) (String.append base file) in
  let fromFolder dir :=
    safe_ancestor (quirk p) (ZipIO.m_zipArchive p) (String.append base dir) in
  let cacheKept (q : ZipIO.t) :=
    Forall (safe_ancestor (quirk p) (ZipIO.m_zipArchive p))
      (ZipIO.m_cachedDirectoriesList q) in
  (let res := ZipIO.enumerateFiles p basePath (Some (traced f)) (st, []) in
   fst (fst res) = true /\ Forall fromFile (snd (snd res)))
  /\ (let res := ZipIO.enumerateFilesRecursive p basePath (Some (traced f)) (st, []) in
      fst (fst res) = true /\ Forall fromFile (snd (snd res)))
  /\ (let res := ZipIO.enumerateFolders p basePath (Some (traced f)) (st, []) in
      fst (fst res) = true /\ Forall fromFolder (snd (snd res))
      /\ cacheKept (snd (fst res)))
  /\ (let res := ZipIO.enumerateFoldersRecursive p basePath (Some (traced f)) (st, []) in
      fst (fst res) = true /\ Forall fromFolder (snd (snd res))
      /\ cacheKept (snd (fst res))).
Proof.
  intros Hn Hc. cbv zeta.
  unfold ZipIO.enumerateFiles, ZipIO.enumerateFilesRecursive,
    ZipIO.enumerateFolders, ZipIO.enumerateFoldersRecursive.
  split; [apply (enumerateFilesInternal_traced p basePath false f st Hn)|].
  split; [apply (enumerateFilesInternal_traced p basePath true f st Hn)|].
  split; [apply (enumerateFoldersInternal_traced p basePath false f st Hn Hc)|].
  apply (enumerateFoldersInternal_traced p basePath true f st Hn Hc).
Qed.

End EnumerationProperties.

Section NestedFile.
Context {LZ : LibZip}.

Lemma normalizedName_plain (w : bool) (a : zip_t) (idx : Z) (name : string) :
  Str.strchr name "\" = false -> ZipIO.normalizedName w a idx name = name.
Proof.
  intros H. unfold ZipIO.normalizedName.
  destruct w; [|reflexivity].
  destruct (zip_file_get_external_attributes a idx); [|reflexivity].
  now rewrite H, andb_false_r.
Qed.

(** The file loop over an archive whose one entry is a/b/c.txt. *)
Lemma enumerateFiles_loop_nested {St : Type} (recurse : bool)
    (g : ZipIO.EnumFunc St) (p : ZipIO.t) (st : St) :
  zip_get_name (ZipIO.m_zipArchive p) 0 = Some "a/b/c.txt" ->
  snd (ZipIO.enumerateFiles_loop recurse "a/" false g [0] p st)
  = if recurse then snd (g st "b/c.txt") else st.
Proof.
  intros Hname. cbn [ZipIO.enumerateFiles_loop]. rewrite Hname.
  change (Str.empty "a/b/c.txt") with false. cbv iota.
  destruct (workaround_step p) as (Hw & _). rewrite Hw.
  rewrite normalizedName_plain by reflexivity.
  destruct recurse.
  - change (ZipIO.fileToReport true "a/" false "a/b/c.txt") with (Some "b/c.txt").
    cbv iota. destruct (g st "b/c.txt") as [goOn st1]. now destruct goOn.
  - change (ZipIO.fileToReport false "a/" false "a/b/c.txt") with (@None string).
    reflexivity.
Qed.

(** The cache built from that archive. *)
Lemma buildDirectories_loop_nested (p : ZipIO.t) :
  zip_get_name (ZipIO.m_zipArchive p) 0 = Some "a/b/c.txt" ->
  ZipIO.m_cachedDirectoriesList p = [] ->
  ZipIO.m_cachedDirectoriesList (fst (ZipIO.buildDirectories_loop [0] p []))
  = ["a/b/"; "a/"].
Proof.
  intros Hname Hcache. cbn [ZipIO.buildDirectories_loop]. rewrite Hname.
  change (Str.empty "a/b/c.txt") with false. cbv iota.
  destruct (workaround_step p) as (Hw & _ & Hc & _). rewrite Hw.
  rewrite normalizedName_plain by reflexivity.
  change (isUnsafeZipEntryName "a/b/c.txt") with false. cbv iota.
  rewrite Hc, Hcache.
  change (ZipIO.ancestors_loop (S (String.length "a/b/c.txt")) "a/b/c.txt" [] [])
    with (["a/"; "a/b/"], ["a/b/"; "a/"]).
  reflexivity.
Qed.

(** C7: on an archive whose one entry is a/b/c.txt, with the directory
    cache not yet built, and for every callback: [enumerateFolders] of a/
    reports exactly b/, [enumerateFoldersRecursive] of a/ reports exactly
    b/, [enumerateFilesRecursive] of a/ reports exactly b/c.txt, and
    [enumerateFiles] of a/ reports nothing; all four succeed. *)
Theorem enumerate_nested_file {St : Type} (p : ZipIO.t)
    (f : ZipIO.EnumFunc St) (st : St) :
  zip_get_num_entries (ZipIO.m_zipArchive p) = 1 ->
  zip_get_name (ZipIO.m_zipArchive p) 0 = Some "a/b/c.txt" ->
  ZipIO.m_cachedDirectoriesList p = [] ->
  (let res := ZipIO.enumerateFolders p "a/" (Some (traced f)) (st, []) in
   fst (fst res) = true /\ snd (snd res) = ["b/"])
  /\ (let res := ZipIO.enumerateFoldersRecursive p "a/" (Some (traced f)) (st, []) in
      fst (fst res) = true /\ snd (snd res) = ["b/"])
  /\ (let res := ZipIO.enumerateFilesRecursive p "a/" (Some (traced f)) (st, []) in
      fst (fst res) = true /\ snd (snd res) = ["b/c.txt"])
  /\ (let res := ZipIO.enumerateFiles p "a/" (Some (traced f)) (st, []) in
      fst (fst res) = true /\ snd (snd res) = []).
Proof.
  intros Hnum Hname Hcache. cbv zeta.
  assert (Hfolders : forall recurse,
            let res := ZipIO.enumerateFoldersInternal p "a/" recurse
                         (Some (traced f)) (st, []) in
            fst (fst res) = true /\ snd (snd res) = ["b/"]).
  { intros recurse. cbv zeta. unfold ZipIO.enumerateFoldersInternal.
    rewrite Hcache, Hnum. change (1 <? 0) with false. cbv iota.
    change (indices 1) with [0].
    pose proof (buildDirectories_loop_nested p Hname Hcache) as Hbuild.
    destruct (ZipIO.buildDirectories_loop [0] p []) as [p1 set1].
    cbn [fst] in Hbuild.
    cbn [ZipIO.set_cache ZipIO.m_cachedDirectoriesList]. rewrite Hbuild.
    change (Str.sort ["a/b/"; "a/"]) with ["a/"; "a/b/"].
    change (basePathToSearch "a/") with ("a/", false). cbv iota. cbn [fst snd].
    split; [reflexivity|].
    cbn [ZipIO.enumerateFolders_loop].
    change (ZipIO.folderToReport recurse "a/" false "a/") with (@None string).
    cbv iota.
    replace (ZipIO.folderToReport recurse "a/" false "a/b/") with (Some "b/")
      by now destruct recurse.
    cbv iota. unfold traced. cbn [fst snd].
    destruct (f st "b/") as [goOn st1]. now destruct goOn. }
  assert (Hfiles : forall recurse,
            let res := ZipIO.enumerateFilesInternal p "a/" recurse
                         (Some (traced f)) (st, []) in
            fst (fst res) = true
            /\ snd (snd res) = if recurse then ["b/c.txt"] else []).
  { intros recurse. cbv zeta. unfold ZipIO.enumerateFilesInternal.
    rewrite Hnum. change (1 <? 0) with false. cbv iota.
    change (indices 1) with [0].
    change (basePathToSearch "a/") with ("a/", false). cbv iota.
    pose proof (enumerateFiles_loop_nested recurse (traced f) p (st, []) Hname)
      as Hloop.
    destruct (ZipIO.enumerateFiles_loop recurse "a/" false (traced f) [0] p (st, []))
      as [p1 st1].
    cbn [fst snd] in *. split; [reflexivity|]. rewrite Hloop.
    destruct recurse; [|reflexivity].
    unfold traced. cbn [fst snd]. now destruct (f st "b/c.txt"). }
  unfold ZipIO.enumerateFiles, ZipIO.enumerateFilesRecursive,
    ZipIO.enumerateFolders, ZipIO.enumerateFoldersRecursive.
  split; [apply Hfolders|]. split; [apply Hfolders|].
  split; [apply (Hfiles true)|apply (Hfiles false)].
Qed.

End NestedFile.

(** C7 on the in-memory archive. *)
Lemma enumerate_nested_file_witness :
  snd (snd (ZipIO.enumerateFolders (SimpleZip.provider nestedArchive) "a/"
              (Some (traced keepGoing)) (tt, []))) = ["b/"]
  /\ snd (snd (ZipIO.enumerateFoldersRecursive (SimpleZip.provider nestedArchive)
                 "a/" (Some (traced keepGoing)) (tt, []))) = ["b/"]
  /\ snd (snd (ZipIO.enumerateFilesRecursive (SimpleZip.provider nestedArchive)
                 "a/" (Some (traced keepGoing)) (tt, []))) = ["b/c.txt"]
  /\ snd (snd (ZipIO.enumerateFiles (SimpleZip.provider nestedArchive) "a/"
                 (Some (traced keepGoing)) (tt, []))) = [].
Proof.
  destruct (@enumerate_nested_file SimpleZip.libzip unit
              (SimpleZip.provider nestedArchive) keepGoing tt
              eq_refl eq_refl eq_refl)
    as ((_ & H1) & (_ & H2) & (_ & H3) & (_ & H4)).
  repeat split; assumption.
Defined.

(** What the enumerations report on the hostile archive. *)
Example hostileArchive_listing :
  snd (snd (ZipIO.enumerateFilesRecursive (SimpleZip.provider hostileArchive) ""
              (Some (traced keepGoing)) (tt, []))) = ["a/ok.txt"]
  /\ snd (snd (ZipIO.enumerateFoldersRecursive (SimpleZip.provider hostileArchive) ""
                 (Some (traced keepGoing)) (tt, []))) = ["a/"].
Proof. split; reflexivity. Qed.

(** C3 on the hostile archive. *)
Lemma enumeration_leaves_out_unsafe_names_witness :
  let p := SimpleZip.provider hostileArchive in
  let fromFile file :=
    @safe_entry_name SimpleZip.libzip (quirk p) hostileArchive
      (String.append "" file) in
  let fromFolder dir :=
    @safe_ancestor SimpleZip.libzip (quirk p) hostileArchive
      (String.append "" dir) in
  Forall fromFile
    (snd (snd (ZipIO.enumerateFilesRecursive p "" (Some (traced keepGoing)) (tt, []))))
  /\ Forall fromFolder
       (snd (snd (ZipIO.enumerateFoldersRecursive p ""
                    (Some (traced keepGoing)) (tt, [])))).
Proof.
  pose proof (@enumeration_leaves_out_unsafe_names SimpleZip.libzip unit
                (SimpleZip.provider hostileArchive) "" keepGoing tt
                ltac:(vm_compute; discriminate) (Forall_nil _)) as H.
  cbv zeta in *. destruct H as (_ & (_ & H2) & _ & (_ & H4 & _)).
  split; [exact H2|exact H4].
Defined.

(** ** The directory cache and writes through a stream *)

(** Closing (or destroying) a stream changes the archive the provider
    shares and nothing else of the provider. *)
Lemma destroy_stream_keeps_cache {LZ : LibZip} (s : Stream.t) (p : ZipIO.t) :
  ZipIO.m_cachedDirectoriesList (ZipIO.destroy_stream s p)
  = ZipIO.m_cachedDirectoriesList p.
Proof.
  unfold ZipIO.destroy_stream.
  now destruct (Stream.close s (ZipIO.m_zipArchive p)) as [[ok s'] a].
Qed.

(** C5 does not hold for the stream path: the close of a write stream
    with buffered bytes succeeds and adds b/y.txt to the archive the
    provider shares, but the provider's directory cache is left as it was
    ([a/]), so the next folder enumeration does not report b/, which a
    provider without a cache over the same archive reports.  The
    whole-file path adds the same entry and clears the cache. *)
Theorem stream_close_leaves_directory_cache :
  let closed := Stream.close pendingStream (ZipIO.m_zipArchive listedProvider) in
  let p := ZipIO.destroy_stream pendingStream listedProvider in
  fst (fst closed) = true
  /\ List.map SimpleZip.e_name (SimpleZip.entries (ZipIO.m_zipArchive p))
     = ["a/x.txt"; "b/y.txt"]
  /\ ZipIO.m_cachedDirectoriesList listedProvider = ["a/"]
  /\ ZipIO.m_cachedDirectoriesList p = ["a/"]
  /\ snd (snd (ZipIO.enumerateFolders p "" (Some (traced keepGoing)) (tt, [])))
     = ["a/"]
  /\ snd (snd (ZipIO.enumerateFolders
                 (SimpleZip.provider (ZipIO.m_zipArchive p)) ""
                 (Some (traced keepGoing)) (tt, [])))
     = ["a/"; "b/"]
  /\ (let q := snd (ZipIO.writeFullFile listedProvider "b/y.txt" [x42] 1) in
      ZipIO.m_zipArchive q = ZipIO.m_zipArchive p
      /\ ZipIO.m_cachedDirectoriesList q = []
      /\ snd (snd (ZipIO.enumerateFolders q "" (Some (traced keepGoing)) (tt, [])))
         = ["a/"; "b/"]).
Proof. cbv zeta. repeat split; reflexivity. Qed.

(** * Further properties of the stream adapter *)

Section StreamInvariants.
Context {LZ : LibZip}.

(** The bytes a write stream holds. *)
Definition buffered (s : Stream.t) : list byte :=
  match Stream.m_writeBuffer s with Some b => b | None => [] end.

(** The write buffer is consistent: its length is the number of bytes
    held, within the capacity, and a null buffer has no capacity. *)
Definition buffer_wf (s : Stream.t) : Prop :=
  0 <= Stream.m_writeBufferLen s <= Stream.m_writeBufferCapacity s
  /\ Stream.m_writeBufferCapacity s < 2 ^ 64
  /\ Z.of_nat (List.length (buffered s)) = Stream.m_writeBufferLen s
  /\ (Stream.m_writeBuffer s = None -> Stream.m_writeBufferCapacity s = 0).

(** [writeBytes] appends: on a consistent buffer, with [len] bytes at hand
    and sizes that fit a [size_t], it either fails on [realloc] and leaves
    the stream as it was, or returns [len], holds the old bytes followed
    by the first [len] bytes of [buffer], and keeps the buffer consistent;
    the capacity never shrinks, and when it grows it grows to at least
    1024 and at least one and a half times the old capacity. *)
Theorem writeBytes_appends (s : Stream.t) (buffer : list byte) (len : Z) :
  buffer_wf s ->
  0 <= len <= Z.of_nat (List.length buffer) ->
  Stream.m_writeBufferCapacity s
  + Z.max (Stream.m_writeBufferCapacity s / 2) len < 2 ^ 64 ->
  match Stream.writeBytes s buffer len with
  | (None, s') => s' = s
  | (Some n, s') =>
      n = len
      /\ buffered s' = buffered s ++ firstn (Z.to_nat len) buffer
      /\ buffer_wf s'
      /\ Stream.m_filename s' = Stream.m_filename s
      /\ Stream.m_writeBufferCapacity s <= Stream.m_writeBufferCapacity s'
      /\ (Stream.m_writeBufferCapacity s' <> Stream.m_writeBufferCapacity s ->
          1024 <= Stream.m_writeBufferCapacity s'
          /\ Stream.m_writeBufferCapacity s
             + Stream.m_writeBufferCapacity s / 2
             <= Stream.m_writeBufferCapacity s')
  end.
Proof.
  intros (Hlen & Hcap & Hbuf & Hnull) Hl Hfit.
  unfold Stream.writeBytes.
  set (cap := Stream.m_writeBufferCapacity s) in *.
  set (used := Stream.m_writeBufferLen s) in *.
  assert (Hdiv : 0 <= cap / 2 <= cap) by (split; [apply Z.div_pos|apply Z.div_le_upper_bound]; lia).
  rewrite (wrap64_small (cap - used)) by lia.
  rewrite (wrap64_small (cap + Z.max (cap / 2) len)) by lia.
  destruct (cap - used <? len) eqn:Eg.
  - apply Z.ltb_lt in Eg. cbn [andb].
    destruct (realloc_ok (Z.max (cap + Z.max (cap / 2) len) 1024));
      cbn [negb]; [|reflexivity].
    assert (Hsum : used + len < 2 ^ 64) by lia.
    rewrite (wrap64_small (used + len)) by lia.
    split; [reflexivity|].
    assert (Hcontents :
              buffered (Stream.set_write s (Stream.m_filename s)
                          match Stream.m_writeBuffer s with
                          | Some old => Some (old ++ firstn (Z.to_nat len) buffer)
                          | None => Some (firstn (Z.to_nat len) buffer)
                          end (used + len)
                          (Z.max (cap + Z.max (cap / 2) len) 1024))
              = buffered s ++ firstn (Z.to_nat len) buffer).
    { unfold buffered. cbn [Stream.set_write Stream.m_writeBuffer].
      now destruct (Stream.m_writeBuffer s). }
    split; [exact Hcontents|]. split; [|split; [reflexivity|split]].
    + unfold buffer_wf. rewrite Hcontents.
      cbn [Stream.set_write Stream.m_writeBufferLen Stream.m_writeBufferCapacity
           Stream.m_writeBuffer].
      rewrite length_app, length_firstn, Nat2Z.inj_add.
      rewrite Nat.min_l by lia. rewrite Z2Nat.id by lia.
      repeat split; try lia.
      destruct (Stream.m_writeBuffer s); discriminate.
    + cbn [Stream.set_write Stream.m_writeBufferCapacity]. fold cap. lia.
    + cbn [Stream.set_write Stream.m_writeBufferCapacity]. fold cap. lia.
  - apply Z.ltb_ge in Eg. cbn [andb].
    rewrite (wrap64_small (used + len)) by lia.
    split; [reflexivity|].
    assert (Hcontents :
              buffered (Stream.set_write s (Stream.m_filename s)
                          match Stream.m_writeBuffer s with
                          | Some old => Some (old ++ firstn (Z.to_nat len) buffer)
                          | None => None
                          end (used + len) cap)
              = buffered s ++ firstn (Z.to_nat len) buffer).
    { unfold buffered. cbn [Stream.set_write Stream.m_writeBuffer].
      destruct (Stream.m_writeBuffer s) eqn:Eb; [reflexivity|].
      assert (len = 0) by (specialize (Hnull eq_refl); lia). subst len.
      reflexivity. }
    split; [exact Hcontents|]. split; [|split; [reflexivity|split]].
    + unfold buffer_wf. rewrite Hcontents.
      cbn [Stream.set_write Stream.m_writeBufferLen Stream.m_writeBufferCapacity
           Stream.m_writeBuffer].
      rewrite length_app, length_firstn, Nat2Z.inj_add.
      rewrite Nat.min_l by lia. rewrite Z2Nat.id by lia.
      repeat split; try lia.
      destruct (Stream.m_writeBuffer s); [discriminate|auto].
    + cbn [Stream.set_write Stream.m_writeBufferCapacity]. fold cap. lia.
    + cbn [Stream.set_write Stream.m_writeBufferCapacity]. fold cap. lia.
Qed.

End StreamInvariants.

Section StreamUse.
Context {LZ : LibZip}.

(** What a caller can do with a stream before closing it. *)
Inductive stream_op : Type :=
  | DoReadBytes (len : Z)
  | DoWriteBytes (buffer : list byte) (len : Z)
  | DoEndOfStream.

Definition apply_op (s : Stream.t) (op : stream_op) : Stream.t :=
  match op with
  | DoReadBytes len => snd (Stream.readBytes s len)
  | DoWriteBytes buffer len => snd (Stream.writeBytes s buffer len)
  | DoEndOfStream => snd (Stream.endOfStream s)
  end.

Definition apply_ops (s : Stream.t) (ops : list stream_op) : Stream.t :=
  fold_left apply_op ops s.

Lemma readBytes_filename (s : Stream.t) (len : Z) :
  Stream.m_filename (snd (Stream.readBytes s len)) = Stream.m_filename s.
Proof.
  unfold Stream.readBytes.
  destruct (Stream.m_pReadHandle s) as [h|]; [|reflexivity].
  destruct (Stream.m_extraByteRead s).
  - destruct (zip_fread h (wrap64 (len - 1))) as [r h'].
    now destruct (fread_result r <? 0).
  - destruct (zip_fread h len) as [r h'].
    now destruct (fread_result r <? 0).
Qed.

Lemma writeBytes_filename (s : Stream.t) (buffer : list byte) (len : Z) :
  Stream.m_filename (snd (Stream.writeBytes s buffer len)) = Stream.m_filename s.
Proof.
  unfold Stream.writeBytes.
  now destruct (_ && _).
Qed.

Lemma endOfStream_filename (s : Stream.t) :
  Stream.m_filename (snd (Stream.endOfStream s)) = Stream.m_filename s.
Proof.
  unfold Stream.endOfStream.
  destruct (Stream.m_mode s) as [[|]|]; try reflexivity.
  destruct (Stream.m_pReadHandle s); [|reflexivity].
  destruct (Stream.m_extraByteRead s); [reflexivity|].
  unfold Stream.readULE8.
  pose proof (readBytes_filename s 1) as H.
  destruct (Stream.readBytes s 1) as [[r stored] s']. cbn [snd] in H.
  destruct r as [n|]; [destruct (n =? 1)|]; exact H.
Qed.

Lemma apply_ops_filename (ops : list stream_op) (s : Stream.t) :
  Stream.m_filename (apply_ops s ops) = Stream.m_filename s.
Proof.
  revert s. induction ops as [|op ops IH]; intros s; [reflexivity|].
  unfold apply_ops in *. cbn [fold_left]. rewrite IH.
  destruct op; cbn [apply_op].
  - apply readBytes_filename.
  - apply writeBytes_filename.
  - apply endOfStream_filename.
Qed.

(** A stream without a file name cannot add an entry. *)
Lemma close_nameless (s : Stream.t) (a : zip_t) :
  Stream.m_filename s = "" -> snd (Stream.close s a) = a.
Proof.
  intros Hn. unfold Stream.close.
  destruct (Stream.m_pReadHandle s); [reflexivity|].
  destruct (0 <? Stream.m_writeBufferLen s); [|reflexivity].
  destruct (Stream.m_writeBuffer s) as [buf|]; [|reflexivity].
  destruct (zip_source_buffer a buf (Stream.m_writeBufferLen s)); [|reflexivity].
  now rewrite Hn.
Qed.

(** A stream opened for reading never changes the archive: whatever reads,
    writes and end-of-stream probes are applied to it, even bytes written
    to it by mistake, its [close] leaves the archive as it is. *)
Theorem read_stream_never_changes_archive (zipArchiveIndex : Z)
    (zipArchive : option zip_t) (s : Stream.t) (ops : list stream_op)
    (a : zip_t) :
  Stream.openForReading zipArchiveIndex zipArchive = Some s ->
  snd (Stream.close (apply_ops s ops) a) = a.
Proof.
  intros Hopen. apply close_nameless. rewrite apply_ops_filename.
  unfold Stream.openForReading in Hopen.
  destruct zipArchive; [|discriminate]. now injection Hopen as <-.
Qed.

(** An end-of-stream probe that answered false leaves a stream on which
    further probes answer false without reading: probing twice consumes
    nothing more than probing once. *)
Theorem endOfStream_false_is_stable (s s1 : Stream.t) :
  Stream.endOfStream s = (false, s1) ->
  Stream.endOfStream s1 = (false, s1).
Proof.
  unfold Stream.endOfStream at 1.
  destruct (Stream.m_mode s) as [[|]|] eqn:Em.
  - destruct (Stream.m_pReadHandle s) as [h|] eqn:Eh.
    + destruct (Stream.m_extraByteRead s) as [b|] eqn:Ee.
      * intros [= <-]. unfold Stream.endOfStream. now rewrite Em, Eh, Ee.
      * rewrite (readULE8_plain s h Eh Ee).
        destruct (zip_fread h 1) as [[[|b [|b' bs]]|] h']; try discriminate.
        intros [= <-]. unfold Stream.endOfStream.
        cbn [Stream.set_read Stream.m_mode Stream.m_pReadHandle
             Stream.m_extraByteRead].
        now rewrite Em.
    + intros [= <-]. unfold Stream.endOfStream. now rewrite Em, Eh.
  - intros [= <-]. unfold Stream.endOfStream. now rewrite Em.
  - intros [= <-]. unfold Stream.endOfStream. now rewrite Em.
Qed.

(** The streams a caller can hold: opened by one of the two factories,
    then used through [readBytes], [writeBytes] (with a [size_t] length),
    [endOfStream] and [close], in any order. *)
Inductive reachable : Stream.t -> Prop :=
  | reach_openForReading (zipArchiveIndex : Z) (zipArchive : option zip_t)
      (s : Stream.t) :
      Stream.openForReading zipArchiveIndex zipArchive = Some s -> reachable s
  | reach_openForWriting (filename : string) (zipArchive : option zip_t)
      (fixedLastMod : bool) (s : Stream.t) :
      Stream.openForWriting filename zipArchive fixedLastMod = Some s ->
      reachable s
  | reach_readBytes (s : Stream.t) (len : Z) :
      reachable s -> reachable (snd (Stream.readBytes s len))
  | reach_writeBytes (s : Stream.t) (buffer : list byte) (len : Z) :
      reachable s -> 0 <= len < 2 ^ 64 ->
      reachable (snd (Stream.writeBytes s buffer len))
  | reach_endOfStream (s : Stream.t) :
      reachable s -> reachable (snd (Stream.endOfStream s))
  | reach_close (s : Stream.t) (a : zip_t) :
      reachable s -> reachable (snd (fst (Stream.close s a))).

(** The write fields of a stream: the count, the buffer and the
    capacity. *)
Definition write_fields (s : Stream.t) : Z * option (list byte) * Z :=
  (Stream.m_writeBufferLen s, Stream.m_writeBuffer s,
   Stream.m_writeBufferCapacity s).

(** Bytes are counted only in a buffer: the count is not negative, and
    without a buffer there is no count and no capacity. *)
Definition counted_in_buffer (s : Stream.t) : Prop :=
  0 <= Stream.m_writeBufferLen s
  /\ (Stream.m_writeBuffer s = None ->
      Stream.m_writeBufferLen s = 0 /\ Stream.m_writeBufferCapacity s = 0).

Lemma readBytes_write_fields (s : Stream.t) (len : Z) :
  write_fields (snd (Stream.readBytes s len)) = write_fields s.
Proof.
  unfold Stream.readBytes.
  destruct (Stream.m_pReadHandle s) as [h|]; [|reflexivity].
  destruct (Stream.m_extraByteRead s).
  - destruct (zip_fread h (wrap64 (len - 1))) as [r h'].
    now destruct (fread_result r <? 0).
  - destruct (zip_fread h len) as [r h'].
    now destruct (fread_result r <? 0).
Qed.

Lemma endOfStream_write_fields (s : Stream.t) :
  write_fields (snd (Stream.endOfStream s)) = write_fields s.
Proof.
  unfold Stream.endOfStream.
  destruct (Stream.m_mode s) as [[|]|]; try reflexivity.
  destruct (Stream.m_pReadHandle s); [|reflexivity].
  destruct (Stream.m_extraByteRead s); [reflexivity|].
  unfold Stream.readULE8.
  pose proof (readBytes_write_fields s 1) as H.
  destruct (Stream.readBytes s 1) as [[r stored] s']. cbn [snd] in H.
  destruct r as [n|]; [destruct (n =? 1)|]; exact H.
Qed.

Lemma counted_in_buffer_fields (s s' : Stream.t) :
  write_fields s' = write_fields s -> counted_in_buffer s -> counted_in_buffer s'.
Proof.
  unfold write_fields, counted_in_buffer. intros [= -> -> ->]. auto.
Qed.

Lemma writeBytes_counted (s : Stream.t) (buffer : list byte) (len : Z) :
  0 <= len < 2 ^ 64 -> counted_in_buffer s ->
  counted_in_buffer (snd (Stream.writeBytes s buffer len)).
Proof.
  intros Hlen (Hpos & Hnone). unfold Stream.writeBytes. cbv zeta.
  destruct (_ && _); [split; assumption|].
  unfold counted_in_buffer.
  cbn [snd Stream.set_write Stream.m_writeBufferLen Stream.m_writeBuffer
       Stream.m_writeBufferCapacity].
  split.
  - unfold wrap64. apply Z.mod_pos_bound. reflexivity.
  - destruct (Stream.m_writeBuffer s) as [old|]; [discriminate|].
    destruct (Hnone eq_refl) as [Hl Hc]. rewrite Hl, Hc.
    change (wrap64 (0 - 0)) with 0.
    destruct (0 <? len) eqn:El; [discriminate|].
    apply Z.ltb_ge in El. intros _.
    replace len with 0 by lia. split; reflexivity.
Qed.

Lemma close_counted (s : Stream.t) (a : zip_t) :
  counted_in_buffer s -> counted_in_buffer (snd (fst (Stream.close s a))).
Proof.
  intros Hs. unfold Stream.close.
  destruct (Stream.m_pReadHandle s); [exact Hs|].
  destruct (0 <? Stream.m_writeBufferLen s); [|exact Hs].
  destruct (Stream.m_writeBuffer s) as [buf|]; [|exact Hs].
  assert (Hreset : forall name, counted_in_buffer (Stream.set_write s name None 0 0)).
  { intros name. unfold counted_in_buffer. cbn. split; [lia|auto]. }
  destruct (zip_source_buffer a buf (Stream.m_writeBufferLen s)) as [src|];
    [|apply Hreset].
  destruct (Str.empty (Stream.m_filename s)); [apply Hreset|].
  destruct (zip_file_add a (Stream.m_filename s) src) as [result a1].
  destruct (result <? 0); apply Hreset.
Qed.

(** Every stream a caller can hold counts its bytes in a buffer. *)
Lemma reachable_counted (s : Stream.t) : reachable s -> counted_in_buffer s.
Proof.
  induction 1 as [i za s Hopen|name za flm s Hopen|s len _ IH|s buffer len _ IH Hlen
                  |s _ IH|s a _ IH].
  - unfold Stream.openForReading in Hopen. destruct za; [|discriminate].
    injection Hopen as <-. unfold counted_in_buffer. cbn. split; [lia|auto].
  - unfold Stream.openForWriting in Hopen. destruct za; [|discriminate].
    destruct (Str.empty name); [discriminate|].
    injection Hopen as <-. unfold counted_in_buffer. cbn. split; [lia|auto].
  - exact (counted_in_buffer_fields _ _ (readBytes_write_fields s len) IH).
  - now apply writeBytes_counted.
  - exact (counted_in_buffer_fields _ _ (endOfStream_write_fields s) IH).
  - now apply close_counted.
Qed.

(** Closing again, on every stream a caller can hold.  The second [close]
    never changes the archive, and from the third on [close] returns true
    and changes nothing, with no bytes left in the stream: only the first
    [close] can add an entry.  The second [close] itself
    returns true and changes nothing, except on a stream that had an open
    read handle and bytes written to it: there the first [close] returns
    true and leaves the archive alone, and the second one drops the bytes
    and returns false. *)
Theorem close_again (s : Stream.t) (a : zip_t) :
  reachable s ->
  let '(r1, s1, a1) := Stream.close s a in
  let '(r2, s2, a2) := Stream.close s1 a1 in
  a2 = a1
  /\ Stream.close s2 a2 = (true, s2, a2)
  /\ Stream.m_writeBufferLen s2 = 0
  /\ (Stream.m_pReadHandle s = None \/ Stream.m_writeBufferLen s = 0 ->
      r2 = true /\ s2 = s1)
  /\ (Stream.m_pReadHandle s <> None -> 0 < Stream.m_writeBufferLen s ->
      r1 = true /\ a1 = a /\ r2 = false).
Proof.
  intros Hreach. destruct (reachable_counted s Hreach) as (Hpos & Hnone).
  assert (Hidle : forall s1 a1,
            Stream.m_pReadHandle s1 = None -> Stream.m_writeBufferLen s1 = 0 ->
            let '(r2, s2, a2) := Stream.close s1 a1 in
            a2 = a1
            /\ Stream.close s2 a2 = (true, s2, a2)
            /\ Stream.m_writeBufferLen s2 = 0
            /\ r2 = true /\ s2 = s1).
  { intros s1 a1 Hh Hl. rewrite (close_idle s1 a1 Hh Hl).
    split; [reflexivity|]. split; [now apply close_idle|]. now repeat split. }
  unfold Stream.close at 1.
  destruct (Stream.m_pReadHandle s) as [h|] eqn:Eh.
  - (* a stream with an open read handle *)
    set (s1 := Stream.set_write _ _ _ _ _).
    destruct (Z.eq_dec (Stream.m_writeBufferLen s) 0) as [E0|Epos].
    + pose proof (Hidle s1 a eq_refl E0) as H.
      destruct (Stream.close s1 a) as [[r2 s2] a2].
      destruct H as (Ha & Hc & Hl & Hr & Hs).
      split; [exact Ha|]. split; [exact Hc|]. split; [exact Hl|].
      split; [intros _; now split|]. intros _ Hgt. lia.
    + unfold Stream.close at 1.
      cbn [s1 Stream.set_write Stream.set_read Stream.m_pReadHandle
           Stream.m_writeBufferLen Stream.m_writeBuffer Stream.m_filename].
      replace (0 <? Stream.m_writeBufferLen s) with true
        by (symmetry; apply Z.ltb_lt; lia).
      destruct (Stream.m_writeBuffer s) as [buf|] eqn:Eb;
        [|destruct (Hnone eq_refl); lia].
      destruct (zip_source_buffer a buf (Stream.m_writeBufferLen s)) as [src|];
        cbn [Str.empty];
        (split; [reflexivity|]; split; [now apply close_idle|];
         split; [reflexivity|]; split;
         [intros [Hh|Hl]; [discriminate|contradiction]|auto]).
  - (* a stream without a read handle *)
    assert (Hno : ~ @None zip_file_t <> None) by (intros H; now apply H).
    destruct (0 <? Stream.m_writeBufferLen s) eqn:El.
    + apply Z.ltb_lt in El.
      destruct (Stream.m_writeBuffer s) as [buf|] eqn:Eb;
        [|destruct (Hnone eq_refl); lia].
      assert (Hreset : forall name a1 (r1 : bool),
                let '(r2, s2, a2) :=
                  Stream.close (Stream.set_write s name None 0 0) a1 in
                a2 = a1
                /\ Stream.close s2 a2 = (true, s2, a2)
                /\ Stream.m_writeBufferLen s2 = 0
                /\ (@None zip_file_t = None \/ Stream.m_writeBufferLen s = 0 ->
                    r2 = true /\ s2 = Stream.set_write s name None 0 0)
                /\ (@None zip_file_t <> None ->
                    0 < Stream.m_writeBufferLen s ->
                    r1 = true /\ a1 = a /\ r2 = false)).
      { intros name a1 r1.
        pose proof (Hidle (Stream.set_write s name None 0 0) a1 Eh eq_refl) as H.
        destruct (Stream.close _ a1) as [[r2 s2] a2].
        destruct H as (Ha & Hc & Hl & Hr & Hs).
        split; [exact Ha|]. split; [exact Hc|]. split; [exact Hl|].
        split; [intros _; now split|]. intros Hx. now contradiction Hno. }
      destruct (zip_source_buffer a buf (Stream.m_writeBufferLen s)) as [src|];
        [|apply Hreset].
      destruct (Str.empty (Stream.m_filename s)); [apply Hreset|].
      destruct (zip_file_add a (Stream.m_filename s) src) as [result a1].
      destruct (result <? 0); apply Hreset.
    + apply Z.ltb_ge in El.
      assert (E0 : Stream.m_writeBufferLen s = 0) by lia.
      pose proof (Hidle s a Eh E0) as H.
      destruct (Stream.close s a) as [[r2 s2] a2].
      destruct H as (Ha & Hc & Hl & Hr & Hs).
      split; [exact Ha|]. split; [exact Hc|]. split; [exact Hl|].
      split; [intros _; now split|]. intros Hx. now contradiction Hno.
Qed.

End StreamUse.

(** [writeBytes_appends] on a stream that holds one byte in a buffer of
    1024. *)
Lemma writeBytes_appends_witness :
  buffered (snd (@Stream.writeBytes SimpleZip.libzip
                   (Stream.mk (Some WRITE) None None "f" (Some [x41]) 1 1024 false)
                   [x42; x43] 2))
  = [x41; x42; x43].
Proof.
  pose proof (@writeBytes_appends SimpleZip.libzip
                (Stream.mk (Some WRITE) None None "f" (Some [x41]) 1 1024 false)
                [x42; x43] 2) as H.
  cbv beta in H.
  assert (Hwf : @buffer_wf SimpleZip.libzip
                  (Stream.mk (Some WRITE) None None "f" (Some [x41]) 1 1024 false)).
  { unfold buffer_wf, buffered. cbn. repeat split; try lia. discriminate. }
  specialize (H Hwf ltac:(cbn; lia) ltac:(vm_compute; reflexivity)).
  exact (proj1 (proj2 H)).
Defined.

(** A reader that one byte was written to. *)
Definition writtenReader : @Stream.t SimpleZip.libzip :=
  snd (Stream.writeBytes (SimpleZip.reader [x41; x42] false None) [x42] 1).

Lemma writtenReader_reachable : @reachable SimpleZip.libzip writtenReader.
Proof.
  unfold writtenReader. apply reach_writeBytes; [|lia].
  apply (@reach_openForReading SimpleZip.libzip 0
           (Some (SimpleZip.mk_archive
                    [SimpleZip.plain "f" ZIP_OPSYS_UNIX ZIP_CM_STORE [x41; x42]]
                    false))).
  reflexivity.
Qed.

(** [close_again] on a reader that was written to: the first close
    returns true, the second drops the byte and returns false, the archive
    is as it was, and a third close returns true. *)
Lemma close_again_witness :
  let first := Stream.close writtenReader storedArchive in
  let second := Stream.close (snd (fst first)) (snd first) in
  fst (fst first) = true
  /\ fst (fst second) = false
  /\ snd second = storedArchive
  /\ Stream.close (snd (fst second)) (snd second)
     = (true, snd (fst second), snd second).
Proof.
  pose proof (@close_again SimpleZip.libzip writtenReader storedArchive
                writtenReader_reachable) as H.
  cbv zeta.
  destruct (Stream.close writtenReader storedArchive) as [[r1 s1] a1] eqn:E1.
  cbn [fst snd].
  destruct (Stream.close s1 a1) as [[r2 s2] a2] eqn:E2.
  cbn [fst snd].
  destruct H as (Ha & Hc & _ & _ & Hr).
  destruct (Hr ltac:(discriminate) ltac:(vm_compute; reflexivity))
    as (Hr1 & Ha1 & Hr2).
  subst. repeat split; try reflexivity. exact Hc.
Defined.

(** [read_stream_never_changes_archive] on a reader that was written to. *)
Lemma read_stream_never_changes_archive_witness :
  snd (@Stream.close SimpleZip.libzip
         (apply_ops (SimpleZip.reader [x41; x42] false None)
            [DoEndOfStream; DoWriteBytes [x42] 1; DoReadBytes 1])
         storedArchive)
  = storedArchive.
Proof.
  exact (@read_stream_never_changes_archive SimpleZip.libzip 0
           (Some storedArchive) (SimpleZip.reader [x41; x42] false None)
           [DoEndOfStream; DoWriteBytes [x42] 1; DoReadBytes 1]
           storedArchive eq_refl).
Defined.

(** [endOfStream_false_is_stable] on a one-byte stream. *)
Lemma endOfStream_false_is_stable_witness :
  @Stream.endOfStream SimpleZip.libzip (SimpleZip.reader [] false (Some x41))
  = (false, SimpleZip.reader [] false (Some x41)).
Proof.
  exact (@endOfStream_false_is_stable SimpleZip.libzip
           (SimpleZip.reader [x41] false None)
           (SimpleZip.reader [] false (Some x41)) eq_refl).
Defined.

(** * Further properties of the provider *)

Section ProviderChecks.
Context {LZ : LibZip}.

(** The sanity check passes exactly when the stated size, if there is one,
    is within the limit, and the stated method, if there is one, is store
    or deflate; it reports the size exactly when a stated size is above
    the limit, whatever the method. *)
Theorem sanityCheck_outcomes (st : zip_stat) (fileSizeLimit : Z) :
  (wzMapZipIOSanityCheckStat st fileSizeLimit = ZipSanityCheckResult.PASSED
   <-> (Z.land (st_valid st) ZIP_STAT_SIZE = 0 \/ st_size st <= fileSizeLimit)
       /\ (Z.land (st_valid st) ZIP_STAT_COMP_METHOD = 0
           \/ st_comp_method st = ZIP_CM_STORE
           \/ st_comp_method st = ZIP_CM_DEFLATE))
  /\ (wzMapZipIOSanityCheckStat st fileSizeLimit
      = ZipSanityCheckResult.FAILURE_EXCEEDS_MAXFILESIZE
      <-> Z.land (st_valid st) ZIP_STAT_SIZE <> 0 /\ fileSizeLimit < st_size st).
Proof.
  unfold wzMapZipIOSanityCheckStat.
  destruct (Z.eqb_spec (Z.land (st_valid st) ZIP_STAT_SIZE) 0) as [Ev|Ev];
  destruct (Z.ltb_spec fileSizeLimit (st_size st)) as [Es|Es];
  destruct (Z.eqb_spec (Z.land (st_valid st) ZIP_STAT_COMP_METHOD) 0) as [Ec|Ec];
  destruct (Z.eqb_spec (st_comp_method st) ZIP_CM_STORE) as [E0|E0];
  destruct (Z.eqb_spec (st_comp_method st) ZIP_CM_DEFLATE) as [E8|E8];
  cbn [negb andb]; unfold ZIP_CM_STORE, ZIP_CM_DEFLATE in *;
  (split; split; intros H; try discriminate;
   intuition (try discriminate; try lia)).
Qed.

(** [openBinaryStream] for reading returns a stream exactly when the name
    is located, its stat is available and passes the sanity check under
    the default cap; the stream then carries whatever [zip_fopen_index]
    returned, a null handle included. *)
Theorem openBinaryStream_read_outcomes (p : ZipIO.t) (filename : string)
    (s : Stream.t) :
  let found := fst (ZipIO.wz_zip_name_locate p filename) in
  fst (ZipIO.openBinaryStream p filename READ) = Some s
  <-> 0 <= found
      /\ (exists st,
            zip_stat_index (ZipIO.m_zipArchive p) found = Some st
            /\ wzMapZipIOSanityCheckStat st WzMapZipDefaultEmbeddedFileMaxFileSize
               = ZipSanityCheckResult.PASSED)
      /\ s = Stream.mk (Some READ)
               (zip_fopen_index (ZipIO.m_zipArchive p) found)
               None "" None 0 0 false.
Proof.
  cbv zeta. unfold ZipIO.openBinaryStream.
  pose proof (wz_zip_name_locate_archive p filename) as Ha.
  destruct (ZipIO.wz_zip_name_locate p filename) as [found p1].
  cbn [fst snd] in *. rewrite Ha.
  destruct (found <? 0) eqn:Ef; [apply Z.ltb_lt in Ef|apply Z.ltb_ge in Ef].
  - cbn [fst]. split; [discriminate|]. intros (H & _). lia.
  - destruct (zip_stat_index (ZipIO.m_zipArchive p) found) as [st|].
    + destruct (wzMapZipIOSanityCheckStat st
                  WzMapZipDefaultEmbeddedFileMaxFileSize) eqn:Es; cbn [fst].
      * unfold Stream.openForReading, Stream.set_read, Stream.construct.
        cbn [Stream.m_mode Stream.m_filename Stream.m_writeBuffer
             Stream.m_writeBufferLen Stream.m_writeBufferCapacity
             Stream.m_fixedLastMod].
        split.
        -- intros [= <-]. split; [exact Ef|]. split; [now exists st|reflexivity].
        -- intros (_ & _ & ->). reflexivity.
      * split; [discriminate|]. intros (_ & (st' & [= <-] & Hs) & _). congruence.
      * split; [discriminate|]. intros (_ & (st' & [= <-] & Hs) & _). congruence.
    + cbn [fst]. split; [discriminate|]. intros (_ & (st' & Hst & _) & _).
      discriminate.
Qed.

(** What [writeFullFile] returns does not depend on libzip taking the
    entry: it is true exactly when the file name is not empty and, for a
    write of at least one byte, [realloc] gave the buffer.  When it is
    false the provider is as it was; when it is true the directory cache
    is empty. *)
Theorem writeFullFile_result (p : ZipIO.t) (filename : string)
    (ppFileData : list byte) (fileSize : Z) :
  0 <= fileSize < 2 ^ 64 ->
  let res := ZipIO.writeFullFile p filename ppFileData fileSize in
  fst res = negb (Str.empty filename)
            && ((fileSize =? 0) || realloc_ok (Z.max fileSize 1024))
  /\ (fst res = false -> snd res = p)
  /\ (fst res = true -> ZipIO.m_cachedDirectoriesList (snd res) = []).
Proof.
  intros Hsize. cbv zeta. split; [|split].
  - unfold ZipIO.writeFullFile, Stream.openForWriting.
    destruct filename as [|c name]; [reflexivity|]. cbn [Str.empty negb andb].
    unfold Stream.writeBytes.
    cbn [Stream.m_writeBufferCapacity Stream.m_writeBufferLen].
    change (0 - 0) with 0. change (0 / 2) with 0.
    rewrite (wrap64_small 0) by lia. rewrite Z.add_0_l.
    rewrite (Z.max_r 0 fileSize) by lia.
    rewrite (wrap64_small fileSize) by lia.
    destruct (0 <? fileSize) eqn:E; [apply Z.ltb_lt in E|apply Z.ltb_ge in E].
    + replace (fileSize =? 0) with false by (symmetry; apply Z.eqb_neq; lia).
      cbn [andb orb].
      destruct (realloc_ok (Z.max fileSize 1024)); cbn [negb]; [|reflexivity].
      rewrite Z.eqb_refl. cbn [negb].
      now destruct (Stream.close _ _) as [[ok ws'] a].
    + replace (fileSize =? 0) with true by (symmetry; apply Z.eqb_eq; lia).
      cbn [andb orb]. rewrite Z.eqb_refl. cbn [negb].
      now destruct (Stream.close _ _) as [[ok ws'] a].
  - unfold ZipIO.writeFullFile, Stream.openForWriting.
    destruct filename as [|c name]; [reflexivity|]. cbn [Str.empty].
    unfold Stream.writeBytes.
    cbn [Stream.m_writeBufferCapacity Stream.m_writeBufferLen].
    destruct (_ && negb _).
    + intros _. cbn [snd]. unfold ZipIO.destroy_stream.
      rewrite close_idle by reflexivity. now destruct p.
    + rewrite Z.eqb_refl. cbn [negb].
      destruct (Stream.close _ _) as [[ok ws'] a]. discriminate.
  - apply writeFullFile_clears_cache.
Qed.

End ProviderChecks.

(** [writeFullFile_result] on a read-only archive: the write returns true
    although the archive has no entry afterwards. *)
Lemma writeFullFile_result_witness :
  let res := ZipIO.writeFullFile
               (SimpleZip.provider (SimpleZip.mk_archive [] true)) "f" [x41] 1 in
  fst res = true
  /\ SimpleZip.entries (ZipIO.m_zipArchive (snd res)) = [].
Proof.
  cbv zeta. split; [|reflexivity].
  exact (proj1 (@writeFullFile_result SimpleZip.libzip
                  (SimpleZip.provider (SimpleZip.mk_archive [] true)) "f" [x41] 1
                  ltac:(lia))).
Defined.

Section LoadProperties.
Context {LZ : LibZip}.

(** libzip's contract for [zip_fread]: at most the bytes asked for. *)
Definition fread_bounded : Prop :=
  forall (h : zip_file_t) (n : Z) (bs : list byte),
    0 <= n -> fst (zip_fread h n) = Some bs -> Z.of_nat (List.length bs) <= n.

(** What [loadFullFile] does once the entry has passed the checks. *)
Definition loadChecked (a : zip_t) (found : Z) (st : zip_stat)
    (appendNullCharacter : bool) : LoadFullFileResult.t * list byte :=
  let resized :=
    ZipIO.zeroes (wrap64 (st_size st + if appendNullCharacter then 1 else 0)) in
  match zip_fopen_index a found with
  | None => (LoadFullFileResult.FAILURE_READ, resized)
  | Some h =>
      match fst (zip_fread h (Z.of_nat (List.length resized))) with
      | None => (LoadFullFileResult.FAILURE_READ, resized)
      | Some bs =>
          if Z.of_nat (List.length bs) =? st_size st
          then (LoadFullFileResult.SUCCESS,
                if appendNullCharacter
                then removelast (ZipIO.overlay bs resized) ++ [x00]
                else ZipIO.overlay bs resized)
          else (LoadFullFileResult.FAILURE_READ, [])
      end
  end.

(** [loadFullFile] with the stream taken out. *)
Lemma loadFullFile_closed (p : ZipIO.t) (filename : string)
    (fileData : list byte) (maxFileSize : Z) (appendNull : bool) :
  fst (ZipIO.loadFullFile p filename fileData maxFileSize appendNull) =
    let a := ZipIO.m_zipArchive p in
    let found := fst (ZipIO.wz_zip_name_locate p filename) in
    if found <? 0 then (LoadFullFileResult.FAILURE_OPEN, fileData)
    else
      match zip_stat_index a found with
      | None => (LoadFullFileResult.FAILURE_OPEN, fileData)
      | Some st =>
          if Z.land (st_valid st) ZIP_STAT_SIZE =? 0
          then (LoadFullFileResult.FAILURE_OPEN, fileData)
          else
            match wzMapZipIOSanityCheckStat st (effectiveCap maxFileSize) with
            | ZipSanityCheckResult.PASSED => loadChecked a found st appendNull
            | ZipSanityCheckResult.FAILURE_EXCEEDS_MAXFILESIZE =>
                (LoadFullFileResult.FAILURE_EXCEEDS_MAXFILESIZE, fileData)
            | ZipSanityCheckResult.FAILURE_UNSUPPORTED_COMP_METHOD =>
                (LoadFullFileResult.FAILURE_OPEN, fileData)
            end
      end.
Proof.
  cbv zeta. unfold ZipIO.loadFullFile.
  pose proof (wz_zip_name_locate_archive p filename) as Ha.
  destruct (ZipIO.wz_zip_name_locate p filename) as [found p1].
  cbn [fst snd] in *. rewrite Ha.
  destruct (found <? 0); [reflexivity|].
  destruct (zip_stat_index (ZipIO.m_zipArchive p) found) as [st|]; [|reflexivity].
  destruct (Z.land (st_valid st) ZIP_STAT_SIZE =? 0); [reflexivity|].
  replace (if negb (maxFileSize =? 0) then maxFileSize
           else WzMapZipDefaultEmbeddedFileMaxFileSize)
    with (effectiveCap maxFileSize)
    by (unfold effectiveCap; now destruct (maxFileSize =? 0)).
  destruct (wzMapZipIOSanityCheckStat st (effectiveCap maxFileSize));
    try reflexivity.
  unfold loadChecked, Stream.openForReading.
  set (resized := ZipIO.zeroes _).
  destruct (zip_fopen_index (ZipIO.m_zipArchive p) found) as [h|] eqn:Eo.
  - rewrite (readBytes_plain
               (Stream.set_read (Stream.construct READ) (Some h) None) h _
               eq_refl eq_refl).
    destruct (zip_fread h (Z.of_nat (List.length resized))) as [[bs|] h'];
      cbn [fst].
    + rewrite Z.add_0_r.
      destruct (Z.of_nat (List.length bs) =? st_size st); cbn [negb fst].
      * now destruct (Stream.close _ _) as [[ok rs'] a'].
      * reflexivity.
    + reflexivity.
  - reflexivity.
Qed.

Lemma wrap64_no_wrap (size extra : Z) :
  0 <= size -> 0 <= extra <= 1 -> size <= wrap64 (size + extra) ->
  wrap64 (size + extra) = size + extra.
Proof.
  intros Hs He Hle. unfold wrap64, SIZE_MAX_plus_1 in *.
  destruct (Z_lt_ge_dec (size + extra) (2 ^ 64)) as [Hlt|Hge].
  - apply Z.mod_small. lia.
  - exfalso.
    pose proof (Z.mod_pos_bound (size + extra) (2 ^ 64) ltac:(lia)) as Hb.
    assert (Heq : size + extra = 2 ^ 64) by lia.
    rewrite Heq, Z.mod_same in Hle by lia. lia.
Qed.

(** A [loadFullFile] that returns SUCCESS delivers exactly what libzip
    read: the entry was located and stat'ed, its stated size is within the
    cap, [zip_fread] returned exactly that many bytes, and [fileData]
    holds them, followed by one NUL when one was asked for and by nothing
    else. *)
Theorem loadFullFile_success (p : ZipIO.t) (filename : string)
    (fileData : list byte) (maxFileSize : Z) (appendNull : bool) :
  fread_bounded ->
  fst (fst (ZipIO.loadFullFile p filename fileData maxFileSize appendNull))
  = LoadFullFileResult.SUCCESS ->
  let a := ZipIO.m_zipArchive p in
  let found := fst (ZipIO.wz_zip_name_locate p filename) in
  exists st h bs,
    0 <= found
    /\ zip_stat_index a found = Some st
    /\ st_size st <= effectiveCap maxFileSize
    /\ zip_fopen_index a found = Some h
    /\ fst (zip_fread h (st_size st + if appendNull then 1 else 0)) = Some bs
    /\ Z.of_nat (List.length bs) = st_size st
    /\ snd (fst (ZipIO.loadFullFile p filename fileData maxFileSize appendNull))
       = bs ++ if appendNull then [x00] else [].
Proof.
  intros Hbounded. cbv zeta.
  destruct (ZipIO.loadFullFile p filename fileData maxFileSize appendNull)
    as [[res out] p'] eqn:El.
  pose proof (loadFullFile_closed p filename fileData maxFileSize appendNull) as Hc.
  rewrite El in Hc. cbv zeta in Hc. cbn [fst snd] in *.
  intros ->.
  destruct (fst (ZipIO.wz_zip_name_locate p filename) <? 0) eqn:Ef;
    [discriminate|]. apply Z.ltb_ge in Ef.
  destruct (zip_stat_index (ZipIO.m_zipArchive p)
              (fst (ZipIO.wz_zip_name_locate p filename))) as [st|] eqn:Est;
    [|discriminate].
  destruct (Z.land (st_valid st) ZIP_STAT_SIZE =? 0) eqn:Ev; [discriminate|].
  apply Z.eqb_neq in Ev.
  destruct (wzMapZipIOSanityCheckStat st (effectiveCap maxFileSize)) eqn:Es;
    try discriminate.
  assert (Hcap : st_size st <= effectiveCap maxFileSize).
  { unfold wzMapZipIOSanityCheckStat in Es.
    destruct (Z.eqb_spec (Z.land (st_valid st) ZIP_STAT_SIZE) 0); [contradiction|].
    destruct (Z.ltb_spec (effectiveCap maxFileSize) (st_size st));
      [discriminate|assumption]. }
  unfold loadChecked in Hc.
  set (extra := if appendNull then 1 else 0) in *.
  assert (Hex : 0 <= extra <= 1) by (subst extra; destruct appendNull; lia).
  set (n := wrap64 (st_size st + extra)) in *.
  assert (Hn : 0 <= n).
  { subst n. unfold wrap64, SIZE_MAX_plus_1. apply Z.mod_pos_bound. lia. }
  assert (Hlenz : Z.of_nat (List.length (ZipIO.zeroes n)) = n).
  { unfold ZipIO.zeroes. rewrite repeat_length. lia. }
  rewrite Hlenz in Hc.
  destruct (zip_fopen_index (ZipIO.m_zipArchive p)
              (fst (ZipIO.wz_zip_name_locate p filename))) as [h|] eqn:Eo;
    [|discriminate].
  destruct (fst (zip_fread h n)) as [bs|] eqn:Er; [|discriminate].
  destruct (Z.eqb_spec (Z.of_nat (List.length bs)) (st_size st)) as [Hsz|Hsz];
    [|discriminate].
  pose proof (Hbounded h n bs Hn Er) as Hle.
  assert (Hnw : n = st_size st + extra).
  { subst n. apply wrap64_no_wrap; lia. }
  exists st, h, bs. rewrite <- Hnw.
  repeat split; try assumption.
  injection Hc as Hout. rewrite Hout, Hnw, <- Hsz.
  rewrite (overlay_zeroes bs extra) by lia.
  subst extra. destruct appendNull.
  - change (Z.to_nat 1) with 1%nat. cbn [repeat]. now rewrite removelast_last.
  - cbn [Z.to_nat repeat]. reflexivity.
Qed.

(** Once an entry has passed the checks, every failure is FAILURE_READ:
    an entry libzip cannot open and a failing [zip_fread] leave [fileData]
    sized for the entry and filled with zeroes, and a read that returns
    another number of bytes than the stated size leaves it empty. *)
Theorem loadFullFile_read_failures (p : ZipIO.t) (filename : string)
    (fileData : list byte) (maxFileSize : Z) (appendNull : bool)
    (st : zip_stat) :
  let a := ZipIO.m_zipArchive p in
  let found := fst (ZipIO.wz_zip_name_locate p filename) in
  let n := st_size st + if appendNull then 1 else 0 in
  let res := fst (ZipIO.loadFullFile p filename fileData maxFileSize appendNull) in
  0 <= found ->
  zip_stat_index a found = Some st ->
  Z.land (st_valid st) ZIP_STAT_SIZE <> 0 ->
  wzMapZipIOSanityCheckStat st (effectiveCap maxFileSize)
  = ZipSanityCheckResult.PASSED ->
  0 <= st_size st -> n < 2 ^ 64 ->
  (zip_fopen_index a found = None ->
   res = (LoadFullFileResult.FAILURE_READ, repeat x00 (Z.to_nat n)))
  /\ (forall h, zip_fopen_index a found = Some h ->
        fst (zip_fread h n) = None ->
        res = (LoadFullFileResult.FAILURE_READ, repeat x00 (Z.to_nat n)))
  /\ (forall h bs, zip_fopen_index a found = Some h ->
        fst (zip_fread h n) = Some bs ->
        Z.of_nat (List.length bs) <> st_size st ->
        res = (LoadFullFileResult.FAILURE_READ, [])).
Proof.
  cbv zeta. intros Hf Hst Hv Hs Hsize Hn.
  rewrite loadFullFile_closed. cbv zeta.
  apply Z.ltb_ge in Hf. rewrite Hf, Hst.
  apply Z.eqb_neq in Hv. rewrite Hv, Hs.
  unfold loadChecked.
  assert (Hex : 0 <= (if appendNull then 1 else 0) <= 1)
    by (destruct appendNull; lia).
  rewrite wrap64_small by lia.
  replace (Z.of_nat (List.length
             (ZipIO.zeroes (st_size st + (if appendNull then 1 else 0)))))
    with (st_size st + (if appendNull then 1 else 0))
    by (unfold ZipIO.zeroes; rewrite repeat_length; lia).
  split; [|split].
  - intros ->. reflexivity.
  - intros h -> ->. reflexivity.
  - intros h bs -> -> Hne.
    apply Z.eqb_neq in Hne. now rewrite Hne.
Qed.

End LoadProperties.

Lemma simple_fread_bounded : @fread_bounded SimpleZip.libzip.
Proof.
  unfold fread_bounded. cbn [zip_fread SimpleZip.libzip].
  intros [rest corrupt] n bs Hn. unfold SimpleZip.fread.
  destruct (Z.leb_spec n (Z.of_nat (List.length rest))) as [Hle|Hgt].
  - cbn [fst]. intros [= <-]. rewrite length_firstn. lia.
  - destruct corrupt; cbn [fst]; [discriminate|]. intros [= <-]. lia.
Qed.

(** An entry whose header states two bytes but that holds one. *)
Definition truncatedArchive : SimpleZip.archive :=
  SimpleZip.mk_archive
    [SimpleZip.mk_entry "f" ZIP_OPSYS_UNIX (mk_zip_stat 68 2 ZIP_CM_STORE)
       [x41] false]
    false.

(** [loadFullFile_success] on the stored entry of two bytes. *)
Lemma loadFullFile_success_witness :
  exists st h bs,
    0 <= fst (ZipIO.wz_zip_name_locate (SimpleZip.provider storedArchive) "f")
    /\ zip_stat_index (LibZip := SimpleZip.libzip) storedArchive
         (fst (ZipIO.wz_zip_name_locate (SimpleZip.provider storedArchive) "f"))
       = Some st
    /\ st_size st <= effectiveCap 0
    /\ zip_fopen_index (LibZip := SimpleZip.libzip) storedArchive
         (fst (ZipIO.wz_zip_name_locate (SimpleZip.provider storedArchive) "f"))
       = Some h
    /\ fst (zip_fread (LibZip := SimpleZip.libzip) h (st_size st + 1)) = Some bs
    /\ Z.of_nat (List.length bs) = st_size st
    /\ snd (fst (ZipIO.loadFullFile (SimpleZip.provider storedArchive) "f" [] 0 true))
       = bs ++ [x00].
Proof.
  exact (@loadFullFile_success SimpleZip.libzip (SimpleZip.provider storedArchive)
           "f" [] 0 true simple_fread_bounded eq_refl).
Defined.

(** [loadFullFile_read_failures] on the truncated entry: the short read
    empties [fileData]. *)
Lemma loadFullFile_read_failures_witness :
  fst (ZipIO.loadFullFile (SimpleZip.provider truncatedArchive) "f" [x43] 0 false)
  = (LoadFullFileResult.FAILURE_READ, []).
Proof.
  refine (proj2 (proj2
    (@loadFullFile_read_failures SimpleZip.libzip
       (SimpleZip.provider truncatedArchive) "f" [x43] 0 false
       (mk_zip_stat 68 2 ZIP_CM_STORE) _ eq_refl _ eq_refl _ _))
    ([x41], false) [x41] eq_refl eq_refl _);
    vm_compute; try discriminate; reflexivity.
Defined.

Section FrameProperties.
Context {LZ : LibZip}.

(** Nothing of the provider changed but, possibly, the memo of the
    separator workaround; and nothing at all when the archive was
    classified before. *)
Definition only_memo_changed (p p' : ZipIO.t) : Prop :=
  ZipIO.m_zipArchive p' = ZipIO.m_zipArchive p
  /\ ZipIO.m_fixedLastMod p' = ZipIO.m_fixedLastMod p
  /\ ZipIO.m_cachedDirectoriesList p' = ZipIO.m_cachedDirectoriesList p
  /\ (ZipIO.m_foundMalformedWindowsPathSeparators p <> None -> p' = p).

Lemma only_memo_changed_refl (p : ZipIO.t) : only_memo_changed p p.
Proof. unfold only_memo_changed. auto. Qed.

Lemma only_memo_changed_trans (p q r : ZipIO.t) :
  only_memo_changed p q -> only_memo_changed q r -> only_memo_changed p r.
Proof.
  intros (A1 & F1 & C1 & M1) (A2 & F2 & C2 & M2). unfold only_memo_changed.
  repeat split; try congruence.
  intros Hm. specialize (M1 Hm). subst q. now apply M2.
Qed.

Lemma workaround_only_memo (p : ZipIO.t) :
  only_memo_changed p
    (snd (ZipIO.malformed_windows_path_separators_workaround p)).
Proof.
  pose proof (workaround_stable p) as H.
  unfold only_memo_changed.
  unfold ZipIO.malformed_windows_path_separators_workaround in *.
  destruct (ZipIO.m_foundMalformedWindowsPathSeparators p) as [v|] eqn:Ev.
  - cbn [snd]. auto.
  - destruct (ZipIO.determineIfMalformedWindowsPathSeparatorWorkaround p)
      as [w p1].
    destruct H as (A & F & C & _). cbn [snd]. repeat split; try assumption.
    intros Hm. now contradiction Hm.
Qed.

Lemma wz_zip_name_locate_only_memo (p : ZipIO.t) (fname : string) :
  only_memo_changed p (snd (ZipIO.wz_zip_name_locate p fname)).
Proof. rewrite wz_zip_name_locate_eq. cbn [snd]. apply workaround_only_memo. Qed.

Lemma close_keeps_nameless (s : Stream.t) (a : zip_t) :
  Stream.m_filename s = "" ->
  Stream.m_filename (snd (fst (Stream.close s a))) = "".
Proof.
  intros Hn. unfold Stream.close.
  destruct (Stream.m_pReadHandle s); [reflexivity|].
  destruct (0 <? Stream.m_writeBufferLen s); [|exact Hn].
  destruct (Stream.m_writeBuffer s) as [buf|]; [|exact Hn].
  destruct (zip_source_buffer a buf (Stream.m_writeBufferLen s)); [|reflexivity].
  rewrite Hn. reflexivity.
Qed.

Lemma destroy_nameless (s : Stream.t) (p : ZipIO.t) :
  Stream.m_filename s = "" -> ZipIO.destroy_stream s p = p.
Proof.
  intros Hn. unfold ZipIO.destroy_stream.
  pose proof (close_nameless s (ZipIO.m_zipArchive p) Hn) as H.
  destruct (Stream.close s (ZipIO.m_zipArchive p)) as [[ok s'] a].
  cbn [snd] in H. subst a. now destruct p.
Qed.

Lemma loadFullFile_only_memo (p : ZipIO.t) (filename : string)
    (fileData : list byte) (maxFileSize : Z) (appendNull : bool) :
  only_memo_changed p
    (snd (ZipIO.loadFullFile p filename fileData maxFileSize appendNull)).
Proof.
  unfold ZipIO.loadFullFile.
  pose proof (wz_zip_name_locate_only_memo p filename) as Hp1.
  destruct (ZipIO.wz_zip_name_locate p filename) as [found p1]. cbn [snd] in Hp1.
  destruct (found <? 0); [exact Hp1|].
  destruct (zip_stat_index (ZipIO.m_zipArchive p1) found) as [st|]; [|exact Hp1].
  destruct (Z.land (st_valid st) ZIP_STAT_SIZE =? 0); [exact Hp1|].
  destruct (wzMapZipIOSanityCheckStat st _); try exact Hp1.
  unfold Stream.openForReading.
  set (rs0 := Stream.set_read (Stream.construct READ) _ None).
  set (n := Z.of_nat _).
  pose proof (readBytes_filename rs0 n) as Hname.
  destruct (Stream.readBytes rs0 n) as [[result stored] rs]. cbn [snd] in Hname.
  change (Stream.m_filename rs0) with "" in Hname.
  destruct result as [k|].
  - destruct (negb (k =? st_size st)); cbn [snd].
    + now rewrite destroy_nameless.
    + pose proof (close_nameless rs (ZipIO.m_zipArchive p1) Hname) as Ha.
      pose proof (close_keeps_nameless rs (ZipIO.m_zipArchive p1) Hname) as Hn'.
      destruct (Stream.close rs (ZipIO.m_zipArchive p1)) as [[ok rs'] a].
      cbn [fst snd] in *. subst a. rewrite destroy_nameless by exact Hn'.
      replace (ZipIO.set_archive p1 (ZipIO.m_zipArchive p1)) with p1
        by now destruct p1.
      exact Hp1.
  - cbn [snd]. now rewrite destroy_nameless.
Qed.

Lemma enumerateFiles_loop_only_memo {St : Type} (recurse : bool) (base : string)
    (emptyBasePath : bool) (f : ZipIO.EnumFunc St) (idxs : list Z)
    (p : ZipIO.t) (st : St) :
  only_memo_changed p
    (fst (ZipIO.enumerateFiles_loop recurse base emptyBasePath f idxs p st)).
Proof.
  revert p st. induction idxs as [|idx rest IH]; intros p st;
    cbn [ZipIO.enumerateFiles_loop].
  - apply only_memo_changed_refl.
  - destruct (zip_get_name (ZipIO.m_zipArchive p) idx) as [name|]; [|apply IH].
    destruct (Str.empty name); [apply IH|].
    pose proof (workaround_only_memo p) as Hw.
    destruct (ZipIO.malformed_windows_path_separators_workaround p) as [w p1].
    cbn [snd] in Hw.
    destruct (ZipIO.fileToReport recurse base emptyBasePath _) as [file|].
    + destruct (f st file) as [goOn st1]. destruct goOn.
      * eapply only_memo_changed_trans; [exact Hw|apply IH].
      * exact Hw.
    + eapply only_memo_changed_trans; [exact Hw|apply IH].
Qed.

Lemma fileExists_only_memo (p : ZipIO.t) (name : string) :
  only_memo_changed p (snd (ZipIO.fileExists p name)).
Proof.
  unfold ZipIO.fileExists.
  pose proof (wz_zip_name_locate_only_memo p name) as H.
  destruct (ZipIO.wz_zip_name_locate p name) as [found p1].
  now destruct (found <? 0).
Qed.

Lemma openBinaryStream_only_memo (p : ZipIO.t) (name : string) (mode : OpenMode) :
  only_memo_changed p (snd (ZipIO.openBinaryStream p name mode)).
Proof.
  destruct mode; unfold ZipIO.openBinaryStream.
  - pose proof (wz_zip_name_locate_only_memo p name) as H.
    destruct (ZipIO.wz_zip_name_locate p name) as [found p1]. cbn [snd] in H.
    destruct (found <? 0); [exact H|].
    destruct (zip_stat_index (ZipIO.m_zipArchive p1) found) as [st|]; [|exact H].
    now destruct (wzMapZipIOSanityCheckStat st _).
  - apply only_memo_changed_refl.
Qed.

Lemma enumerateFilesInternal_only_memo {St : Type} (p : ZipIO.t)
    (basePath : string) (recurse : bool) (enumFunc : option (ZipIO.EnumFunc St))
    (st : St) :
  only_memo_changed p
    (snd (fst (ZipIO.enumerateFilesInternal p basePath recurse enumFunc st))).
Proof.
  destruct enumFunc as [f|]; unfold ZipIO.enumerateFilesInternal;
    [|apply only_memo_changed_refl].
  destruct (zip_get_num_entries (ZipIO.m_zipArchive p) <? 0);
    [apply only_memo_changed_refl|].
  destruct (basePathToSearch basePath) as [base emptyBasePath].
  pose proof (enumerateFiles_loop_only_memo recurse base emptyBasePath f
                (indices (zip_get_num_entries (ZipIO.m_zipArchive p))) p st) as H.
  now destruct (ZipIO.enumerateFiles_loop _ _ _ _ _ _ _).
Qed.

(** The loop that fills the cache keeps the archive, the timestamp policy
    and a classification that was made. *)
Lemma buildDirectories_loop_frame (idxs : list Z) (p : ZipIO.t)
    (set : list string) :
  let p' := fst (ZipIO.buildDirectories_loop idxs p set) in
  ZipIO.m_zipArchive p' = ZipIO.m_zipArchive p
  /\ ZipIO.m_fixedLastMod p' = ZipIO.m_fixedLastMod p
  /\ (forall v, ZipIO.m_foundMalformedWindowsPathSeparators p = Some v ->
                ZipIO.m_foundMalformedWindowsPathSeparators p' = Some v).
Proof.
  revert p set. induction idxs as [|idx rest IH]; intros p set;
    cbn [ZipIO.buildDirectories_loop].
  - cbn [fst]. auto.
  - destruct (zip_get_name (ZipIO.m_zipArchive p) idx) as [name|]; [|apply IH].
    destruct (Str.empty name); [apply IH|].
    pose proof (workaround_only_memo p) as (A & F & C & M).
    destruct (ZipIO.malformed_windows_path_separators_workaround p) as [w p1].
    cbn [snd] in *.
    assert (Hkeep : forall v,
              ZipIO.m_foundMalformedWindowsPathSeparators p = Some v ->
              ZipIO.m_foundMalformedWindowsPathSeparators p1 = Some v).
    { intros v Hv. rewrite (M ltac:(congruence)). exact Hv. }
    destruct (isUnsafeZipEntryName _).
    + destruct (IH p1 set) as (A' & F' & M'). cbv zeta.
      repeat split; try congruence. intros v Hv. apply M'. now apply Hkeep.
    + destruct (ZipIO.ancestors_loop _ _ set _) as [set1 cached1].
      destruct (IH (ZipIO.set_cache p1 cached1) set1) as (A' & F' & M').
      cbv zeta. cbn [ZipIO.set_cache ZipIO.m_zipArchive ZipIO.m_fixedLastMod
                     ZipIO.m_foundMalformedWindowsPathSeparators] in *.
      repeat split; try congruence. intros v Hv. apply M'. now apply Hkeep.
Qed.

Lemma enumerateFoldersInternal_frame {St : Type} (p : ZipIO.t)
    (basePath : string) (recurse : bool) (enumFunc : option (ZipIO.EnumFunc St))
    (st : St) :
  let p' := snd (fst (ZipIO.enumerateFoldersInternal p basePath recurse
                        enumFunc st)) in
  ZipIO.m_zipArchive p' = ZipIO.m_zipArchive p
  /\ ZipIO.m_fixedLastMod p' = ZipIO.m_fixedLastMod p
  /\ (forall v, ZipIO.m_foundMalformedWindowsPathSeparators p = Some v ->
                ZipIO.m_foundMalformedWindowsPathSeparators p' = Some v).
Proof.
  cbv zeta. destruct enumFunc as [f|]; unfold ZipIO.enumerateFoldersInternal;
    [|cbn [fst snd]; auto].
  destruct (basePathToSearch basePath) as [base emptyBasePath].
  destruct (ZipIO.m_cachedDirectoriesList p); [|cbn [fst snd]; auto].
  destruct (zip_get_num_entries (ZipIO.m_zipArchive p) <? 0);
    [cbn [fst snd]; auto|].
  pose proof (buildDirectories_loop_frame
                (indices (zip_get_num_entries (ZipIO.m_zipArchive p))) p []) as H.
  destruct (ZipIO.buildDirectories_loop _ p []) as [p1 set1].
  cbv zeta in H. cbn [fst snd ZipIO.set_cache ZipIO.m_zipArchive
                      ZipIO.m_fixedLastMod
                      ZipIO.m_foundMalformedWindowsPathSeparators] in *.
  exact H.
Qed.

(** The operations that read change nothing of the provider but the memo
    of the separator workaround, and nothing at all once the archive is
    classified: [fileExists], [openBinaryStream] in either mode,
    [loadFullFile] (its stream is closed on an untouched archive) and both
    file enumerations keep the archive, the fixed-timestamp policy and the
    directory cache; the folder enumerations keep the archive and the
    policy. *)
Theorem read_operations_keep_provider {St : Type} (p : ZipIO.t)
    (name : string) :
  only_memo_changed p (snd (ZipIO.fileExists p name))
  /\ (forall mode, only_memo_changed p (snd (ZipIO.openBinaryStream p name mode)))
  /\ (forall fileData maxFileSize appendNull,
        only_memo_changed p
          (snd (ZipIO.loadFullFile p name fileData maxFileSize appendNull)))
  /\ (forall recurse (enumFunc : option (ZipIO.EnumFunc St)) (st : St),
        only_memo_changed p
          (snd (fst (ZipIO.enumerateFilesInternal p name recurse enumFunc st))))
  /\ (forall recurse (enumFunc : option (ZipIO.EnumFunc St)) (st : St),
        let p' := snd (fst (ZipIO.enumerateFoldersInternal p name recurse
                              enumFunc st)) in
        ZipIO.m_zipArchive p' = ZipIO.m_zipArchive p
        /\ ZipIO.m_fixedLastMod p' = ZipIO.m_fixedLastMod p).
Proof.
  split; [apply fileExists_only_memo|].
  split; [intros; apply openBinaryStream_only_memo|].
  split; [intros; apply loadFullFile_only_memo|].
  split; [intros; apply enumerateFilesInternal_only_memo|].
  intros recurse enumFunc st.
  destruct (enumerateFoldersInternal_frame p name recurse enumFunc st)
    as (A & F & _).
  cbv zeta. auto.
Qed.

(** The classification of an archive is made once: when the memo of the
    separator workaround holds a value, that value is the one every later
    lookup and enumeration works with, and no operation of the provider
    changes it, not even a write that adds entries. *)
Theorem classification_is_permanent {St : Type} (p : ZipIO.t) (v : bool) :
  ZipIO.m_foundMalformedWindowsPathSeparators p = Some v ->
  let kept (p' : ZipIO.t) :=
    ZipIO.m_foundMalformedWindowsPathSeparators p' = Some v in
  quirk p = v
  /\ (forall name, kept (snd (ZipIO.fileExists p name)))
  /\ (forall name mode, kept (snd (ZipIO.openBinaryStream p name mode)))
  /\ (forall name fileData maxFileSize appendNull,
        kept (snd (ZipIO.loadFullFile p name fileData maxFileSize appendNull)))
  /\ (forall name data len, kept (snd (ZipIO.writeFullFile p name data len)))
  /\ (forall s, kept (ZipIO.destroy_stream s p))
  /\ (forall basePath recurse (enumFunc : option (ZipIO.EnumFunc St)) (st : St),
        kept (snd (fst (ZipIO.enumerateFilesInternal p basePath recurse
                          enumFunc st)))
        /\ kept (snd (fst (ZipIO.enumerateFoldersInternal p basePath recurse
                             enumFunc st)))).
Proof.
  intros Hv kept.
  assert (Hsame : forall p', only_memo_changed p p' -> kept p').
  { intros p' (_ & _ & _ & M). unfold kept. rewrite (M ltac:(congruence)).
    exact Hv. }
  split; [|split; [|split; [|split; [|split; [|split]]]]].
  - unfold quirk, ZipIO.malformed_windows_path_separators_workaround.
    now rewrite Hv.
  - intros. apply Hsame, fileExists_only_memo.
  - intros. apply Hsame, openBinaryStream_only_memo.
  - intros. apply Hsame, loadFullFile_only_memo.
  - intros name data len. unfold kept, ZipIO.writeFullFile.
    destruct (Stream.openForWriting _ _ _) as [ws|]; [|exact Hv].
    destruct (Stream.writeBytes ws data len) as [[n|] ws1]; cbn [snd];
      unfold ZipIO.destroy_stream.
    + destruct (negb (n =? len)); cbn [snd].
      * now destruct (Stream.close ws1 _) as [[ok ws2] a].
      * destruct (Stream.close ws1 _) as [[ok ws2] a]. cbn [snd].
        now destruct (Stream.close ws2 _) as [[ok' ws3] a'].
    + now destruct (Stream.close ws1 _) as [[ok ws2] a].
  - intros s. unfold kept, ZipIO.destroy_stream.
    now destruct (Stream.close s _) as [[ok s'] a].
  - intros basePath recurse enumFunc st. split.
    + apply Hsame, enumerateFilesInternal_only_memo.
    + now apply (enumerateFoldersInternal_frame p basePath recurse enumFunc st).
Qed.

End FrameProperties.

(** [classification_is_permanent]: an archive classified while it was
    empty keeps its classification after a name with a backslash is
    written to it. *)
Lemma classification_is_permanent_witness :
  let p := snd (ZipIO.fileExists (SimpleZip.provider emptyArchive) "x") in
  ZipIO.m_foundMalformedWindowsPathSeparators
    (snd (ZipIO.writeFullFile p "dir\file.txt" [x41] 1)) = Some false.
Proof.
  cbv zeta.
  exact (proj1 (proj2 (proj2 (proj2 (proj2
    (@classification_is_permanent SimpleZip.libzip unit
       (snd (ZipIO.fileExists (SimpleZip.provider emptyArchive) "x")) false
       eq_refl))))) "dir\file.txt" [x41] 1).
Defined.

Section Classification.
Context {LZ : LibZip}.

(** Entry [idx] is of DOS origin and has a backslash in its name. *)
Definition dos_backslash (a : zip_t) (idx : Z) : Prop :=
  exists name,
    zip_get_name a idx = Some name
    /\ zip_file_get_external_attributes a idx = Some ZIP_OPSYS_DOS
    /\ Str.strchr name "\" = true.

(** Entry [idx] does not settle the classification: it has no name, or no
    attributes, or is of DOS origin with neither separator in its name. *)
Definition undecided (a : zip_t) (idx : Z) : Prop :=
  zip_get_name a idx = None
  \/ zip_file_get_external_attributes a idx = None
  \/ exists name,
       zip_get_name a idx = Some name
       /\ zip_file_get_external_attributes a idx = Some ZIP_OPSYS_DOS
       /\ Str.strchr name "\" = false
       /\ Str.strchr name "/" = false.

Lemma undecided_not_dos_backslash (a : zip_t) (idx : Z) :
  undecided a idx -> ~ dos_backslash a idx.
Proof.
  intros [H|[H|(n & Hn & _ & Hb & _)]] (name & Hname & Hattr & Hbs); congruence.
Qed.

Lemma determine_loop_true (a : zip_t) (idxs : list Z) :
  ZipIO.determine_loop a idxs = Some true
  <-> exists pre idx post,
        idxs = pre ++ idx :: post
        /\ Forall (undecided a) pre
        /\ dos_backslash a idx.
Proof.
  induction idxs as [|i rest IH]; cbn [ZipIO.determine_loop].
  - split; [discriminate|]. intros (pre & idx & post & H & _).
    destruct pre; discriminate.
  - assert (Hskip : undecided a i ->
              (ZipIO.determine_loop a rest = Some true
               <-> exists pre idx post,
                     i :: rest = pre ++ idx :: post
                     /\ Forall (undecided a) pre /\ dos_backslash a idx)).
    { intros Hu. rewrite IH. split.
      - intros (pre & idx & post & -> & Hpre & Hd).
        exists (i :: pre), idx, post. repeat split; auto.
      - intros (pre & idx & post & Heq & Hpre & Hd).
        destruct pre as [|x pre]; cbn [List.app] in Heq; injection Heq as -> ->.
        + now apply undecided_not_dos_backslash in Hu.
        + inversion Hpre; subst. now exists pre, idx, post. }
    assert (Hstop : ~ undecided a i -> ~ dos_backslash a i ->
              ~ exists pre idx post,
                  i :: rest = pre ++ idx :: post
                  /\ Forall (undecided a) pre /\ dos_backslash a idx).
    { intros Hu Hd (pre & idx & post & Heq & Hpre & Hd').
      destruct pre as [|x pre]; cbn [List.app] in Heq; injection Heq as -> ->.
      - contradiction.
      - inversion Hpre; subst. contradiction. }
    destruct (zip_get_name a i) as [name|] eqn:En;
      [|apply Hskip; now left].
    destruct (zip_file_get_external_attributes a i) as [opsys|] eqn:Ea;
      [|apply Hskip; right; now left].
    destruct (Z.eqb_spec opsys ZIP_OPSYS_DOS) as [->|Hnd].
    + destruct (Str.strchr name "\") eqn:Eb.
      * split; [intros _|reflexivity].
        exists [], i, rest. repeat split; [constructor|].
        now exists name.
      * destruct (Str.strchr name "/") eqn:Es.
        -- split; [discriminate|]. intros H. exfalso. revert H. apply Hstop.
           ++ intros [H|[H|(n & Hn & _ & _ & Hs)]]; congruence.
           ++ intros (n & Hn & _ & Hb). congruence.
        -- apply Hskip. right. right. now exists name.
    + split; [discriminate|]. intros H. exfalso. revert H. apply Hstop.
      * intros [H|[H|(n & _ & Hattr & _)]]; congruence.
      * intros (n & _ & Hattr & _). congruence.
Qed.

(** How an archive is classified the first time: as having the separator
    quirk exactly when, going through the entries in order, the first one
    that settles the matter is of DOS origin with a backslash in its name;
    the answer is then kept in the memo.  When libzip cannot count the
    entries the answer is no and nothing is kept. *)
Theorem first_classification (p : ZipIO.t) :
  ZipIO.m_foundMalformedWindowsPathSeparators p = None ->
  let a := ZipIO.m_zipArchive p in
  let p' := snd (ZipIO.malformed_windows_path_separators_workaround p) in
  (zip_get_num_entries a < 0 -> quirk p = false /\ p' = p)
  /\ (0 <= zip_get_num_entries a ->
      (quirk p = true
       <-> exists pre idx post,
             indices (zip_get_num_entries a) = pre ++ idx :: post
             /\ Forall (undecided a) pre
             /\ dos_backslash a idx)
      /\ ZipIO.m_foundMalformedWindowsPathSeparators p' = Some (quirk p)).
Proof.
  intros Hm a p'. subst p'. unfold quirk.
  unfold ZipIO.malformed_windows_path_separators_workaround,
    ZipIO.determineIfMalformedWindowsPathSeparatorWorkaround.
  rewrite Hm. fold a. split.
  - intros Hneg. apply Z.ltb_lt in Hneg. rewrite Hneg. split; reflexivity.
  - intros Hpos. apply Z.ltb_ge in Hpos. rewrite Hpos.
    rewrite <- determine_loop_true.
    destruct (ZipIO.determine_loop a (indices (zip_get_num_entries a)))
      as [[|]|]; cbn [fst snd ZipIO.set_found
                      ZipIO.m_foundMalformedWindowsPathSeparators];
      (split; [split; congruence|reflexivity]).
Qed.

End Classification.

(** An archive whose first entry is a DOS directory marker without
    separators and whose second entry is stored with a backslash. *)
Definition dosSecondArchive : SimpleZip.archive :=
  SimpleZip.mk_archive
    [SimpleZip.plain "readme" ZIP_OPSYS_DOS ZIP_CM_STORE [x41];
     SimpleZip.plain "dir\file.txt" ZIP_OPSYS_DOS ZIP_CM_STORE [x41]] false.

(** [first_classification] on that archive: the second entry settles it. *)
Lemma first_classification_witness :
  quirk (SimpleZip.provider dosSecondArchive) = true.
Proof.
  apply (proj1 (proj2 (@first_classification SimpleZip.libzip
                         (SimpleZip.provider dosSecondArchive) eq_refl)
                 ltac:(vm_compute; discriminate))).
  exists [0], 1, []. split; [reflexivity|]. split.
  - constructor; [|constructor]. right. right. exists "readme".
    repeat split; reflexivity.
  - exists "dir\file.txt". repeat split; reflexivity.
Defined.

(** * Further properties of the enumerations *)

Section Listings.
Context {LZ : LibZip}.

(** The file names an enumeration reports when it is not stopped: entry by
    entry, in the order of the archive. *)
Definition fileListing (w : bool) (a : zip_t) (recurse : bool) (base : string)
    (emptyBasePath : bool) (idxs : list Z) : list string :=
  flat_map
    (fun idx =>
       match zip_get_name a idx with
       | Some name =>
           if Str.empty name then []
           else match ZipIO.fileToReport recurse base emptyBasePath
                        (ZipIO.normalizedName w a idx name) with
                | Some file => [file]
                | None => []
                end
       | None => []
       end)
    idxs.

(** The folder names reported from a list of cached directories. *)
Definition folderListing (recurse : bool) (base : string) (emptyBasePath : bool)
    (dirs : list string) : list string :=
  flat_map
    (fun dirPath =>
       match ZipIO.folderToReport recurse base emptyBasePath dirPath with
       | Some relativeDirPath => [relativeDirPath]
       | None => []
       end)
    dirs.

(** The callback never asks to stop. *)
Definition never_stops {St : Type} (f : ZipIO.EnumFunc St) : Prop :=
  forall st file, fst (f st file) = true.

Lemma enumerateFiles_loop_listing {St : Type} (recurse : bool) (base : string)
    (emptyBasePath : bool) (f : ZipIO.EnumFunc St) (idxs : list Z)
    (p : ZipIO.t) (st : St) (log : list string) :
  exists new rest,
    snd (snd (ZipIO.enumerateFiles_loop recurse base emptyBasePath (traced f)
                idxs p (st, log))) = log ++ new
    /\ fileListing (quirk p) (ZipIO.m_zipArchive p) recurse base emptyBasePath idxs
       = new ++ rest
    /\ (never_stops f -> rest = []).
Proof.
  revert p st log. induction idxs as [|idx idxs IH]; intros p st log;
    cbn [ZipIO.enumerateFiles_loop fileListing flat_map].
  - exists [], []. cbn [snd]. now rewrite app_nil_r.
  - destruct (zip_get_name (ZipIO.m_zipArchive p) idx) as [name|] eqn:En;
      [|apply IH].
    destruct (Str.empty name); [apply IH|].
    destruct (workaround_step p) as (Hw & Ha & _ & Hq). rewrite Hw.
    set (p1 := snd (ZipIO.malformed_windows_path_separators_workaround p)) in *.
    rewrite Ha.
    destruct (ZipIO.fileToReport recurse base emptyBasePath _) as [file|].
    + unfold traced at 1. cbn [fst snd].
      destruct (f st file) as [goOn st1] eqn:Ef. destruct goOn.
      * destruct (IH p1 st1 (log ++ [file])) as (new & rest & Hlog & Hl & Hr).
        exists (file :: new), rest. rewrite Hlog, <- app_assoc.
        split; [reflexivity|]. split; [|exact Hr].
        cbn [List.app]. f_equal. rewrite <- Hq, <- Ha. exact Hl.
      * exists [file], (fileListing (quirk p) (ZipIO.m_zipArchive p) recurse base
                          emptyBasePath idxs).
        cbn [snd]. split; [reflexivity|]. split; [reflexivity|].
        intros Hns. specialize (Hns st file). rewrite Ef in Hns. discriminate.
    + destruct (IH p1 st log) as (new & rest & Hlog & Hl & Hr).
      exists new, rest. split; [exact Hlog|]. split; [|exact Hr].
      cbn [List.app]. rewrite <- Hq, <- Ha. exact Hl.
Qed.

Lemma enumerateFolders_loop_listing {St : Type} (recurse : bool) (base : string)
    (emptyBasePath : bool) (f : ZipIO.EnumFunc St) (dirs : list string)
    (st : St) (log : list string) :
  exists new rest,
    snd (ZipIO.enumerateFolders_loop recurse base emptyBasePath (traced f)
           dirs (st, log)) = log ++ new
    /\ folderListing recurse base emptyBasePath dirs = new ++ rest
    /\ (never_stops f -> rest = []).
Proof.
  revert st log. induction dirs as [|dirPath dirs IH]; intros st log;
    cbn [ZipIO.enumerateFolders_loop folderListing flat_map].
  - exists [], []. cbn [snd]. now rewrite app_nil_r.
  - destruct (ZipIO.folderToReport recurse base emptyBasePath dirPath) as [rel|];
      [|apply IH].
    unfold traced at 1. cbn [fst snd].
    destruct (f st rel) as [goOn st1] eqn:Ef. destruct goOn.
    + destruct (IH st1 (log ++ [rel])) as (new & rest & Hlog & Hl & Hr).
      exists (rel :: new), rest. rewrite Hlog, <- app_assoc.
      split; [reflexivity|]. split; [|exact Hr].
      cbn [List.app]. f_equal. exact Hl.
    + exists [rel], (folderListing recurse base emptyBasePath dirs).
      cbn [snd]. split; [reflexivity|]. split; [reflexivity|].
      intros Hns. specialize (Hns st rel). rewrite Ef in Hns. discriminate.
Qed.

(** What a file enumeration reports is the start of the computed listing,
    and the whole of it for a callback that never stops. *)
Lemma enumerateFilesInternal_listing {St : Type} (p : ZipIO.t) (basePath : string)
    (recurse : bool) (f : ZipIO.EnumFunc St) (st : St) :
  0 <= zip_get_num_entries (ZipIO.m_zipArchive p) ->
  let listing :=
    fileListing (quirk p) (ZipIO.m_zipArchive p) recurse
      (fst (basePathToSearch basePath)) (snd (basePathToSearch basePath))
      (indices (zip_get_num_entries (ZipIO.m_zipArchive p))) in
  let reported :=
    snd (snd (ZipIO.enumerateFilesInternal p basePath recurse
                (Some (traced f)) (st, []))) in
  (exists rest, listing = reported ++ rest)
  /\ (never_stops f -> reported = listing).
Proof.
  intros Hn. cbv zeta. unfold ZipIO.enumerateFilesInternal.
  apply Z.ltb_ge in Hn. rewrite Hn.
  destruct (basePathToSearch basePath) as [base emptyBasePath]. cbn [fst snd].
  destruct (enumerateFiles_loop_listing recurse base emptyBasePath f
              (indices (zip_get_num_entries (ZipIO.m_zipArchive p))) p st [])
    as (new & rest & Hlog & Hl & Hr).
  destruct (ZipIO.enumerateFiles_loop _ _ _ _ _ _ _) as [p1 st1].
  cbn [fst snd List.app] in *. subst. split.
  - now exists rest.
  - intros Hns. rewrite Hl, (Hr Hns). now rewrite app_nil_r.
Qed.

(** What a folder enumeration reports is the start of the listing computed
    from the cache it leaves behind, and the whole of it for a callback
    that never stops. *)
Lemma enumerateFoldersInternal_listing {St : Type} (p : ZipIO.t)
    (basePath : string) (recurse : bool) (f : ZipIO.EnumFunc St) (st : St) :
  let res := ZipIO.enumerateFoldersInternal p basePath recurse
               (Some (traced f)) (st, []) in
  fst (fst res) = true ->
  let listing :=
    folderListing recurse (fst (basePathToSearch basePath))
      (snd (basePathToSearch basePath))
      (ZipIO.m_cachedDirectoriesList (snd (fst res))) in
  (exists rest, listing = snd (snd res) ++ rest)
  /\ (never_stops f -> snd (snd res) = listing).
Proof.
  cbv zeta. unfold ZipIO.enumerateFoldersInternal.
  destruct (basePathToSearch basePath) as [base emptyBasePath]. cbn [fst snd].
  assert (Hlist : forall p1,
            let res := (true, p1,
                        ZipIO.enumerateFolders_loop recurse base emptyBasePath
                          (traced f) (ZipIO.m_cachedDirectoriesList p1) (st, [])) in
            (exists rest,
               folderListing recurse base emptyBasePath
                 (ZipIO.m_cachedDirectoriesList (snd (fst res)))
               = snd (snd res) ++ rest)
            /\ (never_stops f ->
                snd (snd res)
                = folderListing recurse base emptyBasePath
                    (ZipIO.m_cachedDirectoriesList (snd (fst res))))).
  { intros p1. cbv zeta. cbn [fst snd].
    destruct (enumerateFolders_loop_listing recurse base emptyBasePath f
                (ZipIO.m_cachedDirectoriesList p1) st [])
      as (new & rest & Hlog & Hl & Hr).
    rewrite Hlog. cbn [List.app]. split.
    - now exists rest.
    - intros Hns. rewrite Hl, (Hr Hns). now rewrite app_nil_r. }
  destruct (ZipIO.m_cachedDirectoriesList p) as [|d ds] eqn:Ec.
  - destruct (zip_get_num_entries (ZipIO.m_zipArchive p) <? 0);
      [discriminate|].
    destruct (ZipIO.buildDirectories_loop _ p []) as [p1 set1]. intros _.
    apply (Hlist (ZipIO.set_cache p1 (Str.sort (ZipIO.m_cachedDirectoriesList p1)))).
  - intros _. rewrite <- Ec. apply (Hlist p).
Qed.

End Listings.

Section NameShapes.
Context {LZ : LibZip}.

Lemma length_append (a b : string) :
  String.length (String.append a b) = (String.length a + String.length b)%nat.
Proof. induction a as [|c a IH]; cbn; [reflexivity|now rewrite IH]. Qed.

Lemma back_append (a b : string) :
  b <> "" -> Str.back (String.append a b) = Str.back b.
Proof.
  intros Hb. induction a as [|c a IH]; [reflexivity|].
  cbn [String.append Str.back]. rewrite IH.
  destruct (String.append a b) eqn:E; [|reflexivity].
  destruct a; cbn in E; [contradiction|discriminate].
Qed.

Lemma back_None (s : string) : Str.back s = None -> s = "".
Proof.
  induction s as [|c s IH]; [reflexivity|].
  cbn [Str.back]. destruct s as [|d s]; [discriminate|].
  intros H. specialize (IH H). discriminate.
Qed.

Lemma find_char_append (c : ascii) (a b : string) :
  Str.find_char c (String.length a) (String.append a b)
  = option_map (fun i => (String.length a + i)%nat) (Str.find_char c 0 b).
Proof.
  induction a as [|x a IH].
  - cbn [String.length String.append Nat.add]. now destruct (Str.find_char c 0 b).
  - cbn [String.length String.append Str.find_char]. rewrite IH.
    now destruct (Str.find_char c 0 b).
Qed.

Lemma find_char_back (c : ascii) (s : string) :
  Str.back s = Some c -> Str.find_char c 0 s <> None.
Proof.
  induction s as [|x s IH]; [discriminate|].
  cbn [Str.back Str.find_char]. destruct s as [|y s].
  - intros [= ->]. now rewrite Ascii.eqb_refl.
  - intros H. specialize (IH H). destruct (Ascii.eqb x c); [discriminate|].
    now destruct (Str.find_char c 0 (String y s)).
Qed.

Lemma length_replace (x y : ascii) (s : string) :
  String.length (Str.replace x y s) = String.length s.
Proof. induction s as [|c s IH]; cbn; [reflexivity|now rewrite IH]. Qed.

Lemma length_normalizedName (w : bool) (a : zip_t) (idx : Z) (name : string) :
  String.length (ZipIO.normalizedName w a idx name) = String.length name.
Proof.
  unfold ZipIO.normalizedName. destruct w; [|reflexivity].
  destruct (zip_file_get_external_attributes a idx) as [opsys|]; [|reflexivity].
  destruct ((opsys =? ZIP_OPSYS_DOS) && Str.strchr name "\"); [|reflexivity].
  apply length_replace.
Qed.

(** The base path the enumerations search under is empty or ends in a
    slash. *)
Lemma basePathToSearch_shape (basePath : string) :
  fst (basePathToSearch basePath) = ""
  \/ Str.back (fst (basePathToSearch basePath)) = Some "/"%char.
Proof.
  unfold basePathToSearch.
  destruct (String.eqb _ "/"); [now left|]. cbn [fst].
  destruct basePath as [|c r]; [now left|]. right. cbn [Str.empty negb andb].
  destruct (Str.back (String c r)) as [b|] eqn:Eb.
  - destruct (Ascii.eqb b "/") eqn:E; cbn [negb].
    + apply Ascii.eqb_eq in E. now subst b.
    + now rewrite back_append.
  - cbn [negb]. now rewrite back_append.
Qed.

Lemma fileToReport_shape (recurse : bool) (base : string) (emptyBasePath : bool)
    (nameStr file : string) :
  (emptyBasePath = true -> base = "") ->
  (base = "" \/ Str.back base = Some "/"%char) ->
  ZipIO.fileToReport recurse base emptyBasePath nameStr = Some file ->
  file <> ""
  /\ Str.back file <> Some "/"%char
  /\ (recurse = false -> Str.find_char "/" 0 file = None).
Proof.
  intros Hb Hshape Hf.
  destruct (fileToReport_Some _ _ _ _ _ Hb Hf) as [Hsafe Hname].
  unfold ZipIO.fileToReport in Hf.
  destruct (negb emptyBasePath && _); [discriminate|].
  rewrite Hsafe in Hf.
  destruct (Str.back nameStr) as [b|] eqn:Eback.
  2:{ (* an empty name is unsafe *)
      apply back_None in Eback. subst nameStr. discriminate. }
  destruct (Ascii.eqb b "/") eqn:Eb; [discriminate|].
  assert (Hne : file <> "").
  { intros ->. rewrite append_empty_r in Hname. subst nameStr.
    destruct Hshape as [->|Hs]; [discriminate|].
    rewrite Hs in Eback. injection Eback as <-. discriminate. }
  split; [exact Hne|]. split.
  - rewrite Hname, back_append in Eback by exact Hne. rewrite Eback.
    intros [= ->]. discriminate.
  - intros ->. cbn [negb andb] in Hf.
    rewrite Hname, find_char_append in Hf.
    destruct (Str.find_char "/" 0 file); [discriminate|reflexivity].
Qed.

(** The file names reported are never empty and never end in a slash, and
    those of the non-recursive enumeration contain no slash at all. *)
Theorem reported_file_names (St : Type) (p : ZipIO.t) (basePath : string)
    (recurse : bool) (f : ZipIO.EnumFunc St) (st : St) (file : string) :
  In file (snd (snd (ZipIO.enumerateFilesInternal p basePath recurse
                       (Some (traced f)) (st, [])))) ->
  file <> ""
  /\ Str.back file <> Some "/"%char
  /\ (recurse = false -> Str.find_char "/" 0 file = None).
Proof.
  unfold ZipIO.enumerateFilesInternal.
  destruct (zip_get_num_entries (ZipIO.m_zipArchive p) <? 0); [intros []|].
  pose proof (basePathToSearch_empty basePath) as Hb.
  pose proof (basePathToSearch_shape basePath) as Hshape.
  destruct (basePathToSearch basePath) as [base emptyBasePath]. cbn [fst snd] in *.
  destruct (enumerateFiles_loop_listing recurse base emptyBasePath f
              (indices (zip_get_num_entries (ZipIO.m_zipArchive p))) p st [])
    as (new & rest & Hlog & Hl & _).
  destruct (ZipIO.enumerateFiles_loop _ _ _ _ _ _ _) as [p1 st1].
  cbn [fst snd List.app] in *. subst new. intros Hin.
  assert (Hin' : In file (fileListing (quirk p) (ZipIO.m_zipArchive p) recurse
                            base emptyBasePath
                            (indices (zip_get_num_entries (ZipIO.m_zipArchive p)))))
    by (rewrite Hl; apply in_or_app; now left).
  unfold fileListing in Hin'. apply in_flat_map in Hin'.
  destruct Hin' as (idx & _ & Hidx).
  destruct (zip_get_name (ZipIO.m_zipArchive p) idx) as [name|]; [|destruct Hidx].
  destruct (Str.empty name); [destruct Hidx|].
  destruct (ZipIO.fileToReport recurse base emptyBasePath _) as [y|] eqn:Ef;
    [|destruct Hidx].
  destruct Hidx as [->|[]].
  now apply (fileToReport_shape recurse base emptyBasePath _ file Hb Hshape Ef).
Qed.

(** A cached directory ends in a slash and has a length that fits a
    [size_t]. *)
Definition directory_path (d : string) : Prop :=
  Str.back d = Some "/"%char /\ Z.of_nat (String.length d) < 2 ^ 64.

Lemma ancestors_loop_directory_paths (fuel : nat) (nameStr : string)
    (set cached : list string) :
  Z.of_nat (String.length nameStr) < 2 ^ 64 ->
  Forall directory_path cached ->
  Forall directory_path (snd (ZipIO.ancestors_loop fuel nameStr set cached)).
Proof.
  revert nameStr set cached.
  induction fuel as [|fuel IH]; intros nameStr set cached Hlen Hc; [exact Hc|].
  rewrite ancestors_loop_S.
  destruct (ancestors_dir nameStr) as [dir|] eqn:Ed; [|exact Hc].
  destruct (ancestors_dir_spec _ _ Ed) as (_ & Hback & Hle).
  assert (Hdir : directory_path dir) by (split; [exact Hback|lia]).
  apply IH.
  - pose proof (take_length_le (String.length dir - Str.trailing "/" dir) dir).
    lia.
  - destruct (existsb (String.eqb dir) set); [exact Hc|].
    apply Forall_app. split; [exact Hc|]. now constructor.
Qed.

Lemma buildDirectories_loop_directory_paths (idxs : list Z) (p : ZipIO.t)
    (set : list string) :
  (forall idx name, zip_get_name (ZipIO.m_zipArchive p) idx = Some name ->
                    Z.of_nat (String.length name) < 2 ^ 64) ->
  Forall directory_path (ZipIO.m_cachedDirectoriesList p) ->
  Forall directory_path
    (ZipIO.m_cachedDirectoriesList (fst (ZipIO.buildDirectories_loop idxs p set))).
Proof.
  revert p set. induction idxs as [|idx rest IH]; intros p set Hfit Hc;
    cbn [ZipIO.buildDirectories_loop]; [exact Hc|].
  destruct (zip_get_name (ZipIO.m_zipArchive p) idx) as [name|] eqn:En;
    [|now apply IH].
  destruct (Str.empty name); [now apply IH|].
  destruct (workaround_step p) as (Hw & Ha & Hcache & _). rewrite Hw.
  set (p1 := snd (ZipIO.malformed_windows_path_separators_workaround p)) in *.
  rewrite Ha.
  destruct (isUnsafeZipEntryName _).
  - apply IH; [now rewrite Ha|now rewrite Hcache].
  - pose proof (ancestors_loop_directory_paths
                  (S (String.length
                        (ZipIO.normalizedName (quirk p) (ZipIO.m_zipArchive p)
                           idx name)))
                  (ZipIO.normalizedName (quirk p) (ZipIO.m_zipArchive p) idx name)
                  set (ZipIO.m_cachedDirectoriesList p1)) as Hanc.
    destruct (ZipIO.ancestors_loop _ _ set (ZipIO.m_cachedDirectoriesList p1))
      as [set1 cached1].
    cbn [snd] in Hanc. apply IH.
    + cbn [ZipIO.set_cache ZipIO.m_zipArchive]. now rewrite Ha.
    + cbn [ZipIO.set_cache ZipIO.m_cachedDirectoriesList]. apply Hanc.
      * rewrite length_normalizedName. now apply (Hfit idx).
      * now rewrite Hcache.
Qed.

Lemma folderToReport_shape (recurse : bool) (base : string)
    (emptyBasePath : bool) (dirPath rel : string) :
  (emptyBasePath = true -> base = "") ->
  directory_path dirPath ->
  ZipIO.folderToReport recurse base emptyBasePath dirPath = Some rel ->
  rel <> ""
  /\ Str.back rel = Some "/"%char
  /\ (recurse = false ->
      Str.find_char "/" 0 rel = Some (String.length rel - 1)%nat).
Proof.
  intros Hb (Hback & Hfit) Hf.
  pose proof (folderToReport_Some _ _ _ _ _ Hb Hf) as Hname.
  unfold ZipIO.folderToReport in Hf.
  destruct (negb emptyBasePath && _); [discriminate|].
  destruct (Nat.eqb_spec (String.length dirPath) (String.length base)) as [E|Hlen];
    [discriminate|].
  assert (Hne : rel <> "").
  { intros ->. rewrite append_empty_r in Hname. now subst. }
  assert (Hrb : Str.back rel = Some "/"%char)
    by (rewrite Hname, back_append in Hback by exact Hne; exact Hback).
  split; [exact Hne|]. split; [exact Hrb|].
  intros ->. cbn [negb andb] in Hf. subst dirPath.
  rewrite find_char_append in Hf.
  pose proof (find_char_back "/" rel Hrb) as Hsome.
  destruct (Str.find_char "/" 0 rel) as [i|]; [|contradiction].
  cbn [option_map] in Hf.
  rewrite length_append in *.
  assert (Hpos : (0 < String.length rel)%nat)
    by (destruct rel; [contradiction|cbn; lia]).
  rewrite wrap64_small in Hf by lia.
  destruct (Z.eqb_spec (Z.of_nat (String.length base + i))
              (Z.of_nat (String.length base + String.length rel) - 1));
    [|discriminate].
  f_equal. lia.
Qed.

(** The folder names reported are never empty and end in a slash, and
    those of the non-recursive enumeration have no other slash: only
    direct children are listed.  The names of the archive are taken to fit
    a [size_t], and the cache to hold directory paths, as it does when it
    is empty. *)
Theorem reported_folder_names (St : Type) (p : ZipIO.t) (basePath : string)
    (recurse : bool) (f : ZipIO.EnumFunc St) (st : St) (dir : string) :
  (forall idx name, zip_get_name (ZipIO.m_zipArchive p) idx = Some name ->
                    Z.of_nat (String.length name) < 2 ^ 64) ->
  Forall directory_path (ZipIO.m_cachedDirectoriesList p) ->
  In dir (snd (snd (ZipIO.enumerateFoldersInternal p basePath recurse
                      (Some (traced f)) (st, [])))) ->
  dir <> ""
  /\ Str.back dir = Some "/"%char
  /\ (recurse = false ->
      Str.find_char "/" 0 dir = Some (String.length dir - 1)%nat).
Proof.
  intros Hfit Hc. unfold ZipIO.enumerateFoldersInternal.
  pose proof (basePathToSearch_empty basePath) as Hb.
  destruct (basePathToSearch basePath) as [base emptyBasePath]. cbn [fst snd] in *.
  assert (Hlist : forall dirs,
            Forall directory_path dirs ->
            In dir (snd (ZipIO.enumerateFolders_loop recurse base emptyBasePath
                           (traced f) dirs (st, []))) ->
            dir <> ""
            /\ Str.back dir = Some "/"%char
            /\ (recurse = false ->
                Str.find_char "/" 0 dir = Some (String.length dir - 1)%nat)).
  { intros dirs Hdirs Hin.
    destruct (enumerateFolders_loop_listing recurse base emptyBasePath f dirs st [])
      as (new & rest & Hlog & Hl & _).
    rewrite Hlog in Hin. cbn [List.app] in Hin.
    assert (Hin' : In dir (folderListing recurse base emptyBasePath dirs))
      by (rewrite Hl; apply in_or_app; now left).
    unfold folderListing in Hin'. apply in_flat_map in Hin'.
    destruct Hin' as (d & Hd & Hrel).
    destruct (ZipIO.folderToReport recurse base emptyBasePath d) as [y|] eqn:Ef;
      [|destruct Hrel].
    destruct Hrel as [->|[]].
    rewrite Forall_forall in Hdirs.
    now apply (folderToReport_shape recurse base emptyBasePath d dir Hb
                 (Hdirs d Hd) Ef). }
  destruct (ZipIO.m_cachedDirectoriesList p) as [|d ds] eqn:Ec.
  - destruct (zip_get_num_entries (ZipIO.m_zipArchive p) <? 0); [intros []|].
    pose proof (buildDirectories_loop_directory_paths
                  (indices (zip_get_num_entries (ZipIO.m_zipArchive p))) p []
                  Hfit) as Hbuild.
    rewrite Ec in Hbuild. specialize (Hbuild (Forall_nil _)).
    destruct (ZipIO.buildDirectories_loop _ p []) as [p1 set1].
    cbn [fst snd ZipIO.set_cache ZipIO.m_cachedDirectoriesList] in *.
    apply Hlist. now apply sort_Forall.
  - cbn [fst snd]. apply Hlist. exact Hc.
Qed.

End NameShapes.

Lemma nestedArchive_names_fit (idx : Z) (name : string) :
  zip_get_name (LibZip := SimpleZip.libzip) nestedArchive idx = Some name ->
  Z.of_nat (String.length name) < 2 ^ 64.
Proof.
  cbn [zip_get_name SimpleZip.libzip]. unfold SimpleZip.nth_entry.
  destruct (idx <? 0); [discriminate|].
  destruct (Z.to_nat idx) as [|[|k]]; cbn; intros [= <-] || discriminate.
  vm_compute. reflexivity.
Qed.

(** [reported_file_names] on the nested archive, listed under a/b. *)
Lemma reported_file_names_witness :
  "c.txt" <> ""
  /\ Str.back "c.txt" <> Some "/"%char
  /\ (false = false -> Str.find_char "/" 0 "c.txt" = None).
Proof.
  exact (@reported_file_names SimpleZip.libzip unit
           (SimpleZip.provider nestedArchive) "a/b" false keepGoing tt "c.txt"
           ltac:(vm_compute; left; reflexivity)).
Defined.

(** [reported_folder_names] on the nested archive, listed from the root. *)
Lemma reported_folder_names_witness :
  "a/" <> ""
  /\ Str.back "a/" = Some "/"%char
  /\ (false = false -> Str.find_char "/" 0 "a/" = Some (String.length "a/" - 1)%nat).
Proof.
  exact (@reported_folder_names SimpleZip.libzip unit
           (SimpleZip.provider nestedArchive) "" false keepGoing tt "a/"
           nestedArchive_names_fit (Forall_nil _)
           ltac:(vm_compute; left; reflexivity)).
Defined.

(** ** The listings in the words of the interface *)

Section ListingsInWords.
Context {LZ : LibZip}.

(** [s] ends in a slash. *)
Definition ends_in_slash (s : string) : Prop :=
  exists r, s = String.append r "/".

(** The character [c] occurs in [s]. *)
Definition occurs (c : ascii) (s : string) : Prop :=
  exists a b, s = String.append a (String c b).

(** The base path an enumeration searches: nothing for the root (given as
    the empty path or as a slash), otherwise the path given, with a slash
    at its end when it has none. *)
Definition searched_base (basePath base : string) : Prop :=
  ((basePath = "" \/ basePath = "/") /\ base = "")
  \/ (basePath <> "" /\ basePath <> "/"
      /\ ((ends_in_slash basePath /\ base = basePath)
          \/ (~ ends_in_slash basePath /\ base = String.append basePath "/"))).

(** [nm] is [name] with every backslash turned into a slash. *)
Definition slashed (name nm : string) : Prop :=
  forall i,
    String.get i nm
    = option_map (fun c => if Ascii.eqb c "\" then "/"%char else c)
        (String.get i name).

(** The name of entry [idx] as an enumeration looks at it: with slashes
    for backslashes when the archive is classified as written with Windows
    separators and the entry is of DOS origin, as stored otherwise. *)
Definition seen_as (w : bool) (a : zip_t) (idx : Z) (name nm : string) : Prop :=
  (w = true
   /\ zip_file_get_external_attributes a idx = Some ZIP_OPSYS_DOS
   /\ slashed name nm)
  \/ (~ (w = true
         /\ zip_file_get_external_attributes a idx = Some ZIP_OPSYS_DOS)
      /\ nm = name).

(** Entry [idx] is listed as [file]: it has a name that is not empty, the
    name as looked at is safe, does not end in a slash, and is [file] after
    the base path, and without recursion [file] has no slash. *)
Definition file_qualifies (w : bool) (a : zip_t) (recurse : bool)
    (base : string) (idx : Z) (file : string) : Prop :=
  exists name nm,
    zip_get_name a idx = Some name
    /\ name <> ""
    /\ seen_as w a idx name nm
    /\ ~ unsafe_name nm
    /\ ~ ends_in_slash nm
    /\ nm = String.append base file
    /\ (recurse = false -> ~ occurs "/" file).

(** The cached directory [dirPath] is listed as [rel]: it is [rel] after
    the base path, [rel] is not empty, and without recursion [rel] has no
    slash before its last character. *)
Definition folder_qualifies (recurse : bool) (base dirPath rel : string)
    : Prop :=
  dirPath = String.append base rel
  /\ rel <> ""
  /\ (recurse = false ->
      forall a b, rel = String.append a (String "/" b) -> b = "").

(** [names] lists [items] in order: one name for each item that
    qualifies, none for the others. *)
Inductive listed {A : Type} (Q : A -> string -> Prop)
    : list A -> list string -> Prop :=
  | listed_nil : listed Q [] []
  | listed_take (x : A) (name : string) (xs : list A) (names : list string) :
      Q x name -> listed Q xs names -> listed Q (x :: xs) (name :: names)
  | listed_skip (x : A) (xs : list A) (names : list string) :
      (forall name, ~ Q x name) -> listed Q xs names -> listed Q (x :: xs) names.

Lemma listed_functional {A : Type} (Q : A -> string -> Prop) :
  (forall x n1 n2, Q x n1 -> Q x n2 -> n1 = n2) ->
  forall xs l1 l2, listed Q xs l1 -> listed Q xs l2 -> l1 = l2.
Proof.
  intros Hfun xs. induction xs as [|x xs IH]; intros l1 l2 H1 H2.
  - inversion H1. inversion H2. reflexivity.
  - inversion H1 as [|? n1 ? r1 Hq1 Hr1|? ? ? Hn1 Hr1]; subst;
      inversion H2 as [|? n2 ? r2 Hq2 Hr2|? ? ? Hn2 Hr2]; subst.
    + f_equal; [exact (Hfun x n1 n2 Hq1 Hq2)|exact (IH _ _ Hr1 Hr2)].
    + destruct (Hn2 n1 Hq1).
    + destruct (Hn1 n2 Hq2).
    + exact (IH _ _ Hr1 Hr2).
Qed.

Lemma back_ends_in_slash (s : string) :
  Str.back s = Some "/"%char <-> ends_in_slash s.
Proof.
  split.
  - induction s as [|c s IH]; [discriminate|].
    cbn [Str.back]. destruct s as [|d s].
    + intros [= ->]. now exists "".
    + intros H. destruct (IH H) as [r Hr]. exists (String c r).
      cbn [String.append]. now rewrite <- Hr.
  - intros [r ->]. rewrite back_append by discriminate. reflexivity.
Qed.

Lemma find_char_split (c : ascii) (s : string) (i : nat) :
  Str.find_char c 0 s = Some i ->
  exists a b, s = String.append a (String c b) /\ String.length a = i.
Proof.
  revert i. induction s as [|x s IH]; intros i; cbn [Str.find_char];
    [discriminate|].
  destruct (Ascii.eqb_spec x c) as [->|Hx].
  - intros [= <-]. now exists "", s.
  - destruct (Str.find_char c 0 s) as [j|]; [|discriminate].
    cbn [option_map]. intros [= <-].
    destruct (IH j eq_refl) as (a & b & -> & Hl).
    exists (String x a), b. cbn [String.append String.length].
    now rewrite Hl.
Qed.

Lemma find_char_occurs (c : ascii) (a b : string) :
  exists j,
    Str.find_char c 0 (String.append a (String c b)) = Some j
    /\ (j <= String.length a)%nat.
Proof.
  induction a as [|x a IH]; cbn [String.append Str.find_char String.length].
  - rewrite Ascii.eqb_refl. exists 0%nat. now split.
  - destruct (Ascii.eqb x c).
    + exists 0%nat. split; [reflexivity|lia].
    + destruct IH as (j & -> & Hj). exists (S j). split; [reflexivity|lia].
Qed.

Lemma find_char_None_iff (c : ascii) (s : string) :
  Str.find_char c 0 s = None <-> ~ occurs c s.
Proof.
  split.
  - intros Hn (a & b & ->).
    destruct (find_char_occurs c a b) as (j & Hj & _). congruence.
  - intros Hno. destruct (Str.find_char c 0 s) as [i|] eqn:E; [|reflexivity].
    destruct (find_char_split c s i E) as (a & b & -> & _).
    contradiction Hno. now exists a, b.
Qed.

Lemma strncmp_eq_append (base rest : string) :
  Str.strncmp_eq base (String.append base rest) (String.length base) = true.
Proof.
  induction base as [|x base IH];
    cbn [String.append String.length Str.strncmp_eq]; [reflexivity|].
  now rewrite Ascii.eqb_refl.
Qed.

Lemma substr_from_append (base rest : string) :
  Str.substr_from (String.length base) (String.append base rest) = rest.
Proof.
  induction base as [|x base IH]; cbn [String.append String.length Str.substr_from];
    [now destruct rest|exact IH].
Qed.

Lemma append_inj_l (base a b : string) :
  String.append base a = String.append base b -> a = b.
Proof.
  induction base as [|x base IH]; cbn [String.append]; [auto|].
  intros [= H]. auto.
Qed.

Lemma replace_slashed (name : string) : slashed name (Str.replace "\" "/" name).
Proof.
  unfold slashed. induction name as [|c r IH]; intros i;
    cbn [Str.replace String.get]; [reflexivity|].
  destruct i; [reflexivity|apply IH].
Qed.

Lemma replace_absent (a b : ascii) (s : string) :
  Str.find_char a 0 s = None -> Str.replace a b s = s.
Proof.
  induction s as [|x s IH]; cbn [Str.find_char Str.replace]; [reflexivity|].
  destruct (Ascii.eqb x a); [discriminate|].
  destruct (Str.find_char a 0 s); [discriminate|].
  intros _. f_equal. now apply IH.
Qed.

Lemma slashed_functional (name n1 n2 : string) :
  slashed name n1 -> slashed name n2 -> n1 = n2.
Proof.
  intros H1 H2. apply String.get_correct. intros i. now rewrite H1, H2.
Qed.

Lemma normalizedName_seen_as (w : bool) (a : zip_t) (idx : Z) (name : string) :
  seen_as w a idx name (ZipIO.normalizedName w a idx name).
Proof.
  unfold seen_as, ZipIO.normalizedName.
  destruct w; [|right; split; [intros [H _]; discriminate|reflexivity]].
  destruct (zip_file_get_external_attributes a idx) as [opsys|];
    [|right; split; [intros [_ H]; discriminate|reflexivity]].
  destruct (Z.eqb_spec opsys ZIP_OPSYS_DOS) as [->|Hne].
  - left. split; [reflexivity|]. split; [reflexivity|].
    cbn [andb]. unfold Str.strchr.
    destruct (Str.find_char "\" 0 name) eqn:Ef; [apply replace_slashed|].
    rewrite <- (replace_absent "\" "/" name Ef) at 2. apply replace_slashed.
  - right. split; [|reflexivity]. intros [_ [= H]]. contradiction.
Qed.

Lemma seen_as_functional (w : bool) (a : zip_t) (idx : Z) (name n1 n2 : string) :
  seen_as w a idx name n1 -> seen_as w a idx name n2 -> n1 = n2.
Proof.
  intros [(Hw & Ha & H1)|(Hn & ->)] [(Hw' & Ha' & H2)|(Hn' & ->)].
  - exact (slashed_functional name n1 n2 H1 H2).
  - contradiction Hn'. now split.
  - contradiction Hn. now split.
  - reflexivity.
Qed.

Lemma file_qualifies_functional (w : bool) (a : zip_t) (recurse : bool)
    (base : string) (idx : Z) (f1 f2 : string) :
  file_qualifies w a recurse base idx f1 ->
  file_qualifies w a recurse base idx f2 -> f1 = f2.
Proof.
  intros (name1 & nm1 & Hn1 & _ & Hs1 & _ & _ & He1 & _)
         (name2 & nm2 & Hn2 & _ & Hs2 & _ & _ & He2 & _).
  rewrite Hn1 in Hn2. injection Hn2 as <-.
  pose proof (seen_as_functional w a idx name1 nm1 nm2 Hs1 Hs2) as E.
  rewrite He1, He2 in E. now apply append_inj_l in E.
Qed.

Lemma folder_qualifies_functional (recurse : bool) (base dirPath r1 r2 : string) :
  folder_qualifies recurse base dirPath r1 ->
  folder_qualifies recurse base dirPath r2 -> r1 = r2.
Proof.
  intros (H1 & _) (H2 & _). rewrite H1 in H2. now apply append_inj_l in H2.
Qed.

(** The filter of enumerateFilesInternal, in the words above. *)
Lemma fileToReport_iff (recurse : bool) (base nm file : string) :
  ZipIO.fileToReport recurse base (Str.empty base) nm = Some file
  <-> ~ unsafe_name nm
      /\ ~ ends_in_slash nm
      /\ nm = String.append base file
      /\ (recurse = false -> ~ occurs "/" file).
Proof.
  unfold ZipIO.fileToReport. split.
  - destruct (negb (Str.empty base)
              && negb (Str.strncmp_eq base nm (String.length base))) eqn:E1;
      [discriminate|].
    destruct (isUnsafeZipEntryName nm) eqn:E2; [discriminate|].
    destruct (match Str.back nm with
              | Some c => Ascii.eqb c "/" | None => false end) eqn:E3;
      [discriminate|].
    destruct (negb recurse
              && match Str.find_char "/" (String.length base) nm with
                 | Some _ => true | None => false end) eqn:E4;
      [discriminate|].
    intros [= <-].
    set (file := if negb (Str.empty base)
                 then Str.substr_from (String.length base) nm else nm) in *.
    assert (Hnm : nm = String.append base file).
    { subst file. destruct base as [|c base']; [reflexivity|].
      cbn [Str.empty negb andb] in *. apply negb_false_iff in E1.
      exact (strncmp_eq_prefix _ _ E1). }
    clearbody file. subst nm.
    split; [|split; [|split; [reflexivity|]]].
    + rewrite <- isUnsafeZipEntryName_iff. congruence.
    + rewrite <- back_ends_in_slash. intros Hb. rewrite Hb in E3. discriminate.
    + intros ->. cbn [negb andb] in E4. rewrite find_char_append in E4.
      apply find_char_None_iff.
      now destruct (Str.find_char "/" 0 file).
  - intros (Hsafe & Hend & -> & Hrec).
    rewrite strncmp_eq_append. cbn [negb]. rewrite andb_false_r.
    destruct (isUnsafeZipEntryName (String.append base file)) eqn:E2.
    { apply isUnsafeZipEntryName_iff in E2. contradiction. }
    destruct (Str.back (String.append base file)) as [c|] eqn:Eb.
    + destruct (Ascii.eqb_spec c "/") as [->|Hc].
      { apply back_ends_in_slash in Eb. contradiction. }
      assert (Hr : (negb recurse
                    && match Str.find_char "/" (String.length base)
                               (String.append base file) with
                       | Some _ => true | None => false end) = false).
      { destruct recurse; [reflexivity|]. cbn [negb andb].
        rewrite find_char_append.
        apply find_char_None_iff in Hrec; [|reflexivity]. now rewrite Hrec. }
      rewrite Hr. rewrite substr_from_append.
      now destruct base.
    + apply back_None in Eb.
      assert (Hr : (negb recurse
                    && match Str.find_char "/" (String.length base)
                               (String.append base file) with
                       | Some _ => true | None => false end) = false).
      { destruct recurse; [reflexivity|]. cbn [negb andb].
        rewrite find_char_append.
        apply find_char_None_iff in Hrec; [|reflexivity]. now rewrite Hrec. }
      rewrite Hr. rewrite substr_from_append.
      now destruct base.
Qed.

(** The filter of enumerateFoldersInternal, in the words above. *)
Lemma folderToReport_iff (recurse : bool) (base dirPath rel : string) :
  Z.of_nat (String.length dirPath) < 2 ^ 64 ->
  ZipIO.folderToReport recurse base (Str.empty base) dirPath = Some rel
  <-> folder_qualifies recurse base dirPath rel.
Proof.
  intros Hfit. unfold ZipIO.folderToReport, folder_qualifies. split.
  - destruct (negb (Str.empty base)
              && negb (Str.strncmp_eq base dirPath (String.length base))) eqn:E1;
      [discriminate|].
    destruct (Nat.eqb (String.length dirPath) (String.length base)) eqn:E2;
      [discriminate|].
    destruct (negb recurse && _) eqn:E3; [discriminate|].
    intros [= <-].
    set (rel := Str.substr_from (String.length base) dirPath) in *.
    assert (Hd : dirPath = String.append base rel).
    { subst rel. destruct base as [|c base'].
      - cbn [String.length Str.substr_from String.append]. now destruct dirPath.
      - cbn [Str.empty negb andb] in E1. apply negb_false_iff in E1.
        exact (strncmp_eq_prefix _ _ E1). }
    clearbody rel. subst dirPath.
    split; [reflexivity|]. split.
    + intros ->. rewrite append_empty_r, Nat.eqb_refl in E2. discriminate.
    + intros -> a b Hab. cbn [negb andb] in E3.
      rewrite find_char_append in E3.
      destruct (find_char_occurs "/" a b) as (j & Hj & Hle).
      rewrite <- Hab in Hj. rewrite Hj in E3. cbn [option_map] in E3.
      apply negb_false_iff, Z.eqb_eq in E3.
      rewrite length_append in E3, Hfit.
      assert (Hlen : String.length rel = (String.length a + S (String.length b))%nat)
        by (rewrite Hab, length_append; reflexivity).
      rewrite wrap64_small in E3 by lia.
      destruct b; [reflexivity|]. cbn [String.length] in Hlen. lia.
  - intros (-> & Hne & Hrec).
    rewrite strncmp_eq_append. cbn [negb]. rewrite andb_false_r.
    assert (Hpos : (0 < String.length rel)%nat)
      by (destruct rel; [contradiction|cbn; lia]).
    rewrite length_append in Hfit |- *.
    replace (Nat.eqb (String.length base + String.length rel) (String.length base))
      with false by (symmetry; apply Nat.eqb_neq; lia).
    assert (Hr : (negb recurse
                  && match Str.find_char "/" (String.length base)
                             (String.append base rel) with
                     | Some firstSlashPos =>
                         negb (Z.of_nat firstSlashPos
                               =? wrap64 (Z.of_nat (String.length base
                                                    + String.length rel) - 1))
                     | None => false
                     end) = false).
    { destruct recurse; [reflexivity|]. cbn [negb andb].
      rewrite find_char_append.
      destruct (Str.find_char "/" 0 rel) as [i|] eqn:Ef; [|reflexivity].
      cbn [option_map].
      destruct (find_char_split "/" rel i Ef) as (a & b & Hab & Hl).
      pose proof (Hrec eq_refl a b Hab) as Hb. subst b.
      assert (Hlen : String.length rel = (i + 1)%nat)
        by (rewrite Hab, length_append, Hl; reflexivity).
      rewrite wrap64_small by lia.
      apply negb_false_iff, Z.eqb_eq. lia. }
    rewrite Hr. now rewrite substr_from_append.
Qed.

(** The base path of the enumerations, in the words above. *)
Lemma basePathToSearch_words (basePath : string) :
  searched_base basePath (fst (basePathToSearch basePath))
  /\ snd (basePathToSearch basePath)
     = Str.empty (fst (basePathToSearch basePath)).
Proof.
  unfold basePathToSearch, searched_base.
  destruct basePath as [|c r].
  { cbn. split; [left; auto|reflexivity]. }
  cbn [Str.empty negb andb].
  destruct (Str.back (String c r)) as [x|] eqn:Eb;
    [|apply back_None in Eb; discriminate].
  destruct (Ascii.eqb_spec x "/") as [->|Hx]; cbn [negb].
  - destruct (String.eqb_spec (String c r) "/") as [E|E]; cbn [fst snd Str.empty].
    + split; [left; auto|reflexivity].
    + split; [|reflexivity]. right. split; [discriminate|]. split; [exact E|].
      left. split; [now apply back_ends_in_slash|reflexivity].
  - assert (Hnot : ~ ends_in_slash (String c r)).
    { intros H. apply back_ends_in_slash in H. rewrite H in Eb.
      injection Eb as <-. now contradiction Hx. }
    destruct (String.eqb_spec (String.append (String c r) "/") "/") as [E|E].
    + cbn [String.append] in E. injection E as _ E. destruct r; discriminate.
    + cbn [fst snd String.append Str.empty]. split; [|reflexivity].
      right. split; [discriminate|]. split.
      * intros E'. apply Hnot. rewrite E'. now exists "".
      * right. split; [exact Hnot|reflexivity].
Qed.

Lemma searched_base_functional (basePath b1 b2 : string) :
  searched_base basePath b1 -> searched_base basePath b2 -> b1 = b2.
Proof.
  intros [[H1 ->]|(Hn1 & Hs1 & [[He1 ->]|[He1 ->]])]
         [[H2 ->]|(Hn2 & Hs2 & [[He2 ->]|[He2 ->]])];
    try reflexivity;
    try (destruct H1; contradiction); try (destruct H2; contradiction);
    contradiction.
Qed.

Lemma fileListing_listed (w : bool) (a : zip_t) (recurse : bool) (base : string)
    (idxs : list Z) :
  listed (file_qualifies w a recurse base) idxs
    (fileListing w a recurse base (Str.empty base) idxs).
Proof.
  unfold fileListing.
  induction idxs as [|idx idxs IH]; cbn [flat_map]; [constructor|].
  destruct (zip_get_name a idx) as [name|] eqn:En.
  - destruct (Str.empty name) eqn:Ee.
    + cbn [List.app]. apply listed_skip; [|exact IH].
      intros file (name' & nm & Hn & Hne & _).
      rewrite En in Hn. injection Hn as <-.
      now destruct name.
    + destruct (ZipIO.fileToReport recurse base (Str.empty base)
                  (ZipIO.normalizedName w a idx name)) as [file|] eqn:Ef.
      * cbn [List.app]. apply listed_take; [|exact IH].
        exists name, (ZipIO.normalizedName w a idx name).
        split; [exact En|]. split; [intros ->; discriminate|].
        split; [apply normalizedName_seen_as|].
        now apply fileToReport_iff.
      * cbn [List.app]. apply listed_skip; [|exact IH].
        intros file (name' & nm & Hn & Hne & Hseen & Hrest).
        rewrite En in Hn. injection Hn as <-.
        assert (E : nm = ZipIO.normalizedName w a idx name)
          by (eapply seen_as_functional; [exact Hseen|apply normalizedName_seen_as]).
        subst nm. apply fileToReport_iff in Hrest. congruence.
  - cbn [List.app]. apply listed_skip; [|exact IH].
    intros file (name & nm & Hn & _). congruence.
Qed.

Lemma folderListing_listed (recurse : bool) (base : string) (dirs : list string) :
  Forall directory_path dirs ->
  listed (folder_qualifies recurse base) dirs
    (folderListing recurse base (Str.empty base) dirs).
Proof.
  unfold folderListing.
  induction dirs as [|d dirs IH]; intros Hd; cbn [flat_map]; [constructor|].
  inversion Hd as [|? ? [_ Hfit] Hrest]; subst.
  destruct (ZipIO.folderToReport recurse base (Str.empty base) d) as [rel|] eqn:Ef.
  - cbn [List.app]. apply listed_take; [|now apply IH].
    now apply folderToReport_iff.
  - cbn [List.app]. apply listed_skip; [|now apply IH].
    intros rel Hq. apply folderToReport_iff in Hq; [congruence|exact Hfit].
Qed.

(** The cache a folder enumeration leaves behind holds directory paths. *)
Lemma enumerateFoldersInternal_directory_paths {St : Type} (p : ZipIO.t)
    (basePath : string) (recurse : bool) (enumFunc : option (ZipIO.EnumFunc St))
    (st : St) :
  (forall idx name, zip_get_name (ZipIO.m_zipArchive p) idx = Some name ->
                    Z.of_nat (String.length name) < 2 ^ 64) ->
  Forall directory_path (ZipIO.m_cachedDirectoriesList p) ->
  Forall directory_path
    (ZipIO.m_cachedDirectoriesList
       (snd (fst (ZipIO.enumerateFoldersInternal p basePath recurse enumFunc st)))).
Proof.
  intros Hfit Hc. unfold ZipIO.enumerateFoldersInternal.
  destruct enumFunc as [f|]; [|exact Hc].
  destruct (basePathToSearch basePath) as [base emptyBasePath].
  destruct (ZipIO.m_cachedDirectoriesList p) as [|d ds] eqn:Ec.
  - destruct (zip_get_num_entries (ZipIO.m_zipArchive p) <? 0);
      [cbn [fst snd]; now rewrite Ec|].
    pose proof (buildDirectories_loop_directory_paths
                  (indices (zip_get_num_entries (ZipIO.m_zipArchive p))) p []
                  Hfit) as Hbuild.
    rewrite Ec in Hbuild. specialize (Hbuild (Forall_nil _)).
    destruct (ZipIO.buildDirectories_loop _ p []) as [p1 set1].
    cbn [fst snd ZipIO.set_cache ZipIO.m_cachedDirectoriesList] in *.
    now apply sort_Forall.
  - cbn [fst snd]. now rewrite Ec.
Qed.

(** File enumeration, in the words of the interface.  With [base] the base
    path searched, the names reported are, in the order of the archive,
    the names of the entries that qualify: a name that is not empty and,
    as the enumeration looks at it, safe, not ending in a slash, under the
    base path, and directly in it unless the enumeration recurses; what is
    reported is that name without the base path.  A callback that stops
    the enumeration gets the start of this list, a callback that never
    stops gets all of it. *)
Theorem file_enumeration_listing {St : Type} (p : ZipIO.t)
    (basePath base : string) (recurse : bool) (f : ZipIO.EnumFunc St) (st : St) :
  0 <= zip_get_num_entries (ZipIO.m_zipArchive p) ->
  searched_base basePath base ->
  let qualifies :=
    file_qualifies (quirk p) (ZipIO.m_zipArchive p) recurse base in
  let idxs := indices (zip_get_num_entries (ZipIO.m_zipArchive p)) in
  let reported :=
    snd (snd (ZipIO.enumerateFilesInternal p basePath recurse
                (Some (traced f)) (st, []))) in
  (exists rest,
     forall names, listed qualifies idxs names <-> names = reported ++ rest)
  /\ (never_stops f ->
      forall names, listed qualifies idxs names <-> names = reported).
Proof.
  intros Hn Hbase. cbv zeta.
  destruct (basePathToSearch_words basePath) as [Hb He].
  assert (E : base = fst (basePathToSearch basePath))
    by (eapply searched_base_functional; eassumption).
  subst base.
  pose proof (enumerateFilesInternal_listing p basePath recurse f st Hn) as H.
  cbv zeta in H. rewrite He in H. destruct H as [[rest Hrest] Hall].
  pose proof (fileListing_listed (quirk p) (ZipIO.m_zipArchive p) recurse
                (fst (basePathToSearch basePath))
                (indices (zip_get_num_entries (ZipIO.m_zipArchive p)))) as HL.
  assert (Hfun := listed_functional _
                    (file_qualifies_functional (quirk p) (ZipIO.m_zipArchive p)
                       recurse (fst (basePathToSearch basePath)))).
  split.
  - exists rest. intros names. rewrite <- Hrest. split.
    + intros H. exact (Hfun _ _ _ H HL).
    + intros ->. exact HL.
  - intros Hns names. rewrite (Hall Hns). split.
    + intros H. exact (Hfun _ _ _ H HL).
    + intros ->. exact HL.
Qed.

(** Folder enumeration, in the words of the interface.  When it returns
    true, with [base] the base path searched, the names reported are, in
    the order of the directory cache it leaves behind, the names of the
    cached directories that qualify: under the base path, not the base
    path itself, and directly in it unless the enumeration recurses; what
    is reported is the directory without the base path.  A callback that
    stops the enumeration gets the start of this list, a callback that
    never stops gets all of it. *)
Theorem folder_enumeration_listing {St : Type} (p : ZipIO.t)
    (basePath base : string) (recurse : bool) (f : ZipIO.EnumFunc St) (st : St) :
  (forall idx name, zip_get_name (ZipIO.m_zipArchive p) idx = Some name ->
                    Z.of_nat (String.length name) < 2 ^ 64) ->
  Forall directory_path (ZipIO.m_cachedDirectoriesList p) ->
  searched_base basePath base ->
  let res := ZipIO.enumerateFoldersInternal p basePath recurse
               (Some (traced f)) (st, []) in
  fst (fst res) = true ->
  let qualifies := folder_qualifies recurse base in
  let dirs := ZipIO.m_cachedDirectoriesList (snd (fst res)) in
  let reported := snd (snd res) in
  (exists rest,
     forall names, listed qualifies dirs names <-> names = reported ++ rest)
  /\ (never_stops f ->
      forall names, listed qualifies dirs names <-> names = reported).
Proof.
  intros Hfit Hc Hbase. cbv zeta. intros Hres.
  destruct (basePathToSearch_words basePath) as [Hb He].
  assert (E : base = fst (basePathToSearch basePath))
    by (eapply searched_base_functional; eassumption).
  subst base.
  pose proof (enumerateFoldersInternal_listing p basePath recurse f st Hres) as H.
  cbv zeta in H. rewrite He in H. destruct H as [[rest Hrest] Hall].
  pose proof (folderListing_listed recurse (fst (basePathToSearch basePath)) _
                (enumerateFoldersInternal_directory_paths p basePath recurse
                   (Some (traced f)) (st, []) Hfit Hc)) as HL.
  assert (Hfun := listed_functional _
                    (folder_qualifies_functional recurse
                       (fst (basePathToSearch basePath)))).
  split.
  - exists rest. intros names. rewrite <- Hrest. split.
    + intros H. exact (Hfun _ _ _ H HL).
    + intros ->. exact HL.
  - intros Hns names. rewrite (Hall Hns). split.
    + intros H. exact (Hfun _ _ _ H HL).
    + intros ->. exact HL.
Qed.

End ListingsInWords.

(** [file_enumeration_listing] on the nested archive, listed recursively
    under a/: the one entry qualifies and is reported as b/c.txt. *)
Lemma file_enumeration_listing_witness :
  listed (@file_qualifies SimpleZip.libzip
            (quirk (SimpleZip.provider nestedArchive)) nestedArchive true "a/")
    [0] ["b/c.txt"].
Proof.
  assert (Hbase : searched_base "a/" "a/").
  { right. split; [discriminate|]. split; [discriminate|].
    left. split; [now exists "a"|reflexivity]. }
  apply (proj2 (@file_enumeration_listing SimpleZip.libzip unit
                  (SimpleZip.provider nestedArchive) "a/" "a/" true keepGoing tt
                  ltac:(vm_compute; discriminate) Hbase)
           (fun _ _ => eq_refl) ["b/c.txt"]).
  reflexivity.
Defined.

(** [folder_enumeration_listing] on the nested archive, listed from the
    root without recursion: of the cached a/ and a/b/ only a/ qualifies. *)
Lemma folder_enumeration_listing_witness :
  listed (folder_qualifies false "") ["a/"; "a/b/"] ["a/"].
Proof.
  assert (Hbase : searched_base "" "") by (left; auto).
  apply (proj2 (@folder_enumeration_listing SimpleZip.libzip unit
                  (SimpleZip.provider nestedArchive) "" "" false keepGoing tt
                  nestedArchive_names_fit (Forall_nil _) Hbase eq_refl)
           (fun _ _ => eq_refl) ["a/"]).
  reflexivity.
Defined.

Section CacheOrder.
Context {LZ : LibZip}.

(** Ascending in the order of [operator<] on strings. *)
Fixpoint ascending (l : list string) : Prop :=
  match l with
  | x :: ((y :: _) as r) => String.leb x y = true /\ ascending r
  | _ => True
  end.

Lemma insert_sorted_ascending (x : string) (l : list string) :
  ascending l -> ascending (Str.insert_sorted x l).
Proof.
  induction l as [|y l IH]; [intros _; exact I|].
  intros Hl. cbn [Str.insert_sorted].
  destruct (String.leb x y) eqn:E; [split; assumption|].
  assert (Hyx : String.leb y x = true)
    by (destruct (String.leb_total x y); congruence).
  destruct l as [|z l].
  - cbn. auto.
  - destruct Hl as [Hyz Hl]. specialize (IH Hl).
    cbn [Str.insert_sorted] in *.
    destruct (String.leb x z); cbn [ascending] in *; auto.
Qed.

Lemma sort_ascending (l : list string) : ascending (Str.sort l).
Proof.
  induction l as [|x l IH]; [exact I|].
  cbn [Str.sort fold_right]. now apply insert_sorted_ascending.
Qed.

Lemma insert_sorted_NoDup (x : string) (l : list string) :
  ~ In x l -> NoDup l -> NoDup (Str.insert_sorted x l).
Proof.
  induction l as [|y l IH]; intros Hx Hl; cbn [Str.insert_sorted].
  - constructor; [intros []|constructor].
  - destruct (String.leb x y); [now constructor|].
    inversion Hl as [|? ? Hy Hl']; subst. constructor.
    + intros Hin. apply insert_sorted_In in Hin. destruct Hin as [->|Hin].
      * apply Hx. now left.
      * contradiction.
    + apply IH; [|exact Hl']. intros Hin. apply Hx. now right.
Qed.

Lemma sort_NoDup (l : list string) : NoDup l -> NoDup (Str.sort l).
Proof.
  induction l as [|x l IH]; intros Hl; [constructor|].
  inversion Hl as [|? ? Hx Hl']; subst. cbn [Str.sort fold_right].
  apply insert_sorted_NoDup; [|now apply IH].
  intros Hin. apply Hx. now apply sort_In.
Qed.

(** The cache has no repetition, and the set knows every cached path. *)
Definition cache_tracked (set cached : list string) : Prop :=
  NoDup cached /\ incl cached set.

Lemma ancestors_loop_tracked (fuel : nat) (nameStr : string)
    (set cached : list string) :
  cache_tracked set cached ->
  cache_tracked (fst (ZipIO.ancestors_loop fuel nameStr set cached))
    (snd (ZipIO.ancestors_loop fuel nameStr set cached)).
Proof.
  revert nameStr set cached.
  induction fuel as [|fuel IH]; intros nameStr set cached Ht; [exact Ht|].
  rewrite ancestors_loop_S.
  destruct (ancestors_dir nameStr) as [dir|]; [|exact Ht].
  apply IH. destruct Ht as [Hnd Hincl].
  destruct (existsb (String.eqb dir) set) eqn:E; [now split|].
  assert (Hnot : ~ In dir set).
  { intros Hin. assert (existsb (String.eqb dir) set = true); [|congruence].
    apply existsb_exists. exists dir. split; [exact Hin|apply String.eqb_refl]. }
  split.
  - apply NoDup_app; [exact Hnd|constructor; [intros []|constructor]|].
    intros x Hx [<-|[]]. apply Hnot. now apply Hincl.
  - intros x Hx. apply in_app_or in Hx. destruct Hx as [Hx|[<-|[]]].
    + right. now apply Hincl.
    + now left.
Qed.

Lemma buildDirectories_loop_tracked (idxs : list Z) (p : ZipIO.t)
    (set : list string) :
  cache_tracked set (ZipIO.m_cachedDirectoriesList p) ->
  cache_tracked (snd (ZipIO.buildDirectories_loop idxs p set))
    (ZipIO.m_cachedDirectoriesList (fst (ZipIO.buildDirectories_loop idxs p set))).
Proof.
  revert p set. induction idxs as [|idx rest IH]; intros p set Ht;
    cbn [ZipIO.buildDirectories_loop]; [exact Ht|].
  destruct (zip_get_name (ZipIO.m_zipArchive p) idx) as [name|]; [|now apply IH].
  destruct (Str.empty name); [now apply IH|].
  destruct (workaround_step p) as (Hw & _ & Hcache & _). rewrite Hw.
  set (p1 := snd (ZipIO.malformed_windows_path_separators_workaround p)) in *.
  destruct (isUnsafeZipEntryName _).
  - apply IH. now rewrite Hcache.
  - match goal with
    | |- context [ZipIO.ancestors_loop ?n ?s set ?c] =>
        pose proof (ancestors_loop_tracked n s set c) as Hanc
    end.
    destruct (ZipIO.ancestors_loop _ _ set (ZipIO.m_cachedDirectoriesList p1))
      as [set1 cached1].
    cbn [fst snd] in Hanc. apply IH.
    cbn [ZipIO.set_cache ZipIO.m_cachedDirectoriesList]. apply Hanc.
    now rewrite Hcache.
Qed.

(** The directory cache a folder enumeration builds is sorted and has no
    path twice. *)
Theorem built_cache_sorted_unique {St : Type} (p : ZipIO.t) (basePath : string)
    (recurse : bool) (enumFunc : option (ZipIO.EnumFunc St)) (st : St) :
  ZipIO.m_cachedDirectoriesList p = [] ->
  let p' := snd (fst (ZipIO.enumerateFoldersInternal p basePath recurse
                        enumFunc st)) in
  ascending (ZipIO.m_cachedDirectoriesList p')
  /\ NoDup (ZipIO.m_cachedDirectoriesList p').
Proof.
  intros Hc. cbv zeta. unfold ZipIO.enumerateFoldersInternal.
  destruct enumFunc as [f|]; [|cbn [fst snd]; rewrite Hc; split; [exact I|constructor]].
  destruct (basePathToSearch basePath) as [base emptyBasePath].
  rewrite Hc.
  destruct (zip_get_num_entries (ZipIO.m_zipArchive p) <? 0);
    [cbn [fst snd]; rewrite Hc; split; [exact I|constructor]|].
  pose proof (buildDirectories_loop_tracked
                (indices (zip_get_num_entries (ZipIO.m_zipArchive p))) p []) as Ht.
  rewrite Hc in Ht. specialize (Ht (conj (NoDup_nil _) (incl_nil_l _))).
  destruct (ZipIO.buildDirectories_loop _ p []) as [p1 set1].
  cbn [fst snd ZipIO.set_cache ZipIO.m_cachedDirectoriesList] in *.
  split; [apply sort_ascending|apply sort_NoDup, Ht].
Qed.

End CacheOrder.

(** An archive that names the same directories several times over. *)
Definition manyDirsArchive : SimpleZip.archive :=
  SimpleZip.mk_archive
    [SimpleZip.plain "b/y/2.txt" ZIP_OPSYS_UNIX ZIP_CM_STORE [x41];
     SimpleZip.plain "a/" ZIP_OPSYS_UNIX ZIP_CM_STORE [];
     SimpleZip.plain "b/x/1.txt" ZIP_OPSYS_UNIX ZIP_CM_STORE [x41];
     SimpleZip.plain "a/1.txt" ZIP_OPSYS_UNIX ZIP_CM_STORE [x41]]
    false.

(** What the cache holds for it. *)
Example manyDirsArchive_cache :
  ZipIO.m_cachedDirectoriesList
    (snd (fst (ZipIO.enumerateFolders (SimpleZip.provider manyDirsArchive) ""
                 (Some keepGoing) tt)))
  = ["a/"; "b/"; "b/x/"; "b/y/"].
Proof. reflexivity. Qed.

(** [built_cache_sorted_unique] on that archive. *)
Lemma built_cache_sorted_unique_witness :
  NoDup (ZipIO.m_cachedDirectoriesList
           (snd (fst (ZipIO.enumerateFoldersInternal
                        (SimpleZip.provider manyDirsArchive) "" false
                        (Some keepGoing) tt)))).
Proof.
  exact (proj2 (@built_cache_sorted_unique SimpleZip.libzip unit
                  (SimpleZip.provider manyDirsArchive) "" false
                  (Some keepGoing) tt eq_refl)).
Defined.

(** * WrappedZipArchive *)

Module WrappedZipArchive.
Section WithLibZip.
Context {LZ : LibZip}.

(** [zip_get_archive_flag(pZip, ZIP_AFL_RDONLY, 0)] of libzip. *)
Variable zip_get_archive_flag_RDONLY : zip_t -> Z.

(** What a [close] does to the outside: the libzip call it makes on the
    handle and the call of [postCloseFunc]. *)
Inductive event : Type :=
  | zip_discard (pZip : zip_t)
  | zip_close (pZip : zip_t)
  | postCloseFunc_called.

(** The members; [postCloseFunc] is whether the [std::function] holds a
    callable. *)
Record t : Type := mk {
  pZip : option zip_t;
  postCloseFunc : bool;
  readOnly : bool
}.

(** The constructor. *)
Definition construct (pZip : option zip_t) (postCloseFunc : bool) : t :=
  mk pZip postCloseFunc
     match pZip with
     | Some a => zip_get_archive_flag_RDONLY a =? 1
     | None => false
     end.

(** [handle()] *)
Definition handle (w : t) : option zip_t := pZip w.

(** [close()]: the events in order, and the object afterwards. *)
Definition close (w : t) : list event * t :=
  match pZip w with
  | None => ([], w)
  | Some a =>
      ((if readOnly w then [zip_discard a] else [zip_close a])
       ++ (if postCloseFunc w then [postCloseFunc_called] else []),
       mk None (postCloseFunc w) (readOnly w))
  end.

(** [n] calls of [close] in a row. *)
Fixpoint close_times (n : nat) (w : t) : list event * t :=
  match n with
  | O => ([], w)
  | S k =>
      let '(first, w1) := close w in
      let '(later, w2) := close_times k w1 in
      (first ++ later, w2)
  end.

End WithLibZip.
End WrappedZipArchive.

(** However often [close] runs on a wrapped archive (the destructor calls
    it), the handle is released once: an archive opened read-only is
    discarded and never committed, any other is committed, then
    [postCloseFunc] runs once if there is one, and the handle is null
    afterwards; a wrapper around a null handle does nothing. *)
Theorem wrapped_archive_closes_once {LZ : LibZip} (flag : zip_t -> Z)
    (pZip : option zip_t) (postCloseFunc : bool) (n : nat) :
  let w := WrappedZipArchive.construct flag pZip postCloseFunc in
  fst (WrappedZipArchive.close_times (S n) w)
  = match pZip with
    | None => []
    | Some a =>
        (if flag a =? 1
         then WrappedZipArchive.zip_discard a
         else WrappedZipArchive.zip_close a)
        :: (if postCloseFunc then [WrappedZipArchive.postCloseFunc_called] else [])
    end
  /\ WrappedZipArchive.handle (snd (WrappedZipArchive.close_times (S n) w)) = None.
Proof.
  cbv zeta.
  assert (Hclosed : forall k cb ro,
            WrappedZipArchive.close_times k (WrappedZipArchive.mk None cb ro)
            = ([], WrappedZipArchive.mk None cb ro)).
  { induction k as [|k IH]; intros cb ro; [reflexivity|].
    cbn [WrappedZipArchive.close_times WrappedZipArchive.close
         WrappedZipArchive.pZip]. now rewrite IH. }
  cbn [WrappedZipArchive.close_times]. unfold WrappedZipArchive.construct.
  destruct pZip as [a|].
  - unfold WrappedZipArchive.close.
    cbn [WrappedZipArchive.pZip WrappedZipArchive.readOnly
         WrappedZipArchive.postCloseFunc].
    rewrite Hclosed. cbn [fst snd WrappedZipArchive.handle WrappedZipArchive.pZip].
    rewrite app_nil_r. split; [|reflexivity].
    now destruct (flag a =? 1).
  - unfold WrappedZipArchive.close. cbn [WrappedZipArchive.pZip].
    rewrite Hclosed. split; reflexivity.
Qed.

(** * The source provider bridge *)

Module SourceProvider.

(** Modelled from the spec: the interface WzZipIOSourceReadProvider of
    ZipIOProvider.h, which is not among these sources: seek, tell,
    readBytes, modTime and fileSize of a caller-supplied byte stream, each
    returning its result and the stream afterwards. *)
Class ReadProvider : Type := {
  provider_t : Type;
  tell : provider_t -> option Z * provider_t;
  seek : provider_t -> Z -> bool * provider_t;
  readBytes : provider_t -> Z -> option Z * list byte * provider_t;
  modTime : provider_t -> option Z * provider_t;
  fileSize : provider_t -> option Z * provider_t
}.

(** The error codes of zip.h and of errno the bridge sets, and any other. *)
Inductive zip_er : Type :=
  | ZIP_ER_OK | ZIP_ER_INVAL | ZIP_ER_OPNOTSUPP | ZIP_ER_TELL
  | ZIP_ER_other (code : Z).

Inductive sys_er : Type :=
  | errno_0 | ECANCELED | EOVERFLOW | errno_other (code : Z).

(** [zip_error_t] *)
Record zip_error_t : Type := zip_error_set {
  zip_err : zip_er;
  sys_err : sys_er
}.

(** [zip_source_cmd_t] *)
Inductive zip_source_cmd_t : Type :=
  | ZIP_SOURCE_OPEN | ZIP_SOURCE_READ | ZIP_SOURCE_CLOSE | ZIP_SOURCE_STAT
  | ZIP_SOURCE_ERROR | ZIP_SOURCE_FREE | ZIP_SOURCE_SEEK | ZIP_SOURCE_TELL
  | ZIP_SOURCE_BEGIN_WRITE | ZIP_SOURCE_COMMIT_WRITE | ZIP_SOURCE_ROLLBACK_WRITE
  | ZIP_SOURCE_WRITE | ZIP_SOURCE_SEEK_WRITE | ZIP_SOURCE_TELL_WRITE
  | ZIP_SOURCE_SUPPORTS | ZIP_SOURCE_REMOVE | ZIP_SOURCE_RESERVED_1
  | ZIP_SOURCE_BEGIN_WRITE_CLONING | ZIP_SOURCE_ACCEPT_EMPTY
  | ZIP_SOURCE_GET_FILE_ATTRIBUTES | ZIP_SOURCE_SUPPORTS_REOPEN.

Definition ZIP_INT64_MAX : Z := 2 ^ 63 - 1.

(** A [uint64_t] read as a [zip_int64_t]. *)
Definition to_int64 (z : Z) : Z :=
  let m := z mod 2 ^ 64 in if m <? 2 ^ 63 then m else m - 2 ^ 64.

(** What the callback leaves in [data]. *)
Inductive output : Type :=
  | nothing
  | bytes (read : list byte)
  | stat (mtime : option Z) (size : option Z)
  | error_data (e : zip_error_t).

Section WithProvider.
Context {RP : ReadProvider}.

(** What [data] points to when libzip calls the callback. *)
Variable data_t : Type.

(** Of libzip: [sizeof(zip_stat_t)], [zip_source_seek_compute_offset],
    [zip_error_to_data] and [zip_source_make_command_bitmap]. *)
Variable sizeof_zip_stat : Z.
Variable zip_source_seek_compute_offset :
  Z -> Z -> data_t -> Z -> zip_error_t -> Z * zip_error_t.
Variable zip_error_to_data : zip_error_t -> Z -> Z.
Variable zip_source_make_command_bitmap : list zip_source_cmd_t -> Z.

(** The members of WzZipIOSourceReadProvider next to the stream; the
    retain count is a natural number, its overflow is left out. *)
Record t : Type := mk {
  provider : provider_t;
  error_ : zip_error_t;
  retainCount : nat
}.

(** The constructor: [zip_error_init]. *)
Definition construct (s : provider_t) : t :=
  mk s (zip_error_set ZIP_ER_OK errno_0) 0.

(** [inform_source_keep()] *)
Definition inform_source_keep (ctx : t) : t :=
  mk (provider ctx) (error_ ctx) (S (retainCount ctx)).

(** [inform_source_free()] *)
Definition inform_source_free (ctx : t) : t :=
  if Nat.ltb 0 (retainCount ctx)
  then mk (provider ctx) (error_ ctx) (Nat.pred (retainCount ctx))
  else ctx.

Definition set_provider (ctx : t) (s : provider_t) : t :=
  mk s (error_ ctx) (retainCount ctx).

Definition set_error (ctx : t) (e : zip_error_t) : t :=
  mk (provider ctx) e (retainCount ctx).

(** The commands the SUPPORTS answer lists. *)
Definition advertised : list zip_source_cmd_t :=
  [ZIP_SOURCE_OPEN; ZIP_SOURCE_READ; ZIP_SOURCE_CLOSE; ZIP_SOURCE_STAT;
   ZIP_SOURCE_ERROR; ZIP_SOURCE_FREE; ZIP_SOURCE_SEEK; ZIP_SOURCE_TELL].

(** [wzZipIOSourceProviderCallback(state, data, len, cmd)]: the returned
    value, what is left in [data], and the state afterwards. *)
Definition wzZipIOSourceProviderCallback (ctx : t) (data : data_t) (len : Z)
    (cmd : zip_source_cmd_t) : Z * output * t :=
  match cmd with
  | ZIP_SOURCE_OPEN =>
      let '(_, s) := seek (provider ctx) 0 in
      (0, nothing, set_provider ctx s)
  | ZIP_SOURCE_READ =>
      if ZIP_INT64_MAX <? len
      then (-1, nothing, set_error ctx (zip_error_set ZIP_ER_INVAL errno_0))
      else
        let '(r, stored, s) := readBytes (provider ctx) len in
        (match r with Some n => to_int64 n | None => -1 end,
         bytes stored, set_provider ctx s)
  | ZIP_SOURCE_CLOSE => (0, nothing, ctx)
  | ZIP_SOURCE_STAT =>
      if len <? sizeof_zip_stat
      then (-1, nothing, set_error ctx (zip_error_set ZIP_ER_INVAL errno_0))
      else
        let '(mtime, s1) := modTime (provider ctx) in
        let '(size, s2) := fileSize s1 in
        (sizeof_zip_stat, stat mtime size, set_provider ctx s2)
  | ZIP_SOURCE_ERROR =>
      (zip_error_to_data (error_ ctx) len, error_data (error_ ctx), ctx)
  | ZIP_SOURCE_FREE => (0, nothing, inform_source_free ctx)
  | ZIP_SOURCE_TELL =>
      let '(currentOffset, s) := tell (provider ctx) in
      match currentOffset with
      | None =>
          (-1, nothing,
           set_error (set_provider ctx s) (zip_error_set ZIP_ER_TELL ECANCELED))
      | Some offset =>
          if ZIP_INT64_MAX <? offset
          then (-1, nothing,
                set_error (set_provider ctx s)
                  (zip_error_set ZIP_ER_TELL EOVERFLOW))
          else (to_int64 offset, nothing, set_provider ctx s)
      end
  | ZIP_SOURCE_SEEK =>
      let '(currentOffset, s) := tell (provider ctx) in
      match currentOffset with
      | None =>
          (-1, nothing,
           set_error (set_provider ctx s) (zip_error_set ZIP_ER_TELL ECANCELED))
      | Some offset =>
          let '(size, s1) := fileSize s in
          let '(new_offset, e) :=
            zip_source_seek_compute_offset offset
              (match size with Some n => n | None => 0 end) data len
              (error_ ctx) in
          if new_offset <? 0
          then (-1, nothing, set_error (set_provider ctx s1) e)
          else
            let '(ok, s2) := seek s1 new_offset in
            if ok
            then (0, nothing, set_error (set_provider ctx s2) e)
            else (-1, nothing, set_error (set_provider ctx s2) e)
      end
  | ZIP_SOURCE_SUPPORTS =>
      (zip_source_make_command_bitmap advertised, nothing, ctx)
  | _ =>
      (-1, nothing, set_error ctx (zip_error_set ZIP_ER_OPNOTSUPP errno_0))
  end.

End WithProvider.
End SourceProvider.

(** A provider over a byte sequence in memory: the position and the bytes. *)
Definition memoryProvider : SourceProvider.ReadProvider := {|
  SourceProvider.provider_t := (Z * list byte)%type;
  SourceProvider.tell := fun s => (Some (fst s), s);
  SourceProvider.seek :=
    fun s pos =>
      if pos <=? Z.of_nat (List.length (snd s)) then (true, (pos, snd s))
      else (false, s);
  SourceProvider.readBytes :=
    fun s n =>
      let bs := firstn (Z.to_nat n) (skipn (Z.to_nat (fst s)) (snd s)) in
      (Some (Z.of_nat (List.length bs)), bs,
       (fst s + Z.of_nat (List.length bs), snd s));
  SourceProvider.modTime := fun s => (None, s);
  SourceProvider.fileSize := fun s => (Some (Z.of_nat (List.length (snd s))), s)
|}.

(** libzip's [zip_source_seek_compute_offset] on (offset, whence) with
    whence 0, 1, 2 for SEEK_SET, SEEK_CUR, SEEK_END. *)
Definition seek_compute_offset (offset length : Z) (args : Z * Z) (len : Z)
    (e : SourceProvider.zip_error_t) : Z * SourceProvider.zip_error_t :=
  let target :=
    if snd args =? 0 then fst args
    else if snd args =? 1 then offset + fst args
    else length + fst args in
  if (target <? 0) || (length <? target)
  then (-1, SourceProvider.zip_error_set SourceProvider.ZIP_ER_INVAL
              SourceProvider.errno_0)
  else (target, e).

(** The bridge over [memoryProvider]. *)
Definition memoryCallback :=
  @SourceProvider.wzZipIOSourceProviderCallback memoryProvider (Z * Z)%type 64
    seek_compute_offset (fun _ _ => 8) (fun _ => 255).

Definition memoryContext (pos : Z) (data : list byte) (retained : nat)
    : @SourceProvider.t memoryProvider :=
  @SourceProvider.mk memoryProvider (pos, data)
    (SourceProvider.zip_error_set SourceProvider.ZIP_ER_OK SourceProvider.errno_0)
    retained.

Section BridgeProperties.
Import SourceProvider.
Context {RP : ReadProvider}.
Variable data_t : Type.
Variable sizeof_zip_stat : Z.
Variable compute_offset : Z -> Z -> data_t -> Z -> zip_error_t -> Z * zip_error_t.
Variable error_to_data : zip_error_t -> Z -> Z.
Variable make_command_bitmap : list zip_source_cmd_t -> Z.

Local Abbreviation callback :=
  (wzZipIOSourceProviderCallback data_t sizeof_zip_stat compute_offset
     error_to_data make_command_bitmap).

Lemma to_int64_small (z : Z) : 0 <= z <= ZIP_INT64_MAX -> to_int64 z = z.
Proof.
  unfold ZIP_INT64_MAX, to_int64. intros Hz.
  rewrite Z.mod_small by lia.
  destruct (Z.ltb_spec z (2 ^ 63)); lia.
Qed.

(** A command that the SUPPORTS answer does not list (and is not SUPPORTS
    itself) is refused: the callback returns -1 with the error
    "operation not supported", and leaves the stream, the data and the
    retain count alone. *)
Theorem unlisted_command_refused (ctx : t) (data : data_t) (len : Z)
    (cmd : zip_source_cmd_t) :
  ~ In cmd advertised ->
  cmd <> ZIP_SOURCE_SUPPORTS ->
  callback ctx data len cmd
  = (-1, nothing, mk (provider ctx) (zip_error_set ZIP_ER_OPNOTSUPP errno_0)
                    (retainCount ctx)).
Proof.
  intros Hnot Hsup. unfold advertised in Hnot.
  destruct cmd; try reflexivity; try contradiction;
    exfalso; apply Hnot; cbn; tauto.
Qed.

(** READ: a length above [ZIP_INT64_MAX] is refused with "invalid
    argument" before the stream is asked; otherwise, for a stream that
    returns at most the bytes asked for, the callback returns -1 exactly
    when the stream has no value, else the count of the stream, and the
    error slot is as it was. *)
Theorem read_command (ctx : t) (data : data_t) (len : Z) :
  0 <= len ->
  (forall n, fst (fst (readBytes (provider ctx) len)) = Some n -> 0 <= n <= len) ->
  let res := callback ctx data len ZIP_SOURCE_READ in
  (ZIP_INT64_MAX < len ->
   res = (-1, nothing, mk (provider ctx) (zip_error_set ZIP_ER_INVAL errno_0)
                         (retainCount ctx)))
  /\ (len <= ZIP_INT64_MAX ->
      fst (fst res)
      = match fst (fst (readBytes (provider ctx) len)) with
        | Some n => n
        | None => -1
        end
      /\ (fst (fst res) = -1 <-> fst (fst (readBytes (provider ctx) len)) = None)
      /\ error_ (snd res) = error_ ctx
      /\ retainCount (snd res) = retainCount ctx).
Proof.
  intros Hlen Hcontract. cbv zeta.
  unfold wzZipIOSourceProviderCallback. split.
  - intros Hbig. apply Z.ltb_lt in Hbig. now rewrite Hbig.
  - intros Hfit. replace (ZIP_INT64_MAX <? len) with false
      by (symmetry; apply Z.ltb_ge; lia).
    destruct (readBytes (provider ctx) len) as [[r stored] s]. cbn [fst snd] in *.
    destruct r as [n|].
    + specialize (Hcontract n eq_refl).
      rewrite to_int64_small by lia.
      repeat split; try reflexivity; [lia|discriminate].
    + repeat split; reflexivity.
Qed.

(** TELL: -1 with the error (TELL, ECANCELED) when the stream cannot tell
    its position, -1 with (TELL, EOVERFLOW) when the position is above
    [ZIP_INT64_MAX], and otherwise the position, with the error slot as it
    was. *)
Theorem tell_command (ctx : t) (data : data_t) (len : Z) :
  (forall offset, fst (tell (provider ctx)) = Some offset -> 0 <= offset < 2 ^ 64) ->
  let res := callback ctx data len ZIP_SOURCE_TELL in
  match fst (tell (provider ctx)) with
  | None =>
      fst (fst res) = -1
      /\ error_ (snd res) = zip_error_set ZIP_ER_TELL ECANCELED
  | Some offset =>
      if ZIP_INT64_MAX <? offset
      then fst (fst res) = -1
           /\ error_ (snd res) = zip_error_set ZIP_ER_TELL EOVERFLOW
      else fst (fst res) = offset /\ error_ (snd res) = error_ ctx
  end.
Proof.
  intros Hcontract. cbv zeta.
  unfold wzZipIOSourceProviderCallback.
  destruct (tell (provider ctx)) as [[offset|] s]; cbn [fst snd] in *.
  - specialize (Hcontract offset eq_refl).
    destruct (Z.ltb_spec ZIP_INT64_MAX offset); cbn [fst snd].
    + split; reflexivity.
    + rewrite to_int64_small by lia. split; reflexivity.
  - split; reflexivity.
Qed.

(** SEEK: the callback returns 0 or -1; it returns 0 exactly when the
    stream told its position, libzip computed a non-negative new offset
    from it and from the size of the stream (0 when unknown), and the
    stream's seek to that offset succeeded.  When the stream cannot tell
    its position the error is (TELL, ECANCELED) and neither its size nor
    its seek is asked for. *)
Theorem seek_command (ctx : t) (data : data_t) (len : Z) :
  let res := callback ctx data len ZIP_SOURCE_SEEK in
  (fst (fst res) = 0 \/ fst (fst res) = -1)
  /\ (fst (fst res) = 0
      <-> exists offset,
            fst (tell (provider ctx)) = Some offset
            /\ let s := snd (tell (provider ctx)) in
               let size := match fst (fileSize s) with Some n => n | None => 0 end in
               let new_offset :=
                 fst (compute_offset offset size data len (error_ ctx)) in
               0 <= new_offset
               /\ fst (seek (snd (fileSize s)) new_offset) = true)
  /\ (fst (tell (provider ctx)) = None ->
      res = (-1, nothing,
             mk (snd (tell (provider ctx))) (zip_error_set ZIP_ER_TELL ECANCELED)
                (retainCount ctx))).
Proof.
  cbv zeta. unfold wzZipIOSourceProviderCallback.
  destruct (tell (provider ctx)) as [[offset|] s]; cbn [fst snd].
  - destruct (fileSize s) as [size s1]. cbn [fst snd].
    destruct (compute_offset offset _ data len (error_ ctx)) as [new_offset e]
      eqn:Ec.
    cbn [fst snd].
    destruct (Z.ltb_spec new_offset 0) as [Hneg|Hpos]; cbn [fst snd].
    + split; [now right|]. split; [|discriminate]. split; [discriminate|].
      intros (o & [= <-] & H0 & _). rewrite Ec in H0. cbn [fst] in H0. lia.
    + destruct (seek s1 new_offset) as [ok s2] eqn:Es. cbn [fst snd].
      destruct ok; cbn [fst snd].
      * split; [now left|]. split; [|discriminate]. split; [|reflexivity].
        intros _. exists offset. split; [reflexivity|].
        rewrite Ec. cbn [fst]. rewrite Es. split; [exact Hpos|reflexivity].
      * split; [now right|]. split; [|discriminate]. split; [discriminate|].
        intros (o & [= <-] & _ & H). rewrite Ec in H. cbn [fst] in H.
        rewrite Es in H. discriminate.
  - split; [now right|]. split; [|reflexivity]. split; [discriminate|].
    intros (o & H & _). discriminate.
Qed.

(** STAT: with room for less than a [zip_stat_t] the callback returns -1
    with "invalid argument" and does not ask the stream; otherwise it
    returns the size of a [zip_stat_t] and reports exactly the
    modification time and the size the stream has, leaving out what the
    stream does not know. *)
Theorem stat_command (ctx : t) (data : data_t) (len : Z) :
  let res := callback ctx data len ZIP_SOURCE_STAT in
  (len < sizeof_zip_stat ->
   res = (-1, nothing, mk (provider ctx) (zip_error_set ZIP_ER_INVAL errno_0)
                         (retainCount ctx)))
  /\ (sizeof_zip_stat <= len ->
      fst res
      = (sizeof_zip_stat,
         stat (fst (modTime (provider ctx)))
              (fst (fileSize (snd (modTime (provider ctx))))))
      /\ error_ (snd res) = error_ ctx).
Proof.
  cbv zeta. unfold wzZipIOSourceProviderCallback. split.
  - intros H. apply Z.ltb_lt in H. now rewrite H.
  - intros H. apply Z.ltb_ge in H. rewrite H.
    destruct (modTime (provider ctx)) as [mtime s1]. cbn [fst snd].
    destruct (fileSize s1) as [size s2]. split; reflexivity.
Qed.

(** The retain count is the business of FREE alone: FREE takes one off
    unless it is zero already, so it undoes one [inform_source_keep], and
    no other command changes it; OPEN, CLOSE and FREE return 0 whatever
    the stream does, OPEN even when the seek to 0 fails. *)
Theorem retain_count_and_free (ctx : t) (data : data_t) (len : Z)
    (cmd : zip_source_cmd_t) :
  let res := callback ctx data len cmd in
  retainCount (snd res)
  = (if match cmd with ZIP_SOURCE_FREE => true | _ => false end
     then Nat.pred (retainCount ctx) else retainCount ctx)
  /\ snd (callback (inform_source_keep ctx) data len ZIP_SOURCE_FREE) = ctx
  /\ (In cmd [ZIP_SOURCE_OPEN; ZIP_SOURCE_CLOSE; ZIP_SOURCE_FREE] ->
      fst (fst res) = 0 /\ error_ (snd res) = error_ ctx).
Proof.
  cbv zeta. split; [|split].
  - destruct cmd; cbn [wzZipIOSourceProviderCallback]; try reflexivity.
    + now destruct (seek (provider ctx) 0).
    + destruct (ZIP_INT64_MAX <? len); [reflexivity|].
      now destruct (readBytes (provider ctx) len) as [[r stored] s].
    + destruct (len <? sizeof_zip_stat); [reflexivity|].
      destruct (modTime (provider ctx)) as [mtime s1].
      now destruct (fileSize s1).
    + unfold inform_source_free.
      destruct (retainCount ctx) eqn:E; simpl; [exact E|reflexivity].
    + destruct (tell (provider ctx)) as [[offset|] s]; [|reflexivity].
      destruct (fileSize s) as [size s1].
      destruct (compute_offset offset _ data len (error_ ctx)) as [n e].
      destruct (n <? 0); [reflexivity|].
      destruct (seek s1 n) as [[|] s2]; reflexivity.
    + destruct (tell (provider ctx)) as [[offset|] s]; [|reflexivity].
      now destruct (ZIP_INT64_MAX <? offset).
  - cbn [wzZipIOSourceProviderCallback snd]. unfold inform_source_free,
      inform_source_keep. cbn [retainCount Nat.ltb Nat.leb Nat.pred provider
                                error_].
    now destruct ctx.
  - intros [<-|[<-|[<-|[]]]]; cbn [wzZipIOSourceProviderCallback].
    + now destruct (seek (provider ctx) 0).
    + split; reflexivity.
    + unfold inform_source_free. now destruct (Nat.ltb 0 (retainCount ctx)).
Qed.

End BridgeProperties.

(** [unlisted_command_refused] on a WRITE command. *)
Lemma unlisted_command_refused_witness :
  memoryCallback (memoryContext 0 [x41] 1) (0, 0) 0 SourceProvider.ZIP_SOURCE_WRITE
  = (-1, SourceProvider.nothing,
     SourceProvider.mk (RP := memoryProvider) (0, [x41])
       (SourceProvider.zip_error_set SourceProvider.ZIP_ER_OPNOTSUPP
          SourceProvider.errno_0) 1).
Proof.
  apply (@unlisted_command_refused memoryProvider (Z * Z)%type 64
           seek_compute_offset (fun _ _ => 8) (fun _ => 255)
           (memoryContext 0 [x41] 1) (0, 0) 0 SourceProvider.ZIP_SOURCE_WRITE).
  - cbn. intuition discriminate.
  - discriminate.
Defined.

(** [read_command] on a read of one byte from two. *)
Lemma read_command_witness :
  fst (fst (memoryCallback (memoryContext 0 [x41; x42] 1) (0, 0) 1
              SourceProvider.ZIP_SOURCE_READ)) = 1.
Proof.
  refine (proj1 (proj2
    (@read_command memoryProvider (Z * Z)%type 64 seek_compute_offset
       (fun _ _ => 8) (fun _ => 255) (memoryContext 0 [x41; x42] 1) (0, 0) 1
       _ _) _)).
  - lia.
  - intros n H. vm_compute in H. injection H as <-. lia.
  - unfold SourceProvider.ZIP_INT64_MAX. lia.
Defined.

(** [tell_command] at position 5. *)
Lemma tell_command_witness :
  fst (fst (memoryCallback (memoryContext 5 [] 0) (0, 0) 0
              SourceProvider.ZIP_SOURCE_TELL)) = 5.
Proof.
  refine (proj1
    (@tell_command memoryProvider (Z * Z)%type 64 seek_compute_offset
       (fun _ _ => 8) (fun _ => 255) (memoryContext 5 [] 0) (0, 0) 0 _)).
  intros offset H. vm_compute in H. injection H as <-. lia.
Defined.

(** A seek past the end is refused by libzip's offset computation, one to
    the end succeeds and moves the stream. *)
Example seek_command_samples :
  fst (fst (memoryCallback (memoryContext 0 [x41; x42] 0) (3, 0) 16
              SourceProvider.ZIP_SOURCE_SEEK)) = -1
  /\ fst (memoryCallback (memoryContext 0 [x41; x42] 0) (0, 2) 16
            SourceProvider.ZIP_SOURCE_SEEK)
     = (0, SourceProvider.nothing)
  /\ SourceProvider.provider
       (snd (memoryCallback (memoryContext 0 [x41; x42] 0) (0, 2) 16
               SourceProvider.ZIP_SOURCE_SEEK))
     = (2, [x41; x42]).
Proof. repeat split; reflexivity. Qed.

(** * The post-close closure of createZipArchiveMemory *)

Module CreatedMemoryZip.
Section WithSource.

(** libzip's source of the new archive: [zip_source_is_deleted],
    [zip_source_stat] ([Some size] when it returns 0), [zip_source_open]
    ([Some] the opened source when it returns 0) and [zip_source_read]
    ([None] for a negative result, otherwise the bytes stored). *)
Variable zip_source : Type.
Variable zip_source_is_deleted : zip_source -> bool.
Variable zip_source_stat : zip_source -> option Z.
Variable zip_source_open : zip_source -> option zip_source.
Variable zip_source_read : zip_source -> Z -> option (list byte) * zip_source.

(** What the closure does to the outside, in order. *)
Inductive event : Type :=
  | source_opened
  | source_closed
  | source_freed
  | onCloseFunc (zipDataBuffer : option (list byte)).

(** The closure that runs after the archive is closed. *)
Definition postClose (pMemSource : zip_source) : list event :=
  if zip_source_is_deleted pMemSource
  then [source_freed; onCloseFunc None]
  else
    match zip_source_stat pMemSource with
    | None => [source_freed; onCloseFunc None]
    | Some size =>
        match zip_source_open pMemSource with
        | None => [source_freed; onCloseFunc None]
        | Some opened =>
            let zipDataBuffer := ZipIO.zeroes size in
            let '(readResult, _) := zip_source_read opened size in
            match readResult with
            | None =>
                [source_opened; source_closed; source_freed; onCloseFunc None]
            | Some stored =>
                if Z.of_nat (List.length stored) <? size
                then [source_opened; source_closed; source_freed;
                      onCloseFunc None]
                else [source_opened; source_closed; source_freed;
                      onCloseFunc (Some (ZipIO.overlay stored zipDataBuffer))]
            end
        end
    end.

End WithSource.
End CreatedMemoryZip.

(** Whatever libzip answers, the closure frees the source exactly once,
    calls the completion callback exactly once and last, and closes the
    source exactly when it opened it, before freeing it; the callback
    gets data only when the source was not deleted, stat and open
    succeeded and the read returned the stated size, and the data is
    then what was read, as many bytes as stat reported (for a read
    within what was asked). *)
Theorem completion_protocol (zip_source : Type)
    (is_deleted : zip_source -> bool) (src_stat : zip_source -> option Z)
    (src_open : zip_source -> option zip_source)
    (src_read : zip_source -> Z -> option (list byte) * zip_source)
    (pMemSource : zip_source) :
  let events :=
    CreatedMemoryZip.postClose zip_source is_deleted src_stat src_open src_read
      pMemSource in
  exists before result,
    events = before ++ [CreatedMemoryZip.source_freed;
                        CreatedMemoryZip.onCloseFunc result]
    /\ (before = []
        \/ before = [CreatedMemoryZip.source_opened;
                     CreatedMemoryZip.source_closed])
    /\ (before <> [] <-> is_deleted pMemSource = false
                         /\ src_stat pMemSource <> None
                         /\ src_open pMemSource <> None)
    /\ (forall data, result = Some data ->
          exists size opened stored,
            is_deleted pMemSource = false
            /\ src_stat pMemSource = Some size
            /\ src_open pMemSource = Some opened
            /\ fst (src_read opened size) = Some stored
            /\ size <= Z.of_nat (List.length stored)
            /\ (Z.of_nat (List.length stored) <= size ->
                data = stored /\ Z.of_nat (List.length data) = size)).
Proof.
  cbv zeta. unfold CreatedMemoryZip.postClose.
  destruct (is_deleted pMemSource) eqn:Ed.
  { exists [], None. split; [reflexivity|]. split; [now left|]. split.
    - split; [intros Hb; now contradiction Hb | intros (Hd & _); discriminate].
    - discriminate. }
  destruct (src_stat pMemSource) as [size|] eqn:Es.
  2:{ exists [], None. split; [reflexivity|]. split; [now left|]. split.
      - split; [intros Hb; now contradiction Hb
               | intros (_ & Hs & _); now contradiction Hs].
      - discriminate. }
  destruct (src_open pMemSource) as [opened|] eqn:Eo.
  2:{ exists [], None. split; [reflexivity|]. split; [now left|]. split.
      - split; [intros Hb; now contradiction Hb
               | intros (_ & _ & Ho); now contradiction Ho].
      - discriminate. }
  assert (Hopened :
    [CreatedMemoryZip.source_opened; CreatedMemoryZip.source_closed] <> []
    <-> false = false /\ Some size <> None /\ Some opened <> None).
  { split; [intros _; repeat split; discriminate | intros _; discriminate]. }
  destruct (src_read opened size) as [[stored|] after] eqn:Er.
  - destruct (Z.ltb_spec (Z.of_nat (List.length stored)) size) as [Hshort|Hfull].
    + exists [CreatedMemoryZip.source_opened; CreatedMemoryZip.source_closed], None.
      split; [reflexivity|]. split; [now right|]. split; [exact Hopened|].
      discriminate.
    + exists [CreatedMemoryZip.source_opened; CreatedMemoryZip.source_closed],
        (Some (ZipIO.overlay stored (ZipIO.zeroes size))).
      split; [reflexivity|]. split; [now right|]. split; [exact Hopened|].
      intros data [= <-]. exists size, opened, stored.
      rewrite Er. repeat split; auto.
      * unfold ZipIO.overlay, ZipIO.zeroes.
        rewrite skipn_all2 by (rewrite repeat_length; lia). apply app_nil_r.
      * unfold ZipIO.overlay, ZipIO.zeroes.
        rewrite skipn_all2 by (rewrite repeat_length; lia).
        rewrite app_nil_r. lia.
  - exists [CreatedMemoryZip.source_opened; CreatedMemoryZip.source_closed], None.
    split; [reflexivity|]. split; [now right|]. split; [exact Hopened|].
    discriminate.
Qed.
